(** * BioEncoder losses: a shallow embedding of [bioencoder/core/losses.py]

    The development embeds the two loss classes of the module,
    [SupConLoss] (constructor and [forward]) and [LabelSmoothingLoss]
    ([forward]), and proves properties of them.

    Numbers.  The Python floats that the constructor computes with
    (branch lengths, distances from the root, the correlation) are IEEE
    binary64 numbers with the operations of the Standard Library's
    [SpecFloat], rounded to nearest; the value stored into the float32
    matrix is rounded to binary32.  [/] and [math.sqrt] return an error
    where Python raises.  Entries of torch tensors are values of [tval]: a
    real number or one of the IEEE special values [+inf], [-inf], [nan],
    with the IEEE rules for the special values (division by zero,
    logarithm of zero, [0 * inf], ...).  In [forward] the float32
    arithmetic of torch is idealised: rounding is not modelled and zero is
    unsigned, but [torch.exp] has the range of float32 and returns zero
    or [+inf] outside it.  The two temperatures and the smoothing factor
    are real numbers.

    Exceptions.  A function that can raise returns a [result]; the
    exceptions are those of Python and torch ([ValueError] with the
    module's own messages, [IndexError], [RuntimeError], ...).

    Libraries.  The tree comes from dendropy and is modelled from the
    specification's description of it; tensors are lists of rows, and the
    feature tensor a shape with row-major data, so that [view] changes the
    shape only. *)

From Stdlib Require Import Reals Lra Lia ZArith String Ascii List.
From Stdlib Require Import SpecFloat.
From stdpp Require Import base option list strings sorting gmap.
Import ListNotations.

Local Open Scope R_scope.

(** ** Exceptions and results *)

(** The messages of the [ValueError]s the module raises itself, and of
    [math.sqrt]. *)
Inductive value_error : Type :=
| DuplicateTipLabels      (* "Duplicate tip labels found in the tree" *)
| NoSharedAncestor        (* "Tips ... do not share an ancestor in the tree." *)
| FeaturesRank            (* "`features` needs to be [bsz, n_views, ...]" *)
| LabelsAndMask           (* "Cannot define both `labels` and `mask`" *)
| NumLabelsMismatch       (* "Num of labels does not match num of features" *)
| UnknownMode             (* "Unknown mode: {}" *)
| SameBatchSize           (* "Input tensors must have the same batch size" *)
| MathDomain              (* "math domain error" *)
| EmptyTensorList.        (* "torch.cat(): expected a non-empty list of Tensors" *)

Inductive exn : Type :=
| ValueError (msg : value_error)
| NameError
| KeyError
| ZeroDivisionError
| IndexError
| RuntimeError
| DuplicateTaxonError.    (* dendropy's NewickReaderDuplicateTaxonError *)

Inductive result (A : Type) : Type :=
| Ok (a : A)
| Raise (e : exn).
Arguments Ok {A} a.
Arguments Raise {A} e.

#[global] Instance result_ret : MRet result := fun A a => Ok a.
#[global] Instance result_bind : MBind result := fun A B f m =>
  match m with
  | Ok a => f a
  | Raise e => Raise e
  end.

(** A [for] loop whose body may raise: the first exception ends it. *)
Fixpoint for_each {A S : Type} (body : S -> A -> result S) (s : S) (l : list A)
  : result S :=
  match l with
  | [] => Ok s
  | x :: l' => s' ← body s x; for_each body s' l'
  end.

(** ** Tensor entries *)

Inductive tval : Type :=
| Fin (x : R)
| PInf
| NInf
| NaN.

Definition tneg (a : tval) : tval :=
  match a with
  | Fin x => Fin (- x)
  | PInf => NInf
  | NInf => PInf
  | NaN => NaN
  end.

Definition tadd (a b : tval) : tval :=
  match a, b with
  | NaN, _ | _, NaN => NaN
  | PInf, NInf | NInf, PInf => NaN
  | PInf, _ | _, PInf => PInf
  | NInf, _ | _, NInf => NInf
  | Fin x, Fin y => Fin (x + y)
  end.

Definition tsub (a b : tval) : tval := tadd a (tneg b).

(** [inf * x]: the sign of [x] decides, and [inf * 0] is [nan]. *)
Definition inf_times (pos : bool) (x : R) : tval :=
  match total_order_T x 0 with
  | inleft (left _) => if pos then NInf else PInf
  | inleft (right _) => NaN
  | inright _ => if pos then PInf else NInf
  end.

Definition tmul (a b : tval) : tval :=
  match a, b with
  | NaN, _ | _, NaN => NaN
  | Fin x, Fin y => Fin (x * y)
  | Fin x, PInf | PInf, Fin x => inf_times true x
  | Fin x, NInf | NInf, Fin x => inf_times false x
  | PInf, PInf | NInf, NInf => PInf
  | PInf, NInf | NInf, PInf => NInf
  end.

Definition tdiv (a b : tval) : tval :=
  match a, b with
  | NaN, _ | _, NaN => NaN
  | Fin x, Fin y =>
      if Req_dec_T y 0 then inf_times true x else Fin (x / y)
  | Fin _, (PInf | NInf) => Fin 0
  | PInf, Fin y => if Rlt_dec y 0 then NInf else PInf
  | NInf, Fin y => if Rlt_dec y 0 then PInf else NInf
  | (PInf | NInf), (PInf | NInf) => NaN
  end.

(** The exponential of an entry, as a function on the extended reals. *)
Definition texp_exact (a : tval) : tval :=
  match a with
  | Fin x => Fin (exp x)
  | PInf => PInf
  | NInf => Fin 0
  | NaN => NaN
  end.

(** [torch.exp] on a float32 tensor.  An exponential at or below [2^-150],
    half the least positive float32, rounds to zero; one at or above
    [2^128 - 2^103], half an ulp above the greatest float32, rounds to
    [+inf]. *)
Definition texp (a : tval) : tval :=
  match a with
  | Fin x =>
      if Rle_dec (exp x) (/ 2 ^ 150) then Fin 0
      else if Rle_dec (2 ^ 128 - 2 ^ 103) (exp x) then PInf
      else Fin (exp x)
  | PInf => PInf
  | NInf => Fin 0
  | NaN => NaN
  end.

Definition tlog (a : tval) : tval :=
  match a with
  | Fin x =>
      match total_order_T x 0 with
      | inleft (left _) => NaN
      | inleft (right _) => NInf
      | inright _ => Fin (ln x)
      end
  | PInf => PInf
  | NInf => NaN
  | NaN => NaN
  end.

(** [torch.max] of two entries; [nan] propagates. *)
Definition tmax (a b : tval) : tval :=
  match a, b with
  | NaN, _ | _, NaN => NaN
  | PInf, _ | _, PInf => PInf
  | NInf, c | c, NInf => c
  | Fin x, Fin y => Fin (Rmax x y)
  end.

(** A matrix is the list of its rows. *)
Abbreviation matrix := (list (list tval)).

(** [torch.eye(n)] *)
Definition eye (n : nat) : matrix :=
  map (fun i => map (fun j => if Nat.eqb i j then Fin 1 else Fin 0) (seq 0 n))
      (seq 0 n).

(** [m[i, j] = v] *)
Definition tensor_set (m : matrix) (i j : nat) (v : tval) : result matrix :=
  match m !! i with
  | Some row =>
      if decide (j < length row)%nat then Ok (<[i := <[j := v]> row]> m)
      else Raise IndexError
  | None => Raise IndexError
  end.

(** [m[i, j] = m[j, i] = v]: the targets are assigned left to right. *)
Definition tensor_set_sym (m : matrix) (i j : nat) (v : tval) : result matrix :=
  m' ← tensor_set m i j v; tensor_set m' j i v.

(** [itertools.combinations_with_replacement(range(n), 2)] *)
Definition combinations_with_replacement_2 (n : nat) : list (nat * nat) :=
  flat_map (fun i => map (fun j => (i, j)) (seq i (n - i))) (seq 0 n).

(** ** Python floats *)

(** A Python [float] is an IEEE binary64 number; its operations round to
    nearest, ties to even. *)
Abbreviation float64 := spec_float.

Definition f64_zero : float64 := S754_zero false.
Definition f64_add : float64 -> float64 -> float64 := SFadd 53 1024.
Definition f64_mul : float64 -> float64 -> float64 := SFmul 53 1024.
Definition f64_div : float64 -> float64 -> float64 := SFdiv 53 1024.
Definition f64_sqrt : float64 -> float64 := SFsqrt 53 1024.

(** The float nearest to [m * 2^e]. *)
Definition f64 (m e : Z) : float64 := binary_normalize 53 1024 m e false.

(** [math.sqrt(x)]: a negative argument is a "math domain error"; [nan]
    and [-0.0] are returned as they are. *)
Definition math_sqrt (x : float64) : result float64 :=
  if SFltb x f64_zero then Raise (ValueError MathDomain) else Ok (f64_sqrt x).

(** [x / y] on two floats: a zero divisor of either sign raises. *)
Definition float_truediv (x y : float64) : result float64 :=
  if SFeqb y f64_zero then Raise ZeroDivisionError else Ok (f64_div x y).

(** [t[i, j] = x] for a Python float [x] and a float32 tensor [t]: the
    number is rounded to binary32, and read back as a tensor entry. *)
Definition to_float32 (x : float64) : spec_float :=
  match x with
  | S754_finite s m e => binary_round 24 128 s m e
  | _ => x
  end.

Definition float32_value (x : spec_float) : tval :=
  match x with
  | S754_zero _ => Fin 0
  | S754_infinity false => PInf
  | S754_infinity true => NInf
  | S754_nan => NaN
  | S754_finite s m e => Fin (IZR (cond_Zopp s (Zpos m)) * powerRZ 2 e)
  end.

Definition tensor_of_float (x : float64) : tval := float32_value (to_float32 x).

(** [x / y] for the two temperatures and for the smoothing factor, Python
    floats taken as real numbers. *)
Definition float_div (x y : R) : result R :=
  if Req_dec_T y 0 then Raise ZeroDivisionError else Ok (x / y).

(** ** The phylogenetic tree *)

(** Modelled from the spec: dendropy's [Tree] (an external library) as the
    spec's data model and design notes describe it: a rooted tree whose
    leaves carry a taxon label, whose branches carry a length, and in which
    a node is named by the path of child positions leading to it from the
    root.  The root has no incoming branch.  A branch length is the float
    the parser read. *)
#[local] Unset Elimination Schemes.
Inductive tree : Type :=
| Leaf (taxon : string)
| Inner (children : list (float64 * tree)).
#[local] Set Elimination Schemes.

Abbreviation node := (list nat).

(** Modelled from the spec: [tree.seed_node], the root. *)
Definition seed_node (t : tree) : node := [].

Definition leaves_of_children (leaves : tree -> list (node * string)) :=
  fix go (k : nat) (cs : list (float64 * tree)) : list (node * string) :=
    match cs with
    | [] => []
    | c :: cs' =>
        map (fun pa => (k :: fst pa, snd pa)) (leaves (snd c)) ++ go (S k) cs'
    end.

(** Modelled from the spec: [tree.leaf_node_iter()], the leaves in preorder,
    each with its taxon label. *)
Fixpoint leaf_node_iter (t : tree) : list (node * string) :=
  match t with
  | Leaf a => [([], a)]
  | Inner cs => leaves_of_children leaf_node_iter 0 cs
  end.

(** Modelled from the spec: [node.distance_from_root()], the cumulative
    branch length from the root to the node, summed in floats from the
    node upwards. *)
Fixpoint distance_from_root (t : tree) (p : node) : float64 :=
  match p, t with
  | k :: p', Inner cs =>
      match cs !! k with
      | Some (len, c) => f64_add len (distance_from_root c p')
      | None => f64_zero
      end
  | _, _ => f64_zero
  end.

Fixpoint common_prefix (p q : node) : node :=
  match p, q with
  | a :: p', b :: q' => if decide (a = b) then a :: common_prefix p' q' else []
  | _, _ => []
  end.

(** The leaf a taxon label denotes: the first leaf that carries it. *)
Definition leaf_of_label (t : tree) (a : string) : option node :=
  (fun x => fst (snd x)) <$> list_find (fun pa => snd pa = a) (leaf_node_iter t).

(** Modelled from the spec: [tree.mrca(taxon_labels=[a, b])], the most
    recent common ancestor by root-to-node path comparison; [None] when a
    label names no leaf. *)
Definition mrca (t : tree) (a b : string) : option node :=
  pa ← leaf_of_label t a; pb ← leaf_of_label t b; Some (common_prefix pa pb).

(** The taxon labels of the leaves, in preorder. *)
Definition leaf_labels (t : tree) : list string := snd <$> leaf_node_iter t.

(** Modelled from the spec: [Tree.get(path=tree_path, schema="newick")] of
    dendropy.  The argument is the tree the file describes; the parsed
    tree has uniquely labelled leaves, and a file in which two leaves
    share a taxon label is refused. *)
Definition Tree_get (file : tree) : result tree :=
  if decide (NoDup (leaf_labels file)) then Ok file
  else Raise DuplicateTaxonError.

(** ** [SupConLoss.__init__] *)

Record SupConLoss : Type := {
  temperature : R;
  contrast_mode : string;
  base_temperature : R;
  tree_path : option tree;
  tips : list string;
  bm_corr : matrix
}.

(** Python compares [str] by code point, left to right. *)
Definition string_le (a b : string) : Prop := String.leb a b = true.

#[global] Instance string_le_dec a b : Decision (string_le a b).
Proof. unfold string_le. solve_decision. Defined.

(** [sorted(...)] on strings. *)
Definition sorted (l : list string) : list string := merge_sort string_le l.

(** The dict comprehension [{leaf.taxon.label: leaf.distance_from_root()
    for leaf in tree.leaf_node_iter()}]: a later leaf with a label already
    present overwrites the value stored under it. *)
Definition tip_depths_of (t : tree) : gmap string float64 :=
  foldl (fun d leaf => <[snd leaf := distance_from_root t (fst leaf)]> d)
        ∅ (leaf_node_iter t).

(** [list(d.keys())] *)
Definition dict_keys (d : gmap string float64) : list string :=
  fst <$> map_to_list d.

(** [d[k]] *)
Definition dict_get (d : gmap string float64) (k : string) : result float64 :=
  match d !! k with
  | Some v => Ok v
  | None => Raise KeyError
  end.

(** [l[i]] *)
Definition list_get {A : Type} (l : list A) (i : nat) : result A :=
  match l !! i with
  | Some v => Ok v
  | None => Raise IndexError
  end.

(** The body of the loop over [combinations_with_replacement(range(n_tips), 2)].
    The message of the duplicate-label [ValueError] is an f-string over the
    name [tips], which is not bound in [__init__] (the list is [self.tips]):
    evaluating it raises [NameError] before the [ValueError] is built. *)
Definition init_body (t : tree) (tip_depths : gmap string float64)
    (tips : list string) (bm : matrix) (ij : nat * nat) : result matrix :=
  let '(i, j) := ij in
  if decide (i = j) then Ok bm
  else
    ti ← list_get tips i;
    tj ← list_get tips j;
    if decide (ti = tj) then Raise NameError
    else
      match mrca t ti tj with
      | None => Raise (ValueError NoSharedAncestor)
      | Some anc =>
          if decide (anc = seed_node t) then tensor_set_sym bm i j (Fin 0)
          else
            let bm_var := distance_from_root t anc in
            t1_bm_var ← dict_get tip_depths ti;
            t2_bm_var ← dict_get tip_depths tj;
            s ← math_sqrt (f64_mul t1_bm_var t2_bm_var);
            c ← float_truediv bm_var s;
            tensor_set_sym bm i j (tensor_of_float c)
      end.

(** The tree branch of [__init__]: the tip list and the correlation matrix. *)
Definition build_bm_corr (t : tree) : result (list string * matrix) :=
  let tip_depths := tip_depths_of t in
  let tips := sorted (dict_keys tip_depths) in
  let n_tips := length tips in
  bm ← for_each (init_body t tip_depths tips) (eye n_tips)
                (combinations_with_replacement_2 n_tips);
  Ok (tips, bm).

(** [SupConLoss(temperature, contrast_mode, base_temperature, tree_path)];
    [tree_path] stands for the tree the file at that path describes.
    Without a tree the attributes [tips] and [bm_corr] do not exist; they
    are empty here and [forward] never reads them then. *)
Definition SupConLoss_init (temperature : R) (contrast_mode : string)
    (base_temperature : R) (tree_path : option tree) : result SupConLoss :=
  match tree_path with
  | None =>
      Ok {| temperature := temperature; contrast_mode := contrast_mode;
            base_temperature := base_temperature; tree_path := None;
            tips := []; bm_corr := [] |}
  | Some file =>
      t ← Tree_get file;
      tb ← build_bm_corr t;
      Ok {| temperature := temperature; contrast_mode := contrast_mode;
            base_temperature := base_temperature; tree_path := Some file;
            tips := fst tb; bm_corr := snd tb |}
  end.

(** ** Tensors given by a shape and contiguous row-major data *)

Record tensor (A : Type) : Type := { shape : list nat; data : list A }.
Arguments shape {A} t.
Arguments data {A} t.

(** [len(t.shape)] and [t.shape[k]] *)
Definition rank {A} (t : tensor A) : nat := length (shape t).
Definition size {A} (t : tensor A) (k : nat) : nat := nth k (shape t) 0%nat.

(** [features.view(features.shape[0], features.shape[1], -1)]: when the two
    leading sizes multiply to zero the size [-1] stands for cannot be
    inferred and torch raises. *)
Definition view3 {A} (f : tensor A) : result (tensor A) :=
  let b := size f 0 in
  let v := size f 1 in
  if decide (b * v = 0)%nat then Raise RuntimeError
  else Ok {| shape := [b; v; Nat.div (length (data f)) (b * v)]; data := data f |}.

(** The vector [features[b, v, :]] of a rank-3 tensor. *)
Definition feature_vec {A} (f : tensor A) (b v : nat) : list A :=
  take (size f 2) (drop ((b * size f 1 + v) * size f 2) (data f)).

(** [features[:, v]] *)
Definition select_view {A} (f : tensor A) (v : nat) : list (list A) :=
  map (fun b => feature_vec f b v) (seq 0 (size f 0)).

(** [torch.unbind(features, dim=1)] *)
Definition unbind1 {A} (f : tensor A) : list (list (list A)) :=
  map (select_view f) (seq 0 (size f 1)).

(** [torch.cat(ms, dim=0)]; an empty sequence of tensors is refused with
    a [ValueError]. *)
Definition cat0 {A} (ms : list (list (list A))) : result (list (list A)) :=
  match ms with
  | [] => Raise (ValueError EmptyTensorList)
  | _ => Ok (concat ms)
  end.

(** [m.repeat(a, c)] of a matrix: [a] copies down, [c] copies across. *)
Definition tile {A} (a c : nat) (m : list (list A)) : list (list A) :=
  concat (replicate a (map (fun row => concat (replicate c row)) m)).

(** ** Row and matrix operations of torch *)

Definition tsum (l : list tval) : tval := foldr tadd (Fin 0) l.

(** [t.mean()] of a vector: the sum over the count, [nan] when empty. *)
Definition tmean (l : list tval) : tval := tdiv (tsum l) (Fin (INR (length l))).

Definition dot (a c : list tval) : tval := tsum (zip_with tmul a c).

(** [torch.matmul(a, c.T)] *)
Definition matmul_T (a c : matrix) : matrix :=
  map (fun x => map (fun y => dot x y) c) a.

Definition row_max (row : list tval) : tval :=
  match row with
  | [] => NInf
  | x :: xs => foldl tmax x xs
  end.

(** [torch.max(m, dim=1, keepdim=True)]: a reduction over a dimension of
    size zero is refused.  The matrix it is applied to has as many columns
    as the batch has views, so it has no column exactly when it has no row
    or an empty row. *)
Definition max_dim1 (m : matrix) : result (list tval) :=
  if forallb (fun row => negb (Nat.eqb (length row) 0)) m
     && negb (Nat.eqb (length m) 0)
  then Ok (map row_max m) else Raise IndexError.

(** [m - col] and the like: a column broadcast along the rows. *)
Definition broadcast_col (f : tval -> tval -> tval) (m : matrix)
    (col : list tval) : matrix :=
  zip_with (fun row c => map (fun x => f x c) row) m col.

Definition same_shape (m1 m2 : matrix) : bool :=
  bool_decide (map length m1 = map length m2).

(** [m1 * m2], entry by entry, for tensors of one shape. *)
Definition tensor_mul (m1 m2 : matrix) : result matrix :=
  if same_shape m1 m2 then Ok (zip_with (zip_with tmul) m1 m2)
  else Raise RuntimeError.

(** [torch.scatter(torch.ones_like(m), 1, torch.arange(n).view(-1, 1), 0)]:
    ones of the shape of [m], with a zero at column [r] of every row
    [r < n]; torch refuses an index with more rows than [m] or pointing
    past the end of a row. *)
Definition scatter_self (n : nat) (m : matrix) : result matrix :=
  if bool_decide (n <= length m)%nat
     && forallb (fun r => Nat.ltb r (length (nth r m []))) (seq 0 n)
  then Ok (imap (fun r row =>
                   let ones := map (fun _ => Fin 1) row in
                   if decide (r < n)%nat then <[r := Fin 0]> ones else ones) m)
  else Raise RuntimeError.

(** ** [SupConLoss.forward] *)

(** An index into a dimension of size [n]: negative indices count from the
    end. *)
Definition wrap_index (n : nat) (k : Z) : result nat :=
  if decide (0 <= k < Z.of_nat n)%Z then Ok (Z.to_nat k)
  else if decide (- Z.of_nat n <= k < 0)%Z then Ok (Z.to_nat (k + Z.of_nat n))
  else Raise IndexError.

(** [m[k1, k2]] for integer tensors [k1], [k2]. *)
Definition tensor_index (m : matrix) (k1 k2 : Z) : result tval :=
  i ← wrap_index (length m) k1;
  row ← list_get m i;
  j ← wrap_index (length row) k2;
  list_get row j.

(** The body of the loop that writes the phylogenetic correlations into
    the mask. *)
Definition mask_body (self : SupConLoss) (labels : list Z) (mask : matrix)
    (ij : nat * nat) : result matrix :=
  let '(i, j) := ij in
  if decide (i <> j) then
    tip1 ← list_get labels i;
    tip2 ← list_get labels j;
    t12_corr ← tensor_index (bm_corr self) tip1 tip2;
    tensor_set_sym mask i j t12_corr
  else Ok mask.

(** [torch.eq(labels, labels.T).float()] for the column [labels]. *)
Definition label_eq_mask (labels : list Z) : matrix :=
  map (fun a => map (fun b => if decide (a = b) then Fin 1 else Fin 0) labels)
      labels.

(** The derivation of the mask (the [if]/[elif] chain on [labels] and
    [mask]). *)
Definition forward_mask (self : SupConLoss) (batch_size : nat)
    (labels : option (list Z)) (mask : option matrix) : result matrix :=
  match labels, mask with
  | Some _, Some _ => Raise (ValueError LabelsAndMask)
  | None, None => Ok (eye batch_size)
  | Some labels, None =>
      match tree_path self with
      | Some _ =>
          for_each (mask_body self labels) (eye batch_size)
                   (combinations_with_replacement_2 batch_size)
      | None =>
          if decide (length labels <> batch_size)
          then Raise (ValueError NumLabelsMismatch)
          else Ok (label_eq_mask labels)
      end
  | None, Some mask => Ok mask
  end.

(** The anchor features and their count, by [contrast_mode]. *)
Definition forward_anchor (self : SupConLoss) (features : tensor tval)
    (contrast_feature : matrix) : result (matrix * nat) :=
  if decide (contrast_mode self = "one"%string) then
    if decide (size features 1 = 0)%nat then Raise IndexError
    else Ok (select_view features 0, 1%nat)
  else if decide (contrast_mode self = "all"%string) then
    Ok (contrast_feature, size features 1)
  else Raise (ValueError UnknownMode).

(** From the logits to the scalar loss. *)
Definition forward_loss (self : SupConLoss) (batch_size : nat)
    (anchor_feature contrast_feature : matrix)
    (anchor_count contrast_count : nat) (mask : matrix) : result tval :=
  let anchor_dot_contrast :=
    map (map (fun x => tdiv x (Fin (temperature self))))
        (matmul_T anchor_feature contrast_feature) in
  logits_max ← max_dim1 anchor_dot_contrast;
  let logits := broadcast_col tsub anchor_dot_contrast logits_max in
  let mask := tile anchor_count contrast_count mask in
  logits_mask ← scatter_self (batch_size * anchor_count) mask;
  mask ← tensor_mul mask logits_mask;
  exp_logits ← tensor_mul (map (map texp) logits) logits_mask;
  let log_prob :=
    broadcast_col (fun x s => tsub x (tlog s)) logits (map tsum exp_logits) in
  mask_log_prob ← tensor_mul mask log_prob;
  let mean_log_prob_pos :=
    zip_with tdiv (map tsum mask_log_prob) (map tsum mask) in
  scale ← float_div (temperature self) (base_temperature self);
  let loss := map (tmul (Fin (- scale))) mean_log_prob_pos in
  if decide (length loss = anchor_count * batch_size)%nat
  then Ok (tmean loss) else Raise RuntimeError.

(** [SupConLoss.forward(features, labels, mask)] *)
Definition forward (self : SupConLoss) (features : tensor tval)
    (labels : option (list Z)) (mask : option matrix) : result tval :=
  if decide (rank features < 3)%nat then Raise (ValueError FeaturesRank)
  else
    features ← (if decide (3 < rank features)%nat then view3 features
                else Ok features);
    let batch_size := size features 0 in
    mask ← forward_mask self batch_size labels mask;
    let contrast_count := size features 1 in
    contrast_feature ← cat0 (unbind1 features);
    ac ← forward_anchor self features contrast_feature;
    forward_loss self batch_size (fst ac) contrast_feature (snd ac)
                 contrast_count mask.

(** ** [LabelSmoothingLoss] *)

Record LabelSmoothingLoss : Type := {
  confidence : R;
  smoothing : R;
  cls : Z;
  dim : Z
}.

(** [LabelSmoothingLoss(classes, smoothing, dim)] *)
Definition LabelSmoothingLoss_init (classes : Z) (smoothing : R) (dim : Z)
  : LabelSmoothingLoss :=
  {| confidence := 1 - smoothing; smoothing := smoothing; cls := classes;
     dim := dim |}.

(** The columns of a matrix with [n] columns, as rows. *)
Definition transpose (n : nat) (m : matrix) : matrix :=
  map (fun c => map (fun row => nth c row NaN) m) (seq 0 n).

Definition ncols (m : matrix) : nat :=
  match m with
  | [] => 0%nat
  | row :: _ => length row
  end.

(** Which axis of a matrix [dim] names: [true] for the last one. *)
Definition axis_of_dim (dim : Z) : result bool :=
  if decide (dim = 1 \/ dim = -1)%Z then Ok true
  else if decide (dim = 0 \/ dim = -2)%Z then Ok false
  else Raise IndexError.

(** [log_softmax] of a vector: each entry minus the logarithm of the sum
    of the exponentials.  torch evaluates it from the differences to the
    greatest entry, so that no exponential leaves the range of float32:
    the exponential here is the exact one. *)
Definition log_softmax_row (row : list tval) : list tval :=
  let s := tlog (tsum (map texp_exact row)) in
  map (fun x => tsub x s) row.

(** [m.log_softmax(dim=dim)] *)
Definition log_softmax (dim : Z) (m : matrix) : result matrix :=
  last_axis ← axis_of_dim dim;
  if last_axis : bool then Ok (map log_softmax_row m)
  else Ok (transpose (length m) (map log_softmax_row (transpose (ncols m) m))).

(** [torch.sum(m, dim=dim)] *)
Definition sum_dim (dim : Z) (m : matrix) : result (list tval) :=
  last_axis ← axis_of_dim dim;
  if last_axis : bool then Ok (map tsum m)
  else Ok (map tsum (transpose (ncols m) m)).

(** [m.scatter_(1, index.unsqueeze(1), v)]: row [b] receives [v] at column
    [index[b]]; an index outside the row is refused, and so is an index
    with more rows than [m]. *)
Fixpoint scatter_rows (m : matrix) (index : list Z) (v : tval) : result matrix :=
  match index, m with
  | [], _ => Ok m
  | _ :: _, [] => Raise RuntimeError
  | t :: index', row :: m' =>
      if decide (0 <= t < Z.of_nat (length row))%Z then
        rest ← scatter_rows m' index' v;
        Ok (<[Z.to_nat t := v]> row :: rest)
      else Raise RuntimeError
  end.

(** [LabelSmoothingLoss.forward(pred, target)] for a matrix [pred] and a
    vector [target]; the [isinstance] test holds by typing. *)
Definition LabelSmoothingLoss_forward (self : LabelSmoothingLoss)
    (pred : matrix) (target : list Z) : result tval :=
  if decide (length pred <> length target)
  then Raise (ValueError SameBatchSize)
  else
    pred ← log_softmax (dim self) pred;
    fill ← float_div (smoothing self) (IZR (cls self) - 1);
    let true_dist := map (map (fun _ => Fin fill)) pred in
    true_dist ← scatter_rows true_dist target (Fin (confidence self));
    prod ← tensor_mul (map (map tneg) true_dist) pred;
    sums ← sum_dim (dim self) prod;
    Ok (tmean sums).

(** ** The specification side *)

Definition sumR (l : list R) : R := foldr Rplus 0 l.

Definition dotR (a c : list R) : R := sumR (zip_with Rmult a c).

Abbreviation lift := (map Fin).
Abbreviation lift2 := (map (map Fin)).

Definition tensor_map {A B} (f : A -> B) (t : tensor A) : tensor B :=
  {| shape := shape t; data := map f (data t) |}.

(** The logits: anchor-contrast dot products divided by the temperature. *)
Definition spec_logits (T : R) (anchor contrast : list (list R))
  : list (list R) :=
  map (fun a => map (fun c => dotR a c / T) contrast) anchor.

(** The tiled mask with the self-comparison entry of every anchor row
    zeroed. *)
Definition spec_mask (anchor_count contrast_count : nat) (m : list (list R))
  : list (list R) :=
  imap (fun r row => <[r := 0]> row) (tile anchor_count contrast_count m).

(** [log_prob] of anchor row [r]: the logit minus the logarithm of the sum
    of the exponentiated logits over the non-self columns. *)
Definition spec_log_prob (r : nat) (logits : list R) : list R :=
  map (fun x => x - ln (sumR (map exp (delete r logits)))) logits.

(** [sum(mask * log_prob) / sum(mask)] of anchor row [r]. *)
Definition spec_mean_log_prob_pos (r : nat) (logits mask : list R) : R :=
  sumR (zip_with Rmult mask (spec_log_prob r logits)) / sumR mask.

(** [-(temperature / base_temperature)] times the mean over the anchor
    rows. *)
Definition spec_loss (T bT : R) (logits mask : list (list R)) : R :=
  - (T / bT)
  * (sumR (imap (fun r lm => spec_mean_log_prob_pos r (fst lm) (snd lm))
                (zip logits mask))
     / INR (length logits)).

(** The anchor and contrast features of a rank-3 tensor of reals. *)
Definition spec_contrast (f : tensor R) : list (list R) := concat (unbind1 f).

Definition spec_anchor (mode : string) (f : tensor R) : list (list R) :=
  if decide (mode = "one"%string) then select_view f 0 else spec_contrast f.

Definition spec_anchor_count (mode : string) (f : tensor R) : nat :=
  if decide (mode = "one"%string) then 1%nat else size f 1.

(** Standard cross-entropy: the mean over the batch of the negative
    log-softmax probability of the true class. *)
Definition cross_entropy (pred : matrix) (target : list Z) : tval :=
  tmean (zip_with (fun row t => tneg (nth (Z.to_nat t) (log_softmax_row row) NaN))
                  pred target).

(** [m[i, j]] as a partial function of the two positions. *)
Definition entry (m : matrix) (i j : nat) : option tval :=
  row ← m !! i; row !! j.

(** The value [__init__] stores for a pair [i <> j] of tips. *)
Definition pair_corr (t : tree) (tip_depths : gmap string float64)
    (tips : list string) (i j : nat) : result tval :=
  ti ← list_get tips i;
  tj ← list_get tips j;
  if decide (ti = tj) then Raise NameError
  else
    match mrca t ti tj with
    | None => Raise (ValueError NoSharedAncestor)
    | Some anc =>
        if decide (anc = seed_node t) then Ok (Fin 0)
        else
          t1 ← dict_get tip_depths ti;
          t2 ← dict_get tip_depths tj;
          s ← math_sqrt (f64_mul t1 t2);
          c ← float_truediv (distance_from_root t anc) s;
          Ok (tensor_of_float c)
    end.

(** The value [forward] stores in the mask for a pair [i <> j] of samples. *)
Definition pair_mask (self : SupConLoss) (labels : list Z) (i j : nat)
  : result tval :=
  tip1 ← list_get labels i;
  tip2 ← list_get labels j;
  tensor_index (bm_corr self) tip1 tip2.

(** A loop body that fills the two mirrored entries of a pair. *)
Definition fill_body (val : nat -> nat -> result tval) (m : matrix)
    (ij : nat * nat) : result matrix :=
  if decide (fst ij = snd ij) then Ok m
  else v ← val (fst ij) (snd ij); tensor_set_sym m (fst ij) (snd ij) v.

Definition square (n : nat) (m : matrix) : Prop :=
  map length m = replicate n n.

(** The branch lengths of a tree are non-negative: [0.0 <= length] holds
    of each as a comparison of floats. *)
#[local] Unset Elimination Schemes.
Inductive nonneg_lengths : tree -> Prop :=
| nonneg_leaf a : nonneg_lengths (Leaf a)
| nonneg_inner cs :
    Forall (fun c => SFleb f64_zero (fst c) = true /\ nonneg_lengths (snd c)) cs ->
    nonneg_lengths (Inner cs).
#[local] Set Elimination Schemes.

(** A valid tree: uniquely labelled leaves and non-negative branch
    lengths. *)
Definition valid_tree (t : tree) : Prop :=
  NoDup (leaf_labels t) /\ nonneg_lengths t.

(** ** Example inputs *)

(** The Newick tree [(A:1,A:2);]: two leaves share the label [A]. *)
Definition duplicate_label_tree : tree :=
  Inner [(f64 1 0, Leaf "A"); (f64 2 0, Leaf "A")].

(** The Newick tree [((A:1,B:1):1,C:2);]. *)
Definition example_tree : tree :=
  Inner [(f64 1 0, Inner [(f64 1 0, Leaf "A"); (f64 1 0, Leaf "B")]);
         (f64 2 0, Leaf "C")].

(** What the constructor builds from [example_tree]. *)
Definition example_loss : SupConLoss :=
  {| temperature := 0.07; contrast_mode := "all"; base_temperature := 0.07;
     tree_path := Some example_tree;
     tips := ["A"; "B"; "C"]%string;
     bm_corr :=
       [[Fin 1; tensor_of_float (f64 1 (-1)); Fin 0];
        [tensor_of_float (f64 1 (-1)); Fin 1; Fin 0];
        [Fin 0; Fin 0; Fin 1]] |}.

(** The loss without a tree. *)
Definition plain_loss : SupConLoss :=
  {| temperature := 0.07; contrast_mode := "all"; base_temperature := 0.07;
     tree_path := None; tips := []; bm_corr := [] |}.

(** The tensors [forward] gets past the rank test and the flattening
    [view] with: rank 3, or a higher rank with non-zero batch and view
    sizes. *)
Definition flattens {A} (f : tensor A) : Prop :=
  (rank f = 3 \/ (3 < rank f /\ size f 0 * size f 1 <> 0))%nat.

(** A feature tensor of rank 2 and one of shape [[1, 1, 1]]. *)
Definition rank2_features : tensor tval :=
  {| shape := [2; 1]%nat; data := [Fin 1; Fin 1] |}.

Definition unit_features : tensor tval :=
  {| shape := [1; 1; 1]%nat; data := [Fin 1] |}.

(** The features [forward] works on after the rank test: flattened to rank
    3 when the rank is higher. *)
Definition flattened {A} (f : tensor A) : tensor A :=
  if decide (3 < rank f)%nat
  then {| shape := [size f 0; size f 1;
                    Nat.div (length (data f)) (size f 0 * size f 1)];
          data := data f |}
  else f.

(** Feature tensors of reals: one sample with two views, and two samples
    with one view each. *)
Definition two_view_features : tensor R :=
  {| shape := [1; 2; 1]%nat; data := [1; 1] |}.

Definition one_view_features : tensor R :=
  {| shape := [2; 1; 1]%nat; data := [1; 1] |}.

(** The keys of a Python dict filled with the keys [l] in turn: each key at
    the place of its first insertion. *)
Definition insertion_keys (l : list string) : list string :=
  foldl (fun ks a => if decide (a ∈ ks) then ks else ks ++ [a]) [] l.

(** ** Inputs and formulas of the further properties *)

(** The Newick tree [((A:0,B:1):0,C:1);]: the tip [A] lies at depth zero
    below an inner node. *)
Definition zero_depth_tree : tree :=
  Inner [(f64 0 0, Inner [(f64 0 0, Leaf "A"); (f64 1 0, Leaf "B")]);
         (f64 1 0, Leaf "C")].



(** The index a valid negative index stands for in a dimension of size
    [n]; any other index is left as it is. *)
Definition normal_index (n : nat) (k : Z) : Z :=
  if decide (- Z.of_nat n <= k < 0)%Z then (k + Z.of_nat n)%Z else k.

(** The real number a finite entry holds. *)
Definition real_part (a : tval) : R :=
  match a with
  | Fin x => x
  | _ => 0
  end.

Definition finite (a : tval) : Prop := exists x, a = Fin x.

(** Two samples of one view each, of dimension 1. *)
Definition two_sample_features : tensor tval :=
  {| shape := [2; 1; 1]%nat; data := [Fin 1; Fin 1] |}.

(** The loss without a tree and with a base temperature of zero. *)
Definition zero_base_loss : SupConLoss :=
  {| temperature := 0.07; contrast_mode := "all"; base_temperature := 0;
     tree_path := None; tips := []; bm_corr := [] |}.

(** Two samples with two views each, of dimension 1. *)
Definition two_by_two_features : tensor R :=
  {| shape := [2; 2; 1]%nat; data := [0.1; 0.2; 0.3; 0.4] |}.

(** The log-softmax of a row of real numbers. *)
Definition log_softmaxR (row : list R) : list R :=
  map (fun x => x - ln (sumR (map exp row))) row.

(** The smoothed loss of one sample with log-probabilities [lp] and true
    class [t]: minus [conf] times the log-probability of the true class,
    minus [fill] times the sum of the log-probabilities of the others. *)
Definition smoothed_row_loss (conf fill : R) (lp : list R) (t : nat) : R :=
  - (conf * nth t lp 0 + fill * (sumR lp - nth t lp 0)).

(** The mean over the batch of the smoothed losses of the samples. *)
Definition spec_label_smoothing (conf fill : R) (pred : list (list R))
    (target : list Z) : R :=
  sumR (zip_with (fun lp t => smoothed_row_loss conf fill lp (Z.to_nat t))
                 (map log_softmaxR pred) target)
  / INR (length pred).

(** ** The range of float32 *)

(** The greatest entry of a row of real numbers. *)
Definition row_maxR (row : list R) : R :=
  match row with
  | [] => 0
  | x :: xs => foldl Rmax x xs
  end.

(** The entries of a row lie within [bound] of each other. *)
Definition spread_within (bound : R) (row : list R) : Prop :=
  forall x y, x ∈ row -> y ∈ row -> x - y <= bound.

(** [log_prob] of [forward] on the finite logits [L] and a tiled mask of
    the shape of [MT]: the logits minus the row maximum, minus the
    logarithm of the sum of their exponentials over the non-self
    columns. *)
Definition log_prob_of (L MT : list (list R)) : matrix :=
  let logits :=
    lift2 (zip_with (fun row c => map (fun x => x - c) row) L (map row_maxR L)) in
  let logits_mask :=
    lift2 (imap (fun r row => <[r := 0]> (map (fun _ => 1) row)) MT) in
  broadcast_col (fun x s => tsub x (tlog s)) logits
    (map tsum (zip_with (zip_with tmul) (map (map texp) logits) logits_mask)).

(** The calls on which float32 evaluates the logits and their
    exponentials without overflow and without underflow to zero: both
    temperatures between [1/16] and [16] in magnitude, at most [2^16]
    feature entries of magnitude at most [16], and the logits of every
    anchor row within 64 of each other, so that no exponential of a logit
    minus the row maximum underflows. *)
Definition float32_features (self : SupConLoss) (f : tensor R) : Prop :=
  / 16 <= Rabs (temperature self) <= 16 /\
  / 16 <= Rabs (base_temperature self) <= 16 /\
  Forall (fun x => Rabs x <= 16) (data f) /\
  (Z.of_nat (length (data f)) <= 65536)%Z /\
  Forall (spread_within 64)
         (spec_logits (temperature self)
            (spec_anchor (contrast_mode self) (flattened f))
            (spec_contrast (flattened f))).

(** A mask whose entries are zero or between [2^-10] and [2^10]. *)
Definition float32_mask (MR : list (list R)) : Prop :=
  Forall (Forall (fun m => m = 0 \/ / 1024 <= m <= 1024)) MR.

Definition float32_regime (self : SupConLoss) (f : tensor R)
    (MR : list (list R)) : Prop :=
  float32_features self f /\ float32_mask MR.

(** One sample with the two views [3] and [0.5]. *)
Definition underflow_features : tensor R :=
  {| shape := [1; 2; 1]%nat; data := [3; 0.5] |}.

(** ** The sign of a float *)

(** A float that carries a sign carries the sign [s]. *)
Definition signed (s : bool) (x : spec_float) : Prop :=
  match x with
  | S754_zero s' | S754_infinity s' | S754_finite s' _ _ => s' = s
  | S754_nan => True
  end.

(** A float that does not compare below zero: a zero of either sign, a
    positive number, [+inf] or [nan]. *)
Definition not_negative (x : float64) : Prop := SFltb x f64_zero = false.

(** A tensor entry that is not negative: [nan], [+inf] or a real number
    that is at least zero. *)
Definition tval_nonneg (v : tval) : Prop :=
  match v with
  | Fin x => 0 <= x
  | NInf => False
  | _ => True
  end.


(* ===================================================================== *)
(** * Properties *)

#[local] Arguments tdiv : simpl never.
#[local] Arguments tlog : simpl never.
#[local] Arguments inf_times : simpl never.
#[local] Arguments math_sqrt : simpl never.
#[local] Arguments float_div : simpl never.
#[local] Arguments float_truediv : simpl never.
#[local] Arguments f64_add : simpl never.
#[local] Arguments f64_mul : simpl never.
#[local] Arguments f64_div : simpl never.
#[local] Arguments f64_sqrt : simpl never.
#[local] Arguments tensor_of_float : simpl never.
#[local] Arguments texp : simpl never.

(** ** The operations on small inputs *)

Example combinations_of_3 :
  combinations_with_replacement_2 3
  = [(0, 0); (0, 1); (0, 2); (1, 1); (1, 2); (2, 2)]%nat.
Proof. reflexivity. Qed.

Example eye_2 : eye 2 = [[Fin 1; Fin 0]; [Fin 0; Fin 1]].
Proof. reflexivity. Qed.

Example tile_2_3 : tile 2 3 [[1; 2]]%nat = [[1; 2; 1; 2; 1; 2]; [1; 2; 1; 2; 1; 2]]%nat.
Proof. reflexivity. Qed.

Example wrap_index_last : wrap_index 3 (-1) = Ok 2%nat.
Proof. reflexivity. Qed.

Example wrap_index_out : wrap_index 3 3 = Raise IndexError.
Proof. reflexivity. Qed.

Example label_eq_mask_010 :
  label_eq_mask [0; 1; 0]%Z
  = [[Fin 1; Fin 0; Fin 1]; [Fin 0; Fin 1; Fin 0]; [Fin 1; Fin 0; Fin 1]].
Proof. reflexivity. Qed.

Example contrast_of_two_views :
  spec_contrast {| shape := [2; 2; 1]%nat; data := [1; 2; 3; 4] |}
  = [[1]; [3]; [2]; [4]].
Proof. reflexivity. Qed.

Example scatter_self_2 :
  scatter_self 2 [[NaN; NaN]; [NaN; NaN]]
  = Ok [[Fin 0; Fin 1]; [Fin 1; Fin 0]].
Proof. reflexivity. Qed.

Example leaves_of_example_tree :
  leaf_node_iter example_tree
  = [([0; 0]%nat, "A"%string); ([0; 1]%nat, "B"%string); ([1]%nat, "C"%string)].
Proof. reflexivity. Qed.

Example mrca_of_A_B : mrca example_tree "A" "B" = Some [0%nat].
Proof. reflexivity. Qed.

Example mrca_of_A_C : mrca example_tree "A" "C" = Some (seed_node example_tree).
Proof. reflexivity. Qed.

Example plain_loss_init : SupConLoss_init 0.07 "all" 0.07 None = Ok plain_loss.
Proof. reflexivity. Qed.

(** ** Results and loops *)

Lemma bind_Ok {A B} (m : result A) (f : A -> result B) (b : B) :
  m ≫= f = Ok b -> exists a, m = Ok a /\ f a = Ok b.
Proof. destruct m as [a|e]; simpl; [eauto | discriminate]. Qed.

Ltac inv_bind H :=
  let a := fresh "x" in
  let H1 := fresh H in
  apply bind_Ok in H; destruct H as (a & H1 & H).

(** An invariant kept by the body is kept by the loop. *)
Lemma for_each_invariant {A S} (body : S -> A -> result S) (P : S -> Prop)
    (l : list A) s s' :
  (forall s0 x s1, x ∈ l -> P s0 -> body s0 x = Ok s1 -> P s1) ->
  P s -> for_each body s l = Ok s' -> P s'.
Proof.
  revert s. induction l as [|x l IH]; simpl; intros s Hbody Hs Hrun.
  - by inversion Hrun; subst.
  - inv_bind Hrun. eapply IH; [| |exact Hrun].
    + intros s0 y s1 Hy. apply Hbody. by right.
    + eapply Hbody; [by left|exact Hs|exact Hrun0].
Qed.

(** ** Matrix entries *)

Lemma tensor_set_entry m i j v m' a b :
  tensor_set m i j v = Ok m' ->
  entry m' a b = if decide (a = i /\ b = j) then Some v else entry m a b.
Proof.
  unfold tensor_set, entry. destruct (m !! i) as [row|] eqn:Hrow; [|done].
  case_decide as Hj; [|done]. intros [= <-].
  destruct (decide (a = i)) as [->|Hai].
  - rewrite list_lookup_insert_eq by (by eapply lookup_lt_Some). simpl.
    destruct (decide (b = j)) as [->|Hbj].
    + rewrite decide_True by done. by apply list_lookup_insert_eq.
    + rewrite decide_False by naive_solver.
      rewrite Hrow. simpl. by apply list_lookup_insert_ne.
  - rewrite decide_False by naive_solver.
    by rewrite list_lookup_insert_ne.
Qed.

Lemma tensor_set_shape m i j v m' :
  tensor_set m i j v = Ok m' -> map length m' = map length m.
Proof.
  unfold tensor_set. destruct (m !! i) as [row|] eqn:Hrow; [|done].
  case_decide; [|done]. intros [= <-].
  rewrite list_fmap_insert, length_insert.
  apply list_insert_id. by rewrite list_lookup_fmap, Hrow.
Qed.

Lemma tensor_set_sym_entry m i j v m' a b :
  tensor_set_sym m i j v = Ok m' ->
  entry m' a b =
    if decide ((a = i /\ b = j) \/ (a = j /\ b = i)) then Some v
    else entry m a b.
Proof.
  unfold tensor_set_sym. intros H. inv_bind H.
  rewrite (tensor_set_entry _ _ _ _ _ a b H).
  rewrite (tensor_set_entry _ _ _ _ _ a b H0).
  repeat case_decide; naive_solver.
Qed.

Lemma tensor_set_sym_shape m i j v m' :
  tensor_set_sym m i j v = Ok m' -> map length m' = map length m.
Proof.
  unfold tensor_set_sym. intros H. inv_bind H.
  apply tensor_set_shape in H, H0. congruence.
Qed.

Lemma eye_shape n : map length (eye n) = replicate n n.
Proof.
  unfold eye. rewrite <- list_fmap_compose.
  apply list_eq. intros i. rewrite list_lookup_fmap.
  destruct (decide (i < n)%nat) as [Hi|Hi].
  - rewrite lookup_seq_lt by done. simpl.
    rewrite lookup_replicate_2 by done.
    by rewrite length_map, length_seq.
  - rewrite lookup_seq_ge by lia. simpl. symmetry.
    apply lookup_replicate_None. lia.
Qed.

Lemma eye_entry n a b :
  (a < n)%nat -> (b < n)%nat ->
  entry (eye n) a b = Some (if decide (a = b) then Fin 1 else Fin 0).
Proof.
  intros Ha Hb. unfold entry, eye.
  rewrite list_lookup_fmap, lookup_seq_lt by done. simpl.
  rewrite list_lookup_fmap, lookup_seq_lt by done. simpl.
  destruct (Nat.eqb_spec a b); by case_decide.
Qed.

Lemma entry_lt m a b v :
  entry m a b = Some v ->
  exists row, m !! a = Some row /\ (b < length row)%nat.
Proof.
  unfold entry. destruct (m !! a) as [row|]; [|done]. simpl.
  intros H. exists row. split; [done|]. by eapply lookup_lt_Some.
Qed.

Lemma elem_of_combinations n i j :
  (i, j) ∈ combinations_with_replacement_2 n <-> (i <= j < n)%nat.
Proof.
  unfold combinations_with_replacement_2.
  rewrite list_elem_of_In, in_flat_map. split.
  - intros (k & Hk & Hin). apply in_seq in Hk.
    apply in_map_iff in Hin. destruct Hin as (j' & [= <- <-] & Hj).
    apply in_seq in Hj. lia.
  - intros Hij. exists i. split; [apply in_seq; lia|].
    apply in_map_iff. exists j. split; [done|]. apply in_seq. lia.
Qed.

Lemma for_each_ext {A S} (f g : S -> A -> result S) l s :
  (forall s0 x, f s0 x = g s0 x) -> for_each f s l = for_each g s l.
Proof.
  intros Hfg. revert s. induction l as [|x l IH]; intros s; simpl; [done|].
  rewrite Hfg. destruct (g s x); simpl; [apply IH|done].
Qed.

Lemma init_body_fill t d tips m ij :
  init_body t d tips m ij = fill_body (pair_corr t d tips) m ij.
Proof.
  destruct ij as [i j]. unfold init_body, fill_body, pair_corr. simpl.
  case_decide; [done|].
  destruct (list_get tips i) as [ti|]; simpl; [|done].
  destruct (list_get tips j) as [tj|]; simpl; [|done].
  case_decide; [done|].
  destruct (mrca t ti tj) as [anc|]; [|done].
  case_decide; [done|].
  destruct (dict_get d ti); simpl; [|done].
  destruct (dict_get d tj); simpl; [|done].
  destruct (math_sqrt _); simpl; [|done].
  by destruct (float_truediv _ _).
Qed.

Lemma mask_body_fill self labels m ij :
  mask_body self labels m ij = fill_body (pair_mask self labels) m ij.
Proof.
  destruct ij as [i j]. unfold mask_body, fill_body, pair_mask. simpl.
  case_decide; case_decide; try done.
  destruct (list_get labels i); simpl; [|done].
  by destruct (list_get labels j).
Qed.

Section fill_loop.
Variable val : nat -> nat -> result tval.

Lemma fill_body_shape m ij m' :
  fill_body val m ij = Ok m' -> map length m' = map length m.
Proof.
  unfold fill_body. case_decide as Hd; [by intros [= <-]|].
  intros H. inv_bind H. by eapply tensor_set_sym_shape.
Qed.

Lemma fill_body_entry m ij m' a b :
  fill_body val m ij = Ok m' ->
  entry m' a b = entry m a b \/
  (fst ij <> snd ij /\
   ((a = fst ij /\ b = snd ij) \/ (a = snd ij /\ b = fst ij)) /\
   exists v, val (fst ij) (snd ij) = Ok v /\ entry m' a b = Some v).
Proof.
  unfold fill_body. case_decide as Hij; [intros [= <-]; by left|].
  intros H. inv_bind H.
  rewrite (tensor_set_sym_entry _ _ _ _ _ a b H).
  case_decide; [right|by left]. eauto 10.
Qed.

Lemma fill_loop_shape l m m' :
  for_each (fill_body val) m l = Ok m' -> map length m' = map length m.
Proof.
  apply (for_each_invariant _ (fun s => map length s = map length m)); [|done].
  intros s0 x s1 _ Hs0 Hb. apply fill_body_shape in Hb. congruence.
Qed.

(** Entries no pair of the loop names keep their value. *)
Lemma fill_loop_untouched l m m' a b :
  (forall i j, (i, j) ∈ l -> i <> j -> ~ ((a = i /\ b = j) \/ (a = j /\ b = i))) ->
  for_each (fill_body val) m l = Ok m' -> entry m' a b = entry m a b.
Proof.
  intros Hl.
  apply (for_each_invariant _ (fun s => entry s a b = entry m a b)); [|done].
  intros s0 [i j] s1 Hin Hs0 Hb.
  destruct (fill_body_entry _ _ _ a b Hb) as [->|(Hne & Hab & _)]; [done|].
  simpl in *. by destruct (Hl i j Hin Hne).
Qed.

Lemma fill_loop_diagonal l m m' a :
  for_each (fill_body val) m l = Ok m' -> entry m' a a = entry m a a.
Proof. apply fill_loop_untouched. intros i j _ Hne. lia. Qed.

(** Every pair [i < j] of an upper-triangular loop ends with the value of
    the pair at both mirrored positions. *)
Lemma fill_loop_pair l m m' i j :
  (forall i' j', (i', j') ∈ l -> (i' <= j')%nat) ->
  (i, j) ∈ l -> (i < j)%nat ->
  for_each (fill_body val) m l = Ok m' ->
  exists v, val i j = Ok v /\ entry m' i j = Some v /\ entry m' j i = Some v.
Proof.
  revert m. induction l as [|x l IH]; intros m Hup Hin Hij Hrun.
  { by apply elem_of_nil in Hin. }
  simpl in Hrun. inv_bind Hrun.
  destruct (decide ((i, j) ∈ l)) as [Hl|Hl].
  { eapply IH; [|done..]. intros i' j' H'. apply Hup. by right. }
  apply elem_of_cons in Hin as [<-|Hin]; [|done].
  assert (forall a b, ((a = i /\ b = j) \/ (a = j /\ b = i)) ->
            entry m' a b = entry x0 a b) as Hkeep.
  { intros a b Hab. eapply fill_loop_untouched; [|exact Hrun].
    intros i' j' H' Hne' Hab'.
    assert (i' <= j')%nat by (apply Hup; by right).
    assert (i' = i /\ j' = j) as [-> ->] by lia. done. }
  unfold fill_body in Hrun0. simpl in Hrun0.
  rewrite decide_False in Hrun0 by lia. inv_bind Hrun0.
  exists x. split; [done|].
  rewrite !Hkeep by auto.
  rewrite !(tensor_set_sym_entry _ _ _ _ _ _ _ Hrun0).
  rewrite !decide_True by auto. done.
Qed.

(** The loop runs to its end when every pair has a value and lies inside
    the matrix. *)
Lemma fill_loop_runs n l m :
  square n m ->
  (forall i j, (i, j) ∈ l -> (i < n)%nat /\ (j < n)%nat) ->
  (forall i j, (i, j) ∈ l -> i <> j -> exists v, val i j = Ok v) ->
  exists m', for_each (fill_body val) m l = Ok m'.
Proof.
  revert m. induction l as [|[i j] l IH]; intros m Hsq Hin Hval; simpl.
  { eauto. }
  assert (exists m1, fill_body val m (i, j) = Ok m1) as [m1 Hm1].
  { unfold fill_body. simpl. case_decide as Hij; [eauto|].
    destruct (Hval i j) as [v ->]; [by left|done|]. simpl.
    destruct (Hin i j) as [Hi Hj]; [by left|].
    unfold tensor_set_sym, tensor_set, square in *.
    assert (forall k (m0 : matrix), map length m0 = replicate n n -> (k < n)%nat ->
              exists row, m0 !! k = Some row /\ length row = n) as Hrow.
    { intros k m0 Hm0 Hk.
      assert (map length m0 !! k = Some n) as Hl
        by (rewrite Hm0; by apply lookup_replicate_2).
      rewrite list_lookup_fmap in Hl.
      destruct (m0 !! k) as [row|]; simplify_eq/=. eauto. }
    destruct (Hrow i m Hsq Hi) as (ri & Hri & Hli). rewrite Hri.
    rewrite decide_True by lia. simpl.
    set (m1 := <[i := <[j := v]> ri]> m).
    assert (map length m1 = replicate n n) as Hsq1.
    { unfold m1. rewrite list_fmap_insert, length_insert, <- Hsq.
      apply list_insert_id. by rewrite list_lookup_fmap, Hri. }
    destruct (Hrow j m1 Hsq1 Hj) as (rj & Hrj & Hlj). rewrite Hrj.
    rewrite decide_True by lia. eauto. }
  rewrite Hm1. simpl. apply IH.
  - unfold square in *. apply fill_body_shape in Hm1. congruence.
  - intros i' j' H'. apply Hin. by right.
  - intros i' j' H'. apply Hval. by right.
Qed.

End fill_loop.

(** ** Floats: signs and the two partial operations *)

Lemma binary_round_aux_signed prec emax s m e l :
  signed s (binary_round_aux prec emax s m e l).
Proof.
  unfold binary_round_aux.
  destruct (shr_fexp prec emax m e l) as [mrs' e'].
  destruct (shr_fexp prec emax _ e' loc_Exact) as [mrs'' e''].
  destruct (shr_m mrs''); simpl; try done.
  by destruct (Z.leb _ _).
Qed.

Lemma binary_round_signed prec emax s m e :
  signed s (binary_round prec emax s m e).
Proof.
  unfold binary_round. destruct (shl_align _ _ _). apply binary_round_aux_signed.
Qed.

Lemma signed_not_negative x : signed false x -> not_negative x.
Proof. destruct x as [s|s| |s m e]; simpl; intros; subst; done. Qed.

Lemma f64_add_not_negative x y :
  not_negative x -> not_negative y -> not_negative (f64_add x y).
Proof.
  intros Hx Hy.
  destruct x as [sx|[]| |[] mx ex]; try done;
  destruct y as [sy|[]| |[] my ey]; try done;
  try (by destruct sx, sy).
  unfold f64_add, SFadd. simpl.
  apply signed_not_negative, binary_round_signed.
Qed.

Lemma f64_mul_not_negative x y :
  not_negative x -> not_negative y -> not_negative (f64_mul x y).
Proof.
  intros Hx Hy.
  destruct x as [sx|[]| |[] mx ex]; try done;
  destruct y as [sy|[]| |[] my ey]; try done.
  unfold f64_mul, SFmul. simpl.
  apply signed_not_negative, binary_round_aux_signed.
Qed.

Lemma f64_sqrt_not_negative x : not_negative x -> not_negative (f64_sqrt x).
Proof.
  intros Hx. destruct x as [sx|[]| |[] mx ex]; try done.
  unfold f64_sqrt, SFsqrt.
  destruct (SFsqrt_core_binary _ _ _ _) as [[mz ez] lz].
  apply signed_not_negative, binary_round_aux_signed.
Qed.

Lemma f64_div_not_negative x y :
  not_negative x -> not_negative y -> SFeqb y f64_zero = false ->
  not_negative (f64_div x y).
Proof.
  intros Hx Hy Hz.
  destruct x as [sx|[]| |[] mx ex]; try done;
  destruct y as [sy|[]| |[] my ey]; try done.
  unfold f64_div, SFdiv.
  destruct (SFdiv_core_binary _ _ _ _ _ _) as [[mz ez] lz].
  apply signed_not_negative, binary_round_aux_signed.
Qed.

(** Storing a float that is not negative in a float32 tensor gives an
    entry that is not negative. *)
Lemma tensor_of_float_nonneg x : not_negative x -> tval_nonneg (tensor_of_float x).
Proof.
  intros Hx. destruct x as [sx|[]| |[] mx ex]; try done; simpl; try lra.
  unfold tensor_of_float. simpl.
  pose proof (binary_round_signed 24 128 false mx ex) as Hs.
  destruct (binary_round 24 128 false mx ex) as [s|s| |s m e]; simpl in *; subst;
    try done; try lra.
  apply Rmult_le_pos; [by apply IZR_le|]. left. apply powerRZ_lt. lra.
Qed.

Lemma f64_mul_comm x y : f64_mul x y = f64_mul y x.
Proof.
  unfold f64_mul.
  destruct x as [sx|sx| |sx mx ex], y as [sy|sy| |sy my ey]; simpl;
    try done; try (by rewrite xorb_comm).
  by rewrite xorb_comm, Pos.mul_comm, Z.add_comm.
Qed.

Lemma nonneg_length_not_negative x : SFleb f64_zero x = true -> not_negative x.
Proof. by destruct x as [s|[]| |[] m e]. Qed.

Lemma math_sqrt_not_negative x : not_negative x -> math_sqrt x = Ok (f64_sqrt x).
Proof. intros Hx. unfold math_sqrt. by rewrite Hx. Qed.

Lemma float_truediv_nonzero x y :
  SFeqb y f64_zero = false -> float_truediv x y = Ok (f64_div x y).
Proof. intros Hy. unfold float_truediv. by rewrite Hy. Qed.

Lemma float_div_nonzero x y : y <> 0 -> float_div x y = Ok (x / y).
Proof. intros Hy. unfold float_div. by destruct (Req_dec_T y 0). Qed.

(** ** The tree: dictionary of tip depths, tips, ancestors *)

Lemma foldl_insert_lookup_notin (f : node -> float64) (l : list (node * string))
    (d : gmap string float64) a :
  a ∉ l.*2 ->
  foldl (fun d leaf => <[snd leaf := f (fst leaf)]> d) d l !! a = d !! a.
Proof.
  revert d. induction l as [|[p b] l IH]; intros d Hnot; simpl; [done|].
  rewrite fmap_cons, not_elem_of_cons in Hnot. destruct Hnot as [Hab Hnot].
  rewrite IH by done. simpl in *. by rewrite lookup_insert_ne.
Qed.

Lemma foldl_insert_lookup_in (f : node -> float64) (l : list (node * string))
    (d : gmap string float64) p a :
  NoDup l.*2 -> (p, a) ∈ l ->
  foldl (fun d leaf => <[snd leaf := f (fst leaf)]> d) d l !! a = Some (f p).
Proof.
  revert d. induction l as [|[q b] l IH]; intros d Hnd Hin; simpl.
  { by apply elem_of_nil in Hin. }
  rewrite fmap_cons in Hnd. apply NoDup_cons in Hnd as [Hb Hnd].
  apply elem_of_cons in Hin as [[= <- <-]|Hin].
  - rewrite foldl_insert_lookup_notin by done. simpl.
    by rewrite lookup_insert_eq.
  - by apply IH.
Qed.

Lemma foldl_insert_dom (f : node -> float64) (l : list (node * string))
    (d : gmap string float64) a :
  is_Some (foldl (fun d leaf => <[snd leaf := f (fst leaf)]> d) d l !! a) ->
  a ∈ l.*2 \/ is_Some (d !! a).
Proof.
  revert d. induction l as [|[q b] l IH]; intros d; simpl; [by right|].
  intros H. apply IH in H as [H|H].
  - left. by right.
  - simpl in H. destruct (decide (b = a)) as [->|Hne].
    + left. by left.
    + rewrite lookup_insert_ne in H by done. by right.
Qed.

Lemma foldl_insert_dom_2 (f : node -> float64) (l : list (node * string))
    (d : gmap string float64) a :
  a ∈ l.*2 \/ is_Some (d !! a) ->
  is_Some (foldl (fun d leaf => <[snd leaf := f (fst leaf)]> d) d l !! a).
Proof.
  revert d. induction l as [|[q b] l IH]; intros d; simpl.
  { intros [H|H]; [by apply elem_of_nil in H|done]. }
  intros [H|H]; apply IH.
  - apply elem_of_cons in H as [->|H]; [right|by left].
    simpl. by rewrite lookup_insert_eq.
  - right. simpl. destruct (decide (b = a)) as [->|Hne].
    + by rewrite lookup_insert_eq.
    + by rewrite lookup_insert_ne.
Qed.

Lemma tip_depths_lookup t p a :
  NoDup (leaf_labels t) -> (p, a) ∈ leaf_node_iter t ->
  tip_depths_of t !! a = Some (distance_from_root t p).
Proof. intros. by apply foldl_insert_lookup_in. Qed.

Lemma sorted_Permutation l : sorted l ≡ₚ l.
Proof. apply merge_sort_Permutation. Qed.

Lemma elem_of_dict_keys (d : gmap string float64) a :
  a ∈ dict_keys d <-> is_Some (d !! a).
Proof.
  unfold dict_keys. rewrite list_elem_of_fmap. split.
  - intros ([k v] & -> & Hin). apply elem_of_map_to_list in Hin. eauto.
  - intros [v Hv]. exists (a, v). split; [done|].
    by apply elem_of_map_to_list.
Qed.

Lemma NoDup_dict_keys (d : gmap string float64) : NoDup (dict_keys d).
Proof. apply NoDup_fst_map_to_list. Qed.

(** The sorted tip list never holds a label twice, whatever the tree. *)
Lemma NoDup_tips t : NoDup (sorted (dict_keys (tip_depths_of t))).
Proof. rewrite sorted_Permutation. apply NoDup_dict_keys. Qed.

(** The tips are the labels of the leaves. *)
Lemma elem_of_tips_iff t a :
  a ∈ sorted (dict_keys (tip_depths_of t)) <-> a ∈ leaf_labels t.
Proof.
  rewrite sorted_Permutation, elem_of_dict_keys. split.
  - intros H. apply foldl_insert_dom in H as [H|[v H]]; [done|].
    by rewrite lookup_empty in H.
  - intros H. apply foldl_insert_dom_2. by left.
Qed.

Lemma elem_of_tips t a :
  a ∈ sorted (dict_keys (tip_depths_of t)) -> a ∈ leaf_labels t.
Proof. apply elem_of_tips_iff. Qed.

Lemma tip_is_leaf t i a :
  sorted (dict_keys (tip_depths_of t)) !! i = Some a ->
  exists pa, (pa, a) ∈ leaf_node_iter t.
Proof.
  intros Hi. apply list_elem_of_lookup_2, elem_of_tips, list_elem_of_fmap in Hi.
  destruct Hi as ([pa a'] & -> & Hin). by exists pa.
Qed.

Lemma leaf_is_tip t pa a :
  (pa, a) ∈ leaf_node_iter t ->
  exists i, sorted (dict_keys (tip_depths_of t)) !! i = Some a.
Proof.
  intros Hin. apply list_elem_of_lookup_1, elem_of_tips_iff, list_elem_of_fmap.
  by exists (pa, a).
Qed.

Lemma NoDup_snd_inj {A B} (l : list (A * B)) x1 x2 y :
  NoDup l.*2 -> (x1, y) ∈ l -> (x2, y) ∈ l -> x1 = x2.
Proof.
  induction l as [|[x' y'] l IH]; intros Hnd H1 H2.
  { by apply elem_of_nil in H1. }
  rewrite fmap_cons in Hnd. apply NoDup_cons in Hnd as [Hy Hnd]. simpl in Hy.
  apply elem_of_cons in H1 as [H1|H1];
    apply elem_of_cons in H2 as [H2|H2]; simplify_eq; try done.
  - destruct Hy. apply list_elem_of_fmap. by exists (x2, y').
  - destruct Hy. apply list_elem_of_fmap. by exists (x1, y').
  - by apply IH.
Qed.

Lemma leaf_of_label_unique t p a :
  NoDup (leaf_labels t) -> (p, a) ∈ leaf_node_iter t ->
  leaf_of_label t a = Some p.
Proof.
  intros Hnd Hin. unfold leaf_of_label.
  destruct (list_find _ _) as [[i [q b]]|] eqn:Hfind; simpl.
  - apply list_find_Some in Hfind as (Hi & Hb & _). simpl in Hb. subst b.
    f_equal. eapply NoDup_snd_inj; [exact Hnd| |exact Hin].
    by eapply list_elem_of_lookup_2.
  - apply list_find_None in Hfind.
    rewrite Forall_forall in Hfind. by destruct (Hfind _ Hin).
Qed.

Lemma common_prefix_comm p q : common_prefix p q = common_prefix q p.
Proof.
  revert q. induction p as [|a p IH]; intros [|b q]; simpl; try done.
  destruct (decide (a = b)) as [->|Hab].
  - by rewrite decide_True, IH.
  - by rewrite decide_False by done.
Qed.

(** With non-negative branch lengths no distance from the root is
    negative. *)
Lemma distance_from_root_not_negative t p :
  nonneg_lengths t -> not_negative (distance_from_root t p).
Proof.
  revert t. induction p as [|k p IH]; intros t Ht.
  { by destruct t. }
  destruct t as [a|cs]; simpl; [done|].
  destruct (cs !! k) as [[len c]|] eqn:Hk; [|done].
  inversion Ht as [|? Hcs]; subst.
  rewrite Forall_lookup in Hcs. destruct (Hcs _ _ Hk) as [Hlen Hc].
  simpl in *. apply f64_add_not_negative; [|by apply IH].
  by apply nonneg_length_not_negative.
Qed.

(** ** [SupConLoss.__init__] *)

Lemma bind_Raise {A B} (m : result A) (f : A -> result B) e :
  m ≫= f = Raise e -> m = Raise e \/ exists a, m = Ok a /\ f a = Raise e.
Proof. destruct m as [a|e']; simpl; [eauto|]. intros [= <-]. by left. Qed.

Lemma for_each_Raise {A S} (body : S -> A -> result S) l s e :
  for_each body s l = Raise e -> exists s0 x, x ∈ l /\ body s0 x = Raise e.
Proof.
  revert s. induction l as [|x l IH]; intros s; simpl; [done|].
  destruct (body s x) as [s1|e1] eqn:Hb; simpl.
  - intros H. apply IH in H as (s0 & y & Hy & H). exists s0, y.
    split; [by right|done].
  - intros [= <-]. exists s, x. split; [by left|done].
Qed.

(** A loop that raises does so in its body, on a state the loop invariant
    holds of. *)
Lemma for_each_Raise_inv {A S} (body : S -> A -> result S) (P : S -> Prop) l s e :
  (forall s0 x s1, x ∈ l -> P s0 -> body s0 x = Ok s1 -> P s1) ->
  P s -> for_each body s l = Raise e ->
  exists s0 x, x ∈ l /\ P s0 /\ body s0 x = Raise e.
Proof.
  revert s. induction l as [|x l IH]; intros s Hstep Hs; simpl; [done|].
  destruct (body s x) as [s1|e'] eqn:Hb; simpl.
  - intros H. destruct (IH s1) as (s0 & y & Hy & Hs0 & Hr); [| |done|].
    + intros s0 y s2 Hy. apply Hstep. by right.
    + eapply Hstep; [by left|done|done].
    + exists s0, y. split; [by right|done].
  - intros [= ->]. exists s, x. split; [by left|done].
Qed.

Lemma list_get_Ok {A} (l : list A) i x : list_get l i = Ok x <-> l !! i = Some x.
Proof. unfold list_get. destruct (l !! i); naive_solver. Qed.

Lemma square_length n (m : matrix) : square n m -> length m = n.
Proof.
  unfold square. intros H. apply (f_equal length) in H.
  by rewrite length_map, length_replicate in H.
Qed.

Lemma square_row n (m : matrix) i :
  square n m -> (i < n)%nat -> exists row, m !! i = Some row /\ length row = n.
Proof.
  intros Hsq Hi. pose proof (square_length _ _ Hsq) as Hlen.
  destruct (lookup_lt_is_Some_2 m i) as [row Hrow]; [lia|].
  exists row. split; [done|]. unfold square in Hsq.
  assert (map length m !! i = Some (length row)) as H1
    by (by rewrite list_lookup_fmap, Hrow).
  rewrite Hsq in H1. by apply lookup_replicate in H1 as [-> _].
Qed.

Lemma tensor_set_sym_runs n (m : matrix) i j v :
  square n m -> (i < n)%nat -> (j < n)%nat ->
  exists m', tensor_set_sym m i j v = Ok m'.
Proof.
  intros Hsq Hi Hj. unfold tensor_set_sym, tensor_set.
  destruct (square_row n m i Hsq Hi) as (ri & Hri & Hli). rewrite Hri.
  rewrite decide_True by lia. simpl.
  set (m1 := <[i := <[j := v]> ri]> m).
  assert (square n m1) as Hsq1.
  { unfold square, m1 in *. rewrite list_fmap_insert, length_insert, <- Hsq.
    apply list_insert_id. by rewrite list_lookup_fmap, Hri. }
  destruct (square_row n m1 j Hsq1 Hj) as (rj & Hrj & Hlj). rewrite Hrj.
  rewrite decide_True by lia. eauto.
Qed.

(** The value of a pair of distinct tips of a uniquely labelled tree, by
    the paths of the two leaves. *)
Lemma pair_corr_unique t i j a b pa pb :
  let tips := sorted (dict_keys (tip_depths_of t)) in
  NoDup (leaf_labels t) ->
  tips !! i = Some a -> tips !! j = Some b -> i <> j ->
  (pa, a) ∈ leaf_node_iter t -> (pb, b) ∈ leaf_node_iter t ->
  pair_corr t (tip_depths_of t) tips i j =
  if decide (common_prefix pa pb = seed_node t) then Ok (Fin 0)
  else s ← math_sqrt (f64_mul (distance_from_root t pa) (distance_from_root t pb));
       c ← float_truediv (distance_from_root t (common_prefix pa pb)) s;
       Ok (tensor_of_float c).
Proof.
  intros tips Hnd Hi Hj Hij Hpa Hpb. unfold pair_corr.
  apply list_get_Ok in Hi as Hi', Hj as Hj'. rewrite Hi', Hj'. simpl.
  rewrite decide_False.
  2:{ intros ->. apply Hij.
      eapply NoDup_lookup; [apply (NoDup_tips t)|exact Hi|exact Hj]. }
  unfold mrca.
  rewrite (leaf_of_label_unique t pa a), (leaf_of_label_unique t pb b) by done.
  simpl. case_decide; [done|].
  unfold dict_get.
  by rewrite (tip_depths_lookup t pa a), (tip_depths_lookup t pb b).
Qed.

(** On a tree with non-negative branch lengths the square root is defined,
    and the value of a pair is either the quotient, stored as a float32, or
    the division by zero. *)
Lemma pair_corr_valid t i j a b pa pb :
  let tips := sorted (dict_keys (tip_depths_of t)) in
  valid_tree t ->
  tips !! i = Some a -> tips !! j = Some b -> i <> j ->
  (pa, a) ∈ leaf_node_iter t -> (pb, b) ∈ leaf_node_iter t ->
  pair_corr t (tip_depths_of t) tips i j =
  if decide (common_prefix pa pb = seed_node t) then Ok (Fin 0)
  else
    if SFeqb (f64_sqrt (f64_mul (distance_from_root t pa) (distance_from_root t pb)))
             f64_zero
    then Raise ZeroDivisionError
    else Ok (tensor_of_float
               (f64_div (distance_from_root t (common_prefix pa pb))
                  (f64_sqrt (f64_mul (distance_from_root t pa)
                                     (distance_from_root t pb))))).
Proof.
  intros tips [Hnd Hnn] Hi Hj Hij Hpa Hpb. subst tips.
  rewrite (pair_corr_unique t i j a b pa pb) by done.
  case_decide as Hroot; [done|].
  rewrite math_sqrt_not_negative
    by (apply f64_mul_not_negative; by apply distance_from_root_not_negative).
  simpl. unfold float_truediv. by destruct (SFeqb _ _).
Qed.

Lemma build_bm_corr_Ok t tips m :
  build_bm_corr t = Ok (tips, m) ->
  tips = sorted (dict_keys (tip_depths_of t)) /\
  for_each (fill_body (pair_corr t (tip_depths_of t) tips)) (eye (length tips))
           (combinations_with_replacement_2 (length tips)) = Ok m.
Proof.
  unfold build_bm_corr. intros H. inv_bind H. simplify_eq. split; [done|].
  rewrite <- H0. apply for_each_ext. intros. symmetry. apply init_body_fill.
Qed.

Lemma Tree_get_NoDup t : NoDup (leaf_labels t) -> Tree_get t = Ok t.
Proof. intros H. unfold Tree_get. by rewrite decide_True. Qed.

Lemma SupConLoss_init_Ok T mode bT t self :
  SupConLoss_init T mode bT (Some t) = Ok self ->
  build_bm_corr t = Ok (tips self, bm_corr self) /\
  temperature self = T /\ contrast_mode self = mode /\
  base_temperature self = bT /\ tree_path self = Some t.
Proof.
  unfold SupConLoss_init, Tree_get. intros H.
  case_decide; [|done]. cbn [mbind result_bind] in H.
  inv_bind H. destruct x as [tp m]. by simplify_eq.
Qed.


Lemma SupConLoss_init_build T mode bT t :
  NoDup (leaf_labels t) ->
  SupConLoss_init T mode bT (Some t) =
  tb ← build_bm_corr t;
  Ok {| temperature := T; contrast_mode := mode; base_temperature := bT;
        tree_path := Some t; tips := fst tb; bm_corr := snd tb |}.
Proof. intros H. unfold SupConLoss_init. by rewrite Tree_get_NoDup. Qed.

Lemma SupConLoss_init_Raise T mode bT t e :
  NoDup (leaf_labels t) ->
  SupConLoss_init T mode bT (Some t) = Raise e <-> build_bm_corr t = Raise e.
Proof.
  intros H. rewrite SupConLoss_init_build by done.
  destruct (build_bm_corr t); simpl; naive_solver.
Qed.

Lemma combinations_upper n i j :
  (i, j) ∈ combinations_with_replacement_2 n -> (i <= j)%nat.
Proof. rewrite elem_of_combinations. lia. Qed.

(** The matrix keeps the shape and the diagonal of [torch.eye]. *)
Lemma build_bm_corr_square t tips m :
  build_bm_corr t = Ok (tips, m) -> square (length tips) m.
Proof.
  intros H. apply build_bm_corr_Ok in H as [_ H].
  apply fill_loop_shape in H. unfold square. by rewrite H, eye_shape.
Qed.

Lemma build_bm_corr_diagonal t tips m i :
  build_bm_corr t = Ok (tips, m) -> (i < length tips)%nat ->
  entry m i i = Some (Fin 1).
Proof.
  intros H Hi. apply build_bm_corr_Ok in H as [_ H].
  rewrite (fill_loop_diagonal _ _ _ _ _ H), eye_entry by done.
  by rewrite decide_True.
Qed.

(** Both mirrored entries of a pair [i < j] hold the value of the pair. *)
Lemma build_bm_corr_pair t tips m i j :
  build_bm_corr t = Ok (tips, m) -> (i < j < length tips)%nat ->
  exists v, pair_corr t (tip_depths_of t) tips i j = Ok v /\
            entry m i j = Some v /\ entry m j i = Some v.
Proof.
  intros H Hij. apply build_bm_corr_Ok in H as [_ H].
  eapply (fill_loop_pair _ (combinations_with_replacement_2 (length tips)));
    [|apply elem_of_combinations; lia|lia|exact H].
  intros i' j'. apply combinations_upper.
Qed.

(** The duplicate-label test of the loop can never fire: the tips are the
    keys of a dictionary. *)
Lemma duplicate_check_unreachable t :
  build_bm_corr t <> Raise NameError /\
  build_bm_corr t <> Raise (ValueError DuplicateTipLabels).
Proof.
  assert (forall e, build_bm_corr t = Raise e ->
            e <> NameError /\ e <> ValueError DuplicateTipLabels) as Hgen.
  { intros e. unfold build_bm_corr.
    destruct (for_each _ _ _) as [m|e'] eqn:Hloop; simpl; [done|].
    intros [= ->]. apply for_each_Raise in Hloop as (m & [i j] & Hin & Hb).
    apply elem_of_combinations in Hin.
    enough (e <> NameError /\ (forall msg, e = ValueError msg -> msg <> DuplicateTipLabels))
      as [? Hmsg] by (split; [done|intros ->; by eapply Hmsg]).
    unfold init_body in Hb. case_decide as Hij; [done|].
    destruct (list_get _ i) as [ti|] eqn:Hi; simpl in Hb.
    2:{ unfold list_get in Hi. case_match; simplify_eq. by split. }
    destruct (list_get _ j) as [tj|] eqn:Hj; simpl in Hb.
    2:{ unfold list_get in Hj. case_match; simplify_eq. by split. }
    apply list_get_Ok in Hi, Hj.
    case_decide as Hdup.
    { subst tj. destruct Hij.
      eapply NoDup_lookup; [apply (NoDup_tips t)|exact Hi|exact Hj]. }
    destruct (mrca t ti tj) as [anc|];
      [|simplify_eq; split; [done|intros msg Hmsg; by simplify_eq]].
    unfold tensor_set_sym, tensor_set, dict_get, math_sqrt, float_truediv in Hb.
    repeat (first [case_decide | case_match]; simplify_eq/=; try done);
      (split; [done|intros msg Hmsg; by simplify_eq]). }
  split; intros H; by destruct (Hgen _ H).
Qed.

(** When the loop raises, the computation of the value of some pair of
    tips raised: the assignments into the matrix never fail. *)
Lemma build_bm_corr_Raise t e :
  let tips := sorted (dict_keys (tip_depths_of t)) in
  build_bm_corr t = Raise e ->
  exists i j, (i < j < length tips)%nat /\
    pair_corr t (tip_depths_of t) tips i j = Raise e.
Proof.
  intros tips. unfold build_bm_corr. cbv zeta. fold tips.
  rewrite (for_each_ext _ (fill_body (pair_corr t (tip_depths_of t) tips)))
    by (intros; apply init_body_fill).
  destruct (for_each _ _ _) as [m|e'] eqn:Hloop; simpl; [done|]. intros [= ->].
  apply (for_each_Raise_inv _ (square (length tips))) in Hloop
    as (m & [i j] & Hin & Hsq & Hb).
  - apply elem_of_combinations in Hin. unfold fill_body in Hb. simpl in Hb.
    case_decide as Hij; [done|]. exists i, j. split; [lia|].
    apply bind_Raise in Hb as [Hb|(v & Hv & Hb)]; [done|].
    destruct (tensor_set_sym_runs _ m i j v Hsq) as [m' Hm']; [lia|lia|].
    congruence.
  - intros s0 x s1 _ Hs0 Hb. unfold square in *.
    apply fill_body_shape in Hb. congruence.
  - apply eye_shape.
Qed.

Lemma pair_corr_valid_Raise t i j e :
  let tips := sorted (dict_keys (tip_depths_of t)) in
  valid_tree t -> (i < j < length tips)%nat ->
  pair_corr t (tip_depths_of t) tips i j = Raise e -> e = ZeroDivisionError.
Proof.
  intros tips Hv Hij. subst tips.
  destruct (lookup_lt_is_Some_2 (sorted (dict_keys (tip_depths_of t))) i)
    as [a Ha]; [lia|].
  destruct (lookup_lt_is_Some_2 (sorted (dict_keys (tip_depths_of t))) j)
    as [b Hb]; [lia|].
  destruct (tip_is_leaf t i a Ha) as [pa Hpa].
  destruct (tip_is_leaf t j b Hb) as [pb Hpb].
  rewrite (pair_corr_valid t i j a b pa pb) by (try done; lia).
  case_decide as Hroot; [done|].
  destruct (SFeqb _ _); [|done]. by intros [= <-].
Qed.

Lemma build_bm_corr_valid_Raise t e :
  valid_tree t -> build_bm_corr t = Raise e -> e = ZeroDivisionError.
Proof.
  intros Hv H. apply build_bm_corr_Raise in H as (i & j & Hij & H).
  by eapply pair_corr_valid_Raise.
Qed.

(** Two tips below a common inner node whose depths have a product with
    square root zero stop the constructor of a valid tree with a division
    by zero. *)
Lemma build_bm_corr_zero_depth t pa a pb b :
  valid_tree t ->
  (pa, a) ∈ leaf_node_iter t -> (pb, b) ∈ leaf_node_iter t -> a <> b ->
  common_prefix pa pb <> seed_node t ->
  SFeqb (f64_sqrt (f64_mul (distance_from_root t pa) (distance_from_root t pb)))
        f64_zero = true ->
  build_bm_corr t = Raise ZeroDivisionError.
Proof.
  intros Hv Hpa Hpb Hab Hcp Hz.
  destruct (build_bm_corr t) as [[tips m]|e] eqn:Hb.
  2:{ f_equal. by eapply build_bm_corr_valid_Raise. }
  exfalso.
  pose proof Hb as Htips. apply build_bm_corr_Ok in Htips as [-> _].
  assert (forall i j a b pa pb, (i < j)%nat ->
            sorted (dict_keys (tip_depths_of t)) !! i = Some a ->
            sorted (dict_keys (tip_depths_of t)) !! j = Some b ->
            (pa, a) ∈ leaf_node_iter t -> (pb, b) ∈ leaf_node_iter t ->
            common_prefix pa pb <> seed_node t ->
            SFeqb (f64_sqrt (f64_mul (distance_from_root t pa)
                                     (distance_from_root t pb))) f64_zero = true ->
            False) as Hgen.
  { intros i j a' b' pa' pb' Hij Hi Hj Hpa' Hpb' Hcp' Hz'.
    destruct (build_bm_corr_pair t _ m i j Hb) as (v & Hval & _).
    { split; [done|]. by eapply lookup_lt_Some. }
    rewrite (pair_corr_valid t i j a' b' pa' pb') in Hval by (try done; lia).
    rewrite decide_False in Hval by done. by rewrite Hz' in Hval. }
  destruct (leaf_is_tip t pa a Hpa) as [i Hi].
  destruct (leaf_is_tip t pb b Hpb) as [j Hj].
  destruct (Nat.lt_trichotomy i j) as [Hlt|[->|Hgt]].
  - by eapply (Hgen i j a b pa pb).
  - congruence.
  - eapply (Hgen j i b a pb pa); try done.
    + by rewrite common_prefix_comm.
    + by rewrite f64_mul_comm.
Qed.

(** On a valid tree the loop runs to its end when the divisor of no pair of
    tips below a common inner node is zero. *)
Lemma build_bm_corr_runs_pairs t :
  valid_tree t ->
  (forall pa a pb b,
     (pa, a) ∈ leaf_node_iter t -> (pb, b) ∈ leaf_node_iter t -> a <> b ->
     common_prefix pa pb <> seed_node t ->
     SFeqb (f64_sqrt (f64_mul (distance_from_root t pa) (distance_from_root t pb)))
           f64_zero = false) ->
  exists tips m, build_bm_corr t = Ok (tips, m).
Proof.
  intros Hv Hpairs. unfold build_bm_corr. cbv zeta.
  rewrite (for_each_ext _ (fill_body (pair_corr t (tip_depths_of t)
                                         (sorted (dict_keys (tip_depths_of t))))))
    by (intros; apply init_body_fill).
  destruct (fill_loop_runs
              (pair_corr t (tip_depths_of t) (sorted (dict_keys (tip_depths_of t))))
              (length (sorted (dict_keys (tip_depths_of t))))
              (combinations_with_replacement_2
                 (length (sorted (dict_keys (tip_depths_of t)))))
              (eye (length (sorted (dict_keys (tip_depths_of t)))))) as [m Hm].
  - apply eye_shape.
  - intros i j Hin. apply elem_of_combinations in Hin. lia.
  - intros i j Hin Hij. apply elem_of_combinations in Hin.
    destruct (lookup_lt_is_Some_2 (sorted (dict_keys (tip_depths_of t))) i)
      as [a Ha]; [lia|].
    destruct (lookup_lt_is_Some_2 (sorted (dict_keys (tip_depths_of t))) j)
      as [b Hb]; [lia|].
    destruct (tip_is_leaf t i a Ha) as [pa Hpa].
    destruct (tip_is_leaf t j b Hb) as [pb Hpb].
    rewrite (pair_corr_valid t i j a b pa pb) by done.
    case_decide as Hroot; [eauto|].
    assert (a <> b) as Hab.
    { intros ->. apply Hij.
      eapply NoDup_lookup; [apply (NoDup_tips t)|exact Ha|exact Hb]. }
    rewrite (Hpairs pa a pb b Hpa Hpb Hab Hroot). eauto.
  - rewrite Hm. simpl. eauto.
Qed.

(** Every entry of the correlation matrix of a valid tree: the diagonal is
    1, the matrix is symmetric, and no entry is negative. *)
Lemma bm_corr_entries t tips m a b :
  valid_tree t -> build_bm_corr t = Ok (tips, m) ->
  (a < length tips)%nat -> (b < length tips)%nat ->
  exists v, entry m a b = Some v /\ entry m b a = Some v /\
            tval_nonneg v /\ (a = b -> v = Fin 1).
Proof.
  intros Hv Hbuild Ha Hb.
  pose proof (build_bm_corr_Ok _ _ _ Hbuild) as [Htips _].
  assert (forall i j, (i < j < length tips)%nat ->
            exists v, entry m i j = Some v /\ entry m j i = Some v /\
                      tval_nonneg v) as Hpair.
  { intros i j Hij.
    destruct (build_bm_corr_pair _ _ _ i j Hbuild) as (v & Hval & Hvij & Hvji);
      [lia|].
    exists v. split; [done|]. split; [done|].
    destruct (lookup_lt_is_Some_2 tips i) as [ti Hti]; [lia|].
    destruct (lookup_lt_is_Some_2 tips j) as [tj Htj]; [lia|].
    rewrite Htips in Hval, Hti, Htj.
    destruct (tip_is_leaf t i ti Hti) as [pa Hpa].
    destruct (tip_is_leaf t j tj Htj) as [pb Hpb].
    rewrite (pair_corr_valid t i j ti tj pa pb) in Hval by (try done; lia).
    destruct Hv as [Hnd Hnn].
    case_decide as Hroot; [simplify_eq; simpl; lra|].
    destruct (SFeqb _ _) eqn:Hz; [done|]. simplify_eq.
    apply tensor_of_float_nonneg, f64_div_not_negative;
      [by apply distance_from_root_not_negative| |done].
    apply f64_sqrt_not_negative, f64_mul_not_negative;
      by apply distance_from_root_not_negative. }
  destruct (Nat.lt_trichotomy a b) as [Hlt|[->|Hgt]].
  - destruct (Hpair a b) as (v & H1 & H2 & Hn); [lia|].
    exists v. repeat split; try done. lia.
  - exists (Fin 1). rewrite (build_bm_corr_diagonal _ _ _ _ Hbuild) by done.
    repeat split; try done. simpl. lra.
  - destruct (Hpair b a) as (v & H1 & H2 & Hn); [lia|].
    exists v. repeat split; try done. lia.
Qed.

(** ** The constructor on the example trees *)

Lemma example_tree_labels : leaf_labels example_tree = ["A"; "B"; "C"]%string.
Proof. reflexivity. Qed.

Lemma example_tree_NoDup : NoDup (leaf_labels example_tree).
Proof. rewrite example_tree_labels. compute_done. Qed.

Lemma example_tree_nonneg : nonneg_lengths example_tree.
Proof. repeat (first [done | constructor | split]). Qed.

Lemma example_tree_valid : valid_tree example_tree.
Proof. split; [apply example_tree_NoDup|apply example_tree_nonneg]. Qed.

Lemma example_tree_tips :
  sorted (dict_keys (tip_depths_of example_tree)) = ["A"; "B"; "C"]%string.
Proof. by vm_compute. Qed.

Lemma pair_corr_eval t d tips i j a b anc da db c :
  tips !! i = Some a -> tips !! j = Some b -> a <> b ->
  mrca t a b = Some anc -> anc <> seed_node t ->
  d !! a = Some da -> d !! b = Some db ->
  SFltb (f64_mul da db) f64_zero = false ->
  SFeqb (f64_sqrt (f64_mul da db)) f64_zero = false ->
  f64_div (distance_from_root t anc) (f64_sqrt (f64_mul da db)) = c ->
  pair_corr t d tips i j = Ok (tensor_of_float c).
Proof.
  intros Hi Hj Hab Hm Hanc Ha Hb Hpos Hz <-. unfold pair_corr.
  apply list_get_Ok in Hi, Hj. rewrite Hi, Hj. simpl.
  rewrite decide_False by done. rewrite Hm, decide_False by done.
  unfold dict_get. rewrite Ha, Hb. simpl.
  rewrite math_sqrt_not_negative by done. simpl.
  by rewrite float_truediv_nonzero.
Qed.

Lemma pair_corr_eval_root t d tips i j a b :
  tips !! i = Some a -> tips !! j = Some b -> a <> b ->
  mrca t a b = Some (seed_node t) ->
  pair_corr t d tips i j = Ok (Fin 0).
Proof.
  intros Hi Hj Hab Hm. unfold pair_corr.
  apply list_get_Ok in Hi, Hj. rewrite Hi, Hj. simpl.
  rewrite decide_False by done. rewrite Hm. by rewrite decide_True.
Qed.

Lemma fill_body_diag val m i : fill_body val m (i, i) = Ok m.
Proof. unfold fill_body. simpl. by rewrite decide_True. Qed.

Lemma fill_body_step val m i j v :
  i <> j -> val i j = Ok v ->
  fill_body val m (i, j) = tensor_set_sym m i j v.
Proof.
  intros Hij Hv. unfold fill_body. simpl.
  rewrite decide_False by done. by rewrite Hv.
Qed.

(** The loop over the pairs of three tips of which the first two lie below
    a common inner node and the third hangs from the root. *)
Lemma build_bm_corr_three t a b c anc da db q :
  sorted (dict_keys (tip_depths_of t)) = [a; b; c] ->
  a <> b -> a <> c -> b <> c ->
  mrca t a b = Some anc -> anc <> seed_node t ->
  mrca t a c = Some (seed_node t) -> mrca t b c = Some (seed_node t) ->
  tip_depths_of t !! a = Some da -> tip_depths_of t !! b = Some db ->
  SFltb (f64_mul da db) f64_zero = false ->
  SFeqb (f64_sqrt (f64_mul da db)) f64_zero = false ->
  f64_div (distance_from_root t anc) (f64_sqrt (f64_mul da db)) = q ->
  build_bm_corr t =
  Ok ([a; b; c],
      [[Fin 1; tensor_of_float q; Fin 0];
       [tensor_of_float q; Fin 1; Fin 0];
       [Fin 0; Fin 0; Fin 1]]).
Proof.
  intros Htips Hab Hac Hbc Hmab Hanc Hmac Hmbc Hda Hdb Hpos Hz Hq.
  unfold build_bm_corr. rewrite Htips.
  rewrite (for_each_ext _ (fill_body (pair_corr t (tip_depths_of t) [a; b; c])))
    by (intros; apply init_body_fill).
  change (combinations_with_replacement_2 (length [a; b; c]))
    with [(0, 0); (0, 1); (0, 2); (1, 1); (1, 2); (2, 2)]%nat.
  cbn [for_each].
  rewrite fill_body_diag. cbn [mbind result_bind].
  rewrite (fill_body_step _ _ 0 1 (tensor_of_float q))
    by (try done; by apply (pair_corr_eval t _ _ 0 1 a b anc da db)).
  change (tensor_set_sym _ 0 1 (tensor_of_float q))
    with (Ok [[Fin 1; tensor_of_float q; Fin 0];
              [tensor_of_float q; Fin 1; Fin 0]; [Fin 0; Fin 0; Fin 1]]).
  cbn [mbind result_bind].
  rewrite (fill_body_step _ _ 0 2 (Fin 0))
    by (try done; by apply (pair_corr_eval_root _ _ _ 0 2 a c)).
  change (tensor_set_sym _ 0 2 (Fin 0))
    with (Ok [[Fin 1; tensor_of_float q; Fin 0];
              [tensor_of_float q; Fin 1; Fin 0]; [Fin 0; Fin 0; Fin 1]]).
  cbn [mbind result_bind].
  rewrite fill_body_diag. cbn [mbind result_bind].
  rewrite (fill_body_step _ _ 1 2 (Fin 0))
    by (try done; by apply (pair_corr_eval_root _ _ _ 1 2 b c)).
  change (tensor_set_sym _ 1 2 (Fin 0))
    with (Ok [[Fin 1; tensor_of_float q; Fin 0];
              [tensor_of_float q; Fin 1; Fin 0]; [Fin 0; Fin 0; Fin 1]]).
  cbn [mbind result_bind].
  rewrite fill_body_diag. reflexivity.
Qed.

(** The constructor on [example_tree]. *)
Lemma example_loss_init :
  SupConLoss_init 0.07 "all" 0.07 (Some example_tree) = Ok example_loss.
Proof.
  rewrite SupConLoss_init_build by apply example_tree_NoDup.
  rewrite (build_bm_corr_three example_tree "A" "B" "C" [0%nat]
             (f64 2 0) (f64 2 0) (f64 1 (-1))); try done; by vm_compute.
Qed.



Lemma zero_depth_tree_valid : valid_tree zero_depth_tree.
Proof.
  split.
  - change (leaf_labels zero_depth_tree) with ["A"; "B"; "C"]%string.
    compute_done.
  - repeat (first [done | constructor | split]).
Qed.

Lemma zero_depth_tree_init :
  SupConLoss_init 0.07 "all" 0.07 (Some zero_depth_tree) = Raise ZeroDivisionError.
Proof.
  apply SupConLoss_init_Raise; [apply zero_depth_tree_valid|].
  apply (build_bm_corr_zero_depth _ [0; 0]%nat "A"%string [0; 1]%nat "B"%string).
  - apply zero_depth_tree_valid.
  - simpl. set_solver.
  - simpl. set_solver.
  - done.
  - done.
  - by vm_compute.
Qed.

(** C1.  Construction fails on every tree in which two leaves share a
    taxon label: the parser of line 37 refuses the tree, so the constructor
    never returns on it.  The duplicate test of the loop itself (line 54)
    is never reached, see [duplicate_check_unreachable]. *)
Theorem duplicate_labels_rejected T mode bT t :
  ~ NoDup (leaf_labels t) ->
  SupConLoss_init T mode bT (Some t) = Raise DuplicateTaxonError.
Proof.
  intros Hdup. unfold SupConLoss_init, Tree_get. by rewrite decide_False.
Qed.

Lemma duplicate_labels_rejected_witness :
  leaf_labels duplicate_label_tree = ["A"; "A"]%string /\
  SupConLoss_init 0.07 "all" 0.07 (Some duplicate_label_tree)
  = Raise DuplicateTaxonError.
Proof.
  split; [reflexivity|].
  apply (duplicate_labels_rejected 0.07 "all" 0.07 duplicate_label_tree).
  change (leaf_labels duplicate_label_tree) with ["A"; "A"]%string.
  rewrite NoDup_cons. intros [Hnot _]. apply Hnot. by left.
Defined.






(** ** [SupConLoss.forward]: the mask and the order of the checks *)

Lemma for_each_ext_in {A S} (f g : S -> A -> result S) l s :
  (forall s0 x, x ∈ l -> f s0 x = g s0 x) -> for_each f s l = for_each g s l.
Proof.
  revert s. induction l as [|x l IH]; intros s Hfg; simpl; [done|].
  rewrite Hfg by (by left). destruct (g s x); simpl; [|done].
  apply IH. intros s0 y Hy. apply Hfg. by right.
Qed.

Lemma wrap_index_valid n k :
  (0 <= k < Z.of_nat n)%Z -> wrap_index n k = Ok (Z.to_nat k).
Proof. intros Hk. unfold wrap_index. by rewrite decide_True. Qed.

Lemma tensor_index_valid n m k1 k2 :
  square n m -> (0 <= k1 < Z.of_nat n)%Z -> (0 <= k2 < Z.of_nat n)%Z ->
  exists v, tensor_index m k1 k2 = Ok v /\
            entry m (Z.to_nat k1) (Z.to_nat k2) = Some v.
Proof.
  intros Hm H1 H2. unfold tensor_index, entry.
  rewrite (square_length n m Hm), wrap_index_valid by done. simpl.
  destruct (square_row n m (Z.to_nat k1) Hm) as (row & Hrow & Hlen); [lia|].
  unfold list_get. rewrite Hrow. simpl.
  rewrite Hlen, wrap_index_valid by done. simpl.
  destruct (lookup_lt_is_Some_2 row (Z.to_nat k2)) as [v Hv]; [lia|].
  rewrite Hv. eauto.
Qed.

Lemma forward_mask_tree self t batch_size labels :
  tree_path self = Some t ->
  forward_mask self batch_size (Some labels) None =
  for_each (fill_body (pair_mask self labels)) (eye batch_size)
           (combinations_with_replacement_2 batch_size).
Proof.
  intros Ht. unfold forward_mask. rewrite Ht.
  apply for_each_ext. intros. apply mask_body_fill.
Qed.

(** C4.  With a tree configured, [labels] given and no [mask], the mask that
    [forward] derives is the [B x B] matrix with [1] on the diagonal and, for
    every pair [i < j], [bm_corr[labels[i]][labels[j]]] at both [(i, j)] and
    [(j, i)], provided every label is a valid index into [bm_corr] (and there
    is a label for each of the [B] samples). *)
Theorem tree_mask_from_bm_corr self t B labels n :
  tree_path self = Some t ->
  square n (bm_corr self) ->
  (B <= length labels)%nat ->
  Forall (fun k => (0 <= k < Z.of_nat n)%Z) labels ->
  exists mask,
    forward_mask self B (Some labels) None = Ok mask /\
    square B mask /\
    forall i j, (i < B)%nat -> (j < B)%nat ->
      entry mask i i = Some (Fin 1) /\
      ((i < j)%nat ->
       exists li lj,
         labels !! i = Some li /\ labels !! j = Some lj /\
         entry mask i j = entry (bm_corr self) (Z.to_nat li) (Z.to_nat lj) /\
         entry mask j i = entry (bm_corr self) (Z.to_nat li) (Z.to_nat lj)).
Proof.
  intros Ht Hsq HB Hvalid. rewrite (forward_mask_tree self t) by done.
  assert (forall i j, (i < B)%nat -> (j < B)%nat ->
            exists li lj v,
              labels !! i = Some li /\ labels !! j = Some lj /\
              pair_mask self labels i j = Ok v /\
              entry (bm_corr self) (Z.to_nat li) (Z.to_nat lj) = Some v)
    as Hval.
  { intros i j Hi Hj.
    destruct (lookup_lt_is_Some_2 labels i) as [li Hli]; [lia|].
    destruct (lookup_lt_is_Some_2 labels j) as [lj Hlj]; [lia|].
    rewrite Forall_lookup in Hvalid.
    destruct (tensor_index_valid n (bm_corr self) li lj Hsq) as (v & Hv & He);
      [by eapply Hvalid..|].
    exists li, lj, v. repeat split; try done.
    unfold pair_mask, list_get. by rewrite Hli, Hlj. }
  destruct (fill_loop_runs (pair_mask self labels) B
              (combinations_with_replacement_2 B) (eye B)) as [mask Hmask].
  - apply eye_shape.
  - intros i j Hin. apply elem_of_combinations in Hin. lia.
  - intros i j Hin _. apply elem_of_combinations in Hin.
    destruct (Hval i j) as (li & lj & v & _ & _ & Hv & _); [lia..|eauto].
  - exists mask. split; [done|]. split.
    { unfold square. by rewrite (fill_loop_shape _ _ _ _ Hmask), eye_shape. }
    intros i j Hi Hj. split.
    + rewrite (fill_loop_diagonal _ _ _ _ _ Hmask), eye_entry by done.
      by rewrite decide_True.
    + intros Hij.
      destruct (fill_loop_pair (pair_mask self labels)
                  (combinations_with_replacement_2 B) (eye B) mask i j)
        as (v & Hv & Hvij & Hvji); try done.
      { intros i' j'. apply combinations_upper. }
      { apply elem_of_combinations. lia. }
      destruct (Hval i j Hi Hj) as (li & lj & v' & Hli & Hlj & Hv' & He).
      exists li, lj. rewrite Hv in Hv'. simplify_eq.
      by rewrite Hvij, Hvji, He.
Qed.

Lemma tree_mask_from_bm_corr_witness :
  exists mask,
    forward_mask example_loss 2 (Some [0; 1]%Z) None = Ok mask /\
    square 2 mask /\
    forall i j, (i < 2)%nat -> (j < 2)%nat ->
      entry mask i i = Some (Fin 1) /\
      ((i < j)%nat ->
       exists li lj,
         [0; 1]%Z !! i = Some li /\ [0; 1]%Z !! j = Some lj /\
         entry mask i j = entry (bm_corr example_loss) (Z.to_nat li) (Z.to_nat lj) /\
         entry mask j i = entry (bm_corr example_loss) (Z.to_nat li) (Z.to_nat lj)).
Proof.
  apply (tree_mask_from_bm_corr example_loss example_tree 2 [0; 1]%Z 3).
  - reflexivity.
  - reflexivity.
  - simpl. lia.
  - repeat constructor; lia.
Defined.

Lemma view3_Raise {A} (f : tensor A) e : view3 f = Raise e -> e = RuntimeError.
Proof. unfold view3. case_decide; naive_solver. Qed.

Lemma view3_size0 {A} (f f' : tensor A) : view3 f = Ok f' -> size f' 0 = size f 0.
Proof. unfold view3. case_decide; [done|]. by intros [= <-]. Qed.

Lemma cat0_Raise {A} (ms : list (list (list A))) e :
  cat0 ms = Raise e -> e = ValueError EmptyTensorList.
Proof. destruct ms; simpl; naive_solver. Qed.

Lemma forward_anchor_Raise self f cf e :
  forward_anchor self f cf = Raise e ->
  e = IndexError \/ e = ValueError UnknownMode.
Proof. unfold forward_anchor. repeat case_decide; naive_solver. Qed.

Lemma tensor_mul_Raise m1 m2 e : tensor_mul m1 m2 = Raise e -> e = RuntimeError.
Proof. unfold tensor_mul. destruct (same_shape m1 m2); naive_solver. Qed.

Lemma max_dim1_Raise m e : max_dim1 m = Raise e -> e = IndexError.
Proof. unfold max_dim1. case_match; [done|]. by intros [= <-]. Qed.

Lemma scatter_self_Raise n m e : scatter_self n m = Raise e -> e = RuntimeError.
Proof. unfold scatter_self. case_match; [done|]. by intros [= <-]. Qed.

Lemma float_div_Raise x y e : float_div x y = Raise e -> e = ZeroDivisionError.
Proof. unfold float_div. case_match; [|done]. by intros [= <-]. Qed.

Lemma forward_loss_Raise self B af cf ac cc mask e :
  forward_loss self B af cf ac cc mask = Raise e ->
  e = IndexError \/ e = RuntimeError \/ e = ZeroDivisionError.
Proof.
  unfold forward_loss. intros H.
  apply bind_Raise in H as [H|(mx & _ & H)];
    [apply max_dim1_Raise in H; auto|].
  apply bind_Raise in H as [H|(lm & _ & H)];
    [apply scatter_self_Raise in H; auto|].
  apply bind_Raise in H as [H|(mk & _ & H)];
    [apply tensor_mul_Raise in H; auto|].
  apply bind_Raise in H as [H|(el & _ & H)];
    [apply tensor_mul_Raise in H; auto|].
  apply bind_Raise in H as [H|(mlp & _ & H)];
    [apply tensor_mul_Raise in H; auto|].
  apply bind_Raise in H as [H|(k & _ & H)];
    [apply float_div_Raise in H; auto|].
  case_decide; [done|]. simplify_eq. auto.
Qed.

Lemma tensor_set_Raise m i j v e : tensor_set m i j v = Raise e -> e = IndexError.
Proof. unfold tensor_set. repeat case_match; naive_solver. Qed.

Lemma tensor_set_sym_Raise m i j v e :
  tensor_set_sym m i j v = Raise e -> e = IndexError.
Proof.
  unfold tensor_set_sym. destruct (tensor_set m i j v) as [m'|e'] eqn:Hs; simpl.
  - apply tensor_set_Raise.
  - intros [= <-]. by eapply tensor_set_Raise.
Qed.

Lemma list_get_Raise {A} (l : list A) i e : list_get l i = Raise e -> e = IndexError.
Proof. unfold list_get. case_match; naive_solver. Qed.

Lemma wrap_index_Raise n k e : wrap_index n k = Raise e -> e = IndexError.
Proof. unfold wrap_index. repeat case_decide; naive_solver. Qed.

Lemma tensor_index_Raise m k1 k2 e :
  tensor_index m k1 k2 = Raise e -> e = IndexError.
Proof.
  unfold tensor_index.
  destruct (wrap_index _ k1) as [i|e1] eqn:H1; simpl;
    [|intros [= <-]; by eapply wrap_index_Raise].
  destruct (list_get m i) as [row|e1] eqn:H2; simpl;
    [|intros [= <-]; by eapply list_get_Raise].
  destruct (wrap_index _ k2) as [j|e1] eqn:H3; simpl;
    [|intros [= <-]; by eapply wrap_index_Raise].
  apply list_get_Raise.
Qed.

Lemma pair_mask_Raise self labels i j e :
  pair_mask self labels i j = Raise e -> e = IndexError.
Proof.
  unfold pair_mask.
  destruct (list_get labels i) as [a|e1] eqn:H1; simpl;
    [|intros [= <-]; by eapply list_get_Raise].
  destruct (list_get labels j) as [b|e1] eqn:H2; simpl;
    [|intros [= <-]; by eapply list_get_Raise].
  apply tensor_index_Raise.
Qed.

Lemma mask_body_Raise self labels m ij e :
  mask_body self labels m ij = Raise e -> e = IndexError.
Proof.
  rewrite mask_body_fill. unfold fill_body. case_decide; [done|].
  destruct (pair_mask _ _ _ _) as [v|e1] eqn:Hv; simpl.
  - apply tensor_set_sym_Raise.
  - intros [= <-]. by eapply pair_mask_Raise.
Qed.

(** Where the label-count error can come from: the branch for labels
    without a tree, and nowhere else. *)
Lemma forward_mask_mismatch self B labels mask :
  forward_mask self B labels mask = Raise (ValueError NumLabelsMismatch) ->
  tree_path self = None /\ mask = None /\
  exists l, labels = Some l /\ length l <> B.
Proof.
  unfold forward_mask. destruct labels as [l|], mask as [mk|]; try done.
  destruct (tree_path self) as [t|].
  - intros H. apply for_each_Raise in H as (m & ij & _ & H).
    by apply mask_body_Raise in H.
  - case_decide; [|done]. eauto.
Qed.

Lemma forward_mismatch self f labels mask :
  forward self f labels mask = Raise (ValueError NumLabelsMismatch) ->
  tree_path self = None /\ mask = None /\
  exists l, labels = Some l /\ length l <> size f 0.
Proof.
  unfold forward. case_decide as Hr; [done|].
  destruct (if decide (3 < rank f)%nat then view3 f else Ok f)
    as [f'|e] eqn:Hview; simpl.
  2:{ case_decide; [|done]. apply view3_Raise in Hview. by intros [= ->]. }
  assert (size f' 0 = size f 0) as Hsize.
  { case_decide; [by apply view3_size0|by simplify_eq]. }
  destruct (forward_mask _ _ _ _) as [mk|e] eqn:Hmask; simpl.
  2:{ intros [= ->]. rewrite <- Hsize. by apply forward_mask_mismatch. }
  destruct (cat0 _) as [cf|e] eqn:Hcat; simpl.
  2:{ apply cat0_Raise in Hcat. by intros [= ->]. }
  destruct (forward_anchor _ _ _) as [ac|e] eqn:Hanc; simpl.
  2:{ apply forward_anchor_Raise in Hanc. intros [= ->]. naive_solver. }
  intros H. apply forward_loss_Raise in H. naive_solver.
Qed.

Lemma forward_flattens self f labels mask :
  flattens f ->
  forward self f labels mask =
  (mask ← forward_mask self (size f 0) labels mask;
   contrast_feature ← cat0 (unbind1 (flattened f));
   ac ← forward_anchor self (flattened f) contrast_feature;
   forward_loss self (size f 0) (fst ac) contrast_feature (snd ac)
                (size (flattened f) 1) mask).
Proof.
  intros Hf. unfold forward, flattened.
  destruct Hf as [Hr|[Hr Hbv]].
  - rewrite (decide_False (P:=(rank f < 3)%nat)) by lia.
    rewrite !(decide_False (P:=(3 < rank f)%nat)) by lia. by simpl.
  - rewrite (decide_False (P:=(rank f < 3)%nat)) by lia.
    rewrite !(decide_True (P:=(3 < rank f)%nat)) by lia.
    unfold view3. rewrite decide_False by done. by simpl.
Qed.

(** C7 as stated fails: with features of rank 2 the rank test raises first,
    whatever [labels] and [mask] are. *)
Lemma labels_and_mask_rank2 :
  forward plain_loss rank2_features (Some [0; 1]%Z) (Some (eye 2))
    = Raise (ValueError FeaturesRank) /\
  forward plain_loss rank2_features (Some [0; 1]%Z) (Some (eye 2))
    <> Raise (ValueError LabelsAndMask).
Proof. split; [reflexivity|discriminate]. Qed.

(** C7 (amended).  When the features get past the rank test and the
    flattening (rank 3, or a higher rank with non-zero batch and view
    sizes), a call with both [labels] and [mask] fails with the
    argument-conflict error, whatever the two arguments are. *)
Theorem labels_and_mask_conflict self (f : tensor tval) labels mask :
  flattens f ->
  forward self f (Some labels) (Some mask) = Raise (ValueError LabelsAndMask).
Proof.
  intros Hf. by rewrite forward_flattens.
Qed.

Lemma labels_and_mask_conflict_witness :
  forward plain_loss unit_features (Some [0%Z]) (Some [[Fin 1]])
  = Raise (ValueError LabelsAndMask).
Proof.
  apply (labels_and_mask_conflict plain_loss unit_features [0%Z] [[Fin 1]]).
  left. reflexivity.
Defined.

(** C10.  The rank test comes first: features with fewer than 3 axes raise
    the rank error whatever [labels] and [mask] are, both non-null included,
    and the argument-conflict error is raised only for features of rank at
    least 3. *)
Theorem rank_check_precedes_conflict self (f : tensor tval) labels mask :
  ((rank f < 3)%nat ->
   forward self f labels mask = Raise (ValueError FeaturesRank)) /\
  (forward self f labels mask = Raise (ValueError LabelsAndMask) ->
   (3 <= rank f)%nat).
Proof.
  unfold forward. split.
  - intros Hr. by rewrite decide_True.
  - case_decide; [done|lia].
Qed.

Lemma rank_check_precedes_conflict_witness :
  forward plain_loss rank2_features (Some [0; 1]%Z) (Some (eye 2))
  = Raise (ValueError FeaturesRank).
Proof.
  apply (proj1 (rank_check_precedes_conflict plain_loss rank2_features
                  (Some [0; 1]%Z) (Some (eye 2)))).
  unfold rank. simpl. lia.
Defined.

Lemma pair_mask_take self labels B i j :
  (i < B)%nat -> (j < B)%nat ->
  pair_mask self (take B labels) i j = pair_mask self labels i j.
Proof.
  intros Hi Hj. unfold pair_mask, list_get.
  by rewrite !lookup_take_lt by done.
Qed.

Lemma forward_mask_take self t B labels :
  tree_path self = Some t ->
  forward_mask self B (Some (take B labels)) None =
  forward_mask self B (Some labels) None.
Proof.
  intros Ht. rewrite !(forward_mask_tree self t) by done.
  apply for_each_ext_in. intros m [i j] Hin.
  apply elem_of_combinations in Hin. unfold fill_body. simpl.
  case_decide; [done|]. by rewrite pair_mask_take by lia.
Qed.

(** C9.  With a tree configured and [labels] given without a [mask], no
    length test is made: labels longer than the batch never raise the
    label-count error, and the call returns what it returns on the first
    [B] labels.  The label-count error belongs to the branch without a
    tree, where such labels raise it once the features are past the rank
    test and the flattening. *)
Theorem tree_labels_not_length_checked self (f : tensor tval) labels :
  (size f 0 < length labels)%nat ->
  (is_Some (tree_path self) ->
   forward self f (Some labels) None <> Raise (ValueError NumLabelsMismatch) /\
   forward self f (Some labels) None
   = forward self f (Some (take (size f 0) labels)) None) /\
  (tree_path self = None -> flattens f ->
   forward self f (Some labels) None = Raise (ValueError NumLabelsMismatch)).
Proof.
  intros Hlen. split.
  - intros [t Ht]. split.
    + intros H. apply forward_mismatch in H as (Hnone & _). congruence.
    + unfold forward. case_decide; [done|].
      destruct (if decide (3 < rank f)%nat then view3 f else Ok f)
        as [f'|e] eqn:Hview; cbn [mbind result_bind]; [|done].
      assert (size f' 0 = size f 0) as ->.
      { case_decide; [by apply view3_size0|by simplify_eq]. }
      by rewrite (forward_mask_take self t).
  - intros Hnone Hf. rewrite forward_flattens by done.
    unfold forward_mask. rewrite Hnone, decide_True by lia. reflexivity.
Qed.

Lemma tree_labels_not_length_checked_witness :
  (is_Some (tree_path example_loss) ->
   forward example_loss unit_features (Some [0; 1; 2]%Z) None
   <> Raise (ValueError NumLabelsMismatch) /\
   forward example_loss unit_features (Some [0; 1; 2]%Z) None
   = forward example_loss unit_features
       (Some (take (size unit_features 0) [0; 1; 2]%Z)) None) /\
  (tree_path example_loss = None -> flattens unit_features ->
   forward example_loss unit_features (Some [0; 1; 2]%Z) None
   = Raise (ValueError NumLabelsMismatch)).
Proof.
  apply (tree_labels_not_length_checked example_loss unit_features [0; 1; 2]%Z).
  unfold size. simpl. lia.
Defined.

(** ** Finite entries: tensor arithmetic on reals *)

Lemma tlog_pos x : 0 < x -> tlog (Fin x) = Fin (ln x).
Proof.
  intros Hx. unfold tlog. destruct (total_order_T x 0) as [[|]|]; [lra|lra|done].
Qed.

Lemma tdiv_nonzero x y : y <> 0 -> tdiv (Fin x) (Fin y) = Fin (x / y).
Proof. intros Hy. unfold tdiv. by destruct (Req_dec_T y 0). Qed.

Lemma inf_times_zero pos x : x = 0 -> inf_times pos x = NaN.
Proof.
  intros ->. unfold inf_times.
  destruct (total_order_T 0 0) as [[|]|]; [lra|done|lra].
Qed.

Lemma tdiv_zero_zero x y : x = 0 -> y = 0 -> tdiv (Fin x) (Fin y) = NaN.
Proof.
  intros Hx ->. unfold tdiv. destruct (Req_dec_T 0 0); [|done].
  by apply inf_times_zero.
Qed.

Lemma tsum_lift l : tsum (lift l) = Fin (sumR l).
Proof.
  induction l as [|x l IH]; [done|].
  change (tsum (lift (x :: l))) with (tadd (Fin x) (tsum (lift l))).
  by rewrite IH.
Qed.

Lemma zip_with_lift (f : tval -> tval -> tval) (g : R -> R -> R) a b :
  (forall x y, f (Fin x) (Fin y) = Fin (g x y)) ->
  zip_with f (lift a) (lift b) = lift (zip_with g a b).
Proof.
  intros Hfg. revert b. induction a as [|x a IH]; intros [|y b]; simpl; try done.
  by rewrite Hfg, IH.
Qed.

Lemma map_lift (f : tval -> tval) (g : R -> R) l :
  (forall x, f (Fin x) = Fin (g x)) -> map f (lift l) = lift (map g l).
Proof.
  intros Hfg. induction l as [|x l IH]; simpl; [done|]. by rewrite Hfg, IH.
Qed.

Lemma dot_lift a c : dot (lift a) (lift c) = Fin (dotR a c).
Proof.
  unfold dot, dotR. rewrite (zip_with_lift tmul Rmult) by done.
  apply tsum_lift.
Qed.

Lemma sumR_app l1 l2 : sumR (l1 ++ l2) = sumR l1 + sumR l2.
Proof. induction l1 as [|x l1 IH]; simpl; [lra|]. rewrite IH. lra. Qed.

Lemma sumR_nonneg l : Forall (fun x => 0 <= x) l -> 0 <= sumR l.
Proof.
  induction 1 as [|x l Hx _ IH]; simpl; [lra|]. lra.
Qed.

Lemma sumR_exp_pos l : l <> [] -> 0 < sumR (map exp l).
Proof.
  destruct l as [|x l]; [done|]. intros _. simpl.
  assert (0 <= sumR (map exp l)).
  { apply sumR_nonneg, Forall_forall. intros y Hy.
    apply list_elem_of_In, in_map_iff in Hy as (z & <- & _).
    left. apply exp_pos. }
  pose proof (exp_pos x). lra.
Qed.

Lemma log_softmax_row_lift r :
  r <> [] ->
  log_softmax_row (lift r) =
  lift (map (fun x => x - ln (sumR (map exp r))) r).
Proof.
  intros Hr. unfold log_softmax_row.
  rewrite (map_lift texp_exact exp) by done.
  rewrite tsum_lift, tlog_pos by (by apply sumR_exp_pos).
  by apply map_lift.
Qed.

(** ** [LabelSmoothingLoss] *)

Lemma smoothed_row_sumR (lr : list R) t c f :
  f = 0 -> (t < length lr)%nat ->
  sumR (zip_with Rmult (map Ropp (<[t := c]> (map (fun _ => f) lr))) lr)
  = - c * nth t lr 0.
Proof.
  intros ->. revert t. induction lr as [|x lr IH]; intros t Ht; simpl in *; [lia|].
  destruct t as [|t]; simpl.
  - assert (sumR (zip_with Rmult (map Ropp (map (fun _ => 0) lr)) lr) = 0) as ->.
    { clear. induction lr as [|y lr IH]; simpl; [done|]. rewrite IH. lra. }
    lra.
  - rewrite IH by lia. lra.
Qed.

Lemma map_const_lift (f : R) (lr : list R) :
  map (fun _ : tval => Fin f) (lift lr) = lift (map (fun _ => f) lr).
Proof. induction lr as [|x lr IH]; simpl; [done|]. by rewrite IH. Qed.

Lemma insert_lift t (c : R) (lr : list R) :
  <[t := Fin c]> (lift lr) = lift (<[t := c]> lr).
Proof. symmetry. apply (list_fmap_insert Fin). Qed.

Lemma smoothed_row lr t c f :
  f = 0 -> (t < length lr)%nat ->
  tsum (zip_with tmul (map tneg (<[t := Fin c]> (map (fun _ => Fin f) (lift lr))))
                 (lift lr))
  = Fin (- c * nth t lr 0).
Proof.
  intros Hf Ht.
  rewrite map_const_lift, insert_lift, (map_lift tneg Ropp) by done.
  rewrite (zip_with_lift tmul Rmult) by done.
  rewrite tsum_lift. f_equal. by apply smoothed_row_sumR.
Qed.

Lemma nth_lift t lr : (t < length lr)%nat -> nth t (lift lr) NaN = Fin (nth t lr 0).
Proof.
  intros Ht. rewrite (nth_indep _ NaN (Fin 0)) by (by rewrite length_map).
  apply (map_nth Fin).
Qed.

Lemma smoothing_rows rows target c f C :
  f = 0 ->
  Forall (fun r => length r = C) rows ->
  length target = length rows ->
  Forall (fun t => (0 <= t < Z.of_nat C)%Z) target ->
  exists td,
    scatter_rows (map (map (fun _ => Fin f)) (lift2 rows)) target (Fin c) = Ok td /\
    map length (map (map tneg) td) = map length (lift2 rows) /\
    map tsum (zip_with (zip_with tmul) (map (map tneg) td) (lift2 rows))
    = zip_with (fun row t => Fin (- c * nth (Z.to_nat t) row 0)) rows target.
Proof.
  intros Hf Hrows. revert target.
  induction Hrows as [|r rows Hr _ IH]; intros [|t target] Hlen Ht;
    simplify_eq/=.
  { exists []. by repeat split. }
  apply Forall_cons in Ht as [Ht Htarget].
  destruct (IH target) as (td & Htd & Hshape & Hsum); [done..|].
  rewrite !length_map. rewrite decide_True by lia.
  rewrite Htd. simpl. eexists. split; [done|]. simpl.
  rewrite !length_map, length_insert, !length_map. split; [by f_equal|].
  rewrite Hsum. f_equal. apply smoothed_row; [done|lia].
Qed.

(** C8 as stated fails on a prediction with an infinite entry: with
    [pred = [[0, -inf]]] and [target = [0]] the smoothed loss multiplies the
    zero weight of the other class by [-inf] and returns [nan], while the
    cross-entropy is finite. *)
Lemma label_smoothing_zero_infinite_logit :
  LabelSmoothingLoss_forward (LabelSmoothingLoss_init 2 0 (-1))
                             [[Fin 0; NInf]] [0%Z] = Ok NaN /\
  cross_entropy [[Fin 0; NInf]] [0%Z] <> NaN.
Proof.
  assert (0 < exp 0 + (0 + 0)) as Hpos by (pose proof (exp_pos 0); lra).
  split.
  - unfold LabelSmoothingLoss_forward. simpl length.
    rewrite decide_False by lia.
    change (log_softmax (dim (LabelSmoothingLoss_init 2 0 (-1))) [[Fin 0; NInf]])
      with (Ok [log_softmax_row [Fin 0; NInf]]).
    unfold log_softmax_row. cbn [map tsum foldr texp_exact tadd].
    rewrite tlog_pos by done. cbn [mbind result_bind].
    cbn [smoothing cls LabelSmoothingLoss_init confidence dim].
    rewrite float_div_nonzero by lra. cbn [mbind result_bind].
    cbn [map tsub tneg tadd].
    change (scatter_rows ?m [0%Z] ?v)
      with (Ok [[v; Fin (0 / (2 - 1))]]).
    cbn [mbind result_bind].
    unfold tensor_mul. change (same_shape _ _) with true.
    cbn [mbind result_bind map zip_with tneg tmul].
    rewrite inf_times_zero by lra.
    reflexivity.
  - unfold cross_entropy, log_softmax_row.
    cbn [map tsum foldr texp_exact tadd zip_with length].
    rewrite tlog_pos by done. cbn [map tsub tneg tadd Z.to_nat nth].
    unfold tmean. change (Z.to_nat 0) with 0%nat.
    cbn [tsum foldr tadd tneg length].
    rewrite tdiv_nonzero by (simpl; lra). done.
Qed.

Lemma same_shape_true m1 m2 : map length m1 = map length m2 -> same_shape m1 m2 = true.
Proof. intros H. unfold same_shape. by apply bool_decide_eq_true. Qed.

(** C8 (amended).  For a prediction matrix of shape [[B, C]] with finite
    entries, [C = classes >= 2], and a vector of [B] targets, each a valid
    class, [LabelSmoothingLoss] built with [smoothing = 0] and with [dim]
    naming the class axis ([dim = -1], the default, or [dim = 1]) returns
    exactly the standard cross-entropy: the mean over the batch of the
    negative log-softmax probability of the true class. *)
Theorem label_smoothing_zero_is_cross_entropy (C : nat) (d : Z)
    (pred : list (list R)) (target : list Z) :
  (d = -1 \/ d = 1)%Z ->
  (2 <= C)%nat ->
  Forall (fun row => length row = C) pred ->
  length target = length pred ->
  Forall (fun t => (0 <= t < Z.of_nat C)%Z) target ->
  LabelSmoothingLoss_forward (LabelSmoothingLoss_init (Z.of_nat C) 0 d)
                             (lift2 pred) target
  = Ok (cross_entropy (lift2 pred) target).
Proof.
  intros Hd HC Hrows Hlen Htarget.
  set (lsm := fun r : list R => map (fun x => x - ln (sumR (map exp r))) r).
  assert (map log_softmax_row (lift2 pred) = lift2 (map lsm pred)) as Hlsm.
  { rewrite <- !list_fmap_compose. apply list_fmap_ext. intros i r Hr.
    simpl. apply log_softmax_row_lift.
    rewrite Forall_lookup in Hrows. specialize (Hrows i r Hr).
    destruct r; simpl in *; [lia|done]. }
  unfold LabelSmoothingLoss_forward.
  rewrite length_map, decide_False by lia.
  assert (axis_of_dim d = Ok true) as Haxis.
  { unfold axis_of_dim. rewrite decide_True by lia. done. }
  cbn [dim LabelSmoothingLoss_init]. unfold log_softmax, sum_dim.
  rewrite Haxis.
  cbn [mbind result_bind smoothing cls confidence LabelSmoothingLoss_init dim].
  assert (IZR (Z.of_nat C) - 1 <> 0) as HC1.
  { assert (2 <= IZR (Z.of_nat C)) by (apply (IZR_le 2); lia). lra. }
  rewrite float_div_nonzero by done. cbn [mbind result_bind].
  rewrite Hlsm.
  destruct (smoothing_rows (map lsm pred) target (1 - 0)
              (0 / (IZR (Z.of_nat C) - 1)) C) as (td & Htd & Hshape & Hsum).
  { unfold Rdiv. lra. }
  { apply Forall_fmap. eapply Forall_impl; [exact Hrows|].
    intros r Hr. simpl. unfold lsm. by rewrite length_map. }
  { by rewrite length_map. }
  { done. }
  rewrite Htd. cbn [mbind result_bind].
  unfold tensor_mul. rewrite same_shape_true by done.
  cbn [mbind result_bind]. rewrite Hsum. do 2 f_equal.
  unfold cross_entropy. f_equal.
  clear -Hrows Hlen Htarget HC. revert target Hlen Htarget.
  induction Hrows as [|r rows Hr _ IH]; intros [|t target] Hlen Ht;
    simplify_eq/=; [done|].
  apply Forall_cons in Ht as [Ht Htarget].
  rewrite IH by done. f_equal.
  rewrite log_softmax_row_lift by (intros ->; simpl in *; lia).
  fold (lsm r). rewrite nth_lift by (unfold lsm; rewrite length_map; lia).
  simpl. f_equal. lra.
Qed.

Lemma label_smoothing_zero_is_cross_entropy_witness :
  LabelSmoothingLoss_forward (LabelSmoothingLoss_init (Z.of_nat 3) 0 1)
                             (lift2 [[2; 0; 0]]) [0%Z]
  = Ok (cross_entropy (lift2 [[2; 0; 0]]) [0%Z]).
Proof.
  apply (label_smoothing_zero_is_cross_entropy 3 1 [[2; 0; 0]] [0%Z]).
  - lia.
  - lia.
  - repeat constructor.
  - reflexivity.
  - repeat constructor; lia.
Defined.

(** ** The contrastive loss on finite entries *)

Lemma lift2_shape (m : list (list R)) : map length (lift2 m) = map length m.
Proof.
  rewrite map_map. apply map_ext. intros row. apply length_map.
Qed.

Lemma feature_vec_lift (f : tensor R) b v :
  feature_vec (tensor_map Fin f) b v = lift (feature_vec f b v).
Proof.
  unfold feature_vec, tensor_map, size. simpl.
  change (map Fin) with (fmap (M:=list) Fin).
  by rewrite fmap_take, fmap_drop.
Qed.

Lemma select_view_lift (f : tensor R) v :
  select_view (tensor_map Fin f) v = lift2 (select_view f v).
Proof.
  unfold select_view. change (size (tensor_map Fin f) 0) with (size f 0).
  rewrite map_map. apply map_ext. intros b. apply feature_vec_lift.
Qed.

Lemma unbind1_lift (f : tensor R) :
  unbind1 (tensor_map Fin f) = map lift2 (unbind1 f).
Proof.
  unfold unbind1. change (size (tensor_map Fin f) 1) with (size f 1).
  rewrite map_map. apply map_ext. intros v. apply select_view_lift.
Qed.

Lemma flattened_lift (f : tensor R) :
  flattened (tensor_map Fin f) = tensor_map Fin (flattened f).
Proof.
  unfold flattened. change (rank (tensor_map Fin f)) with (rank f).
  case_decide; [|done]. unfold tensor_map, size. simpl.
  by rewrite length_map.
Qed.

Lemma tile_lift a c (m : list (list R)) : tile a c (lift2 m) = lift2 (tile a c m).
Proof.
  unfold tile. rewrite concat_map. f_equal.
  change (map (map (map Fin))) with (fmap (M:=list) (map (map Fin))).
  rewrite fmap_replicate. f_equal.
  rewrite !map_map. apply map_ext. intros row.
  rewrite concat_map. f_equal.
  change (map (map Fin)) with (fmap (M:=list) (map Fin)).
  by rewrite fmap_replicate.
Qed.

Lemma length_concat_replicate {A} n (l : list A) :
  length (concat (replicate n l)) = (n * length l)%nat.
Proof. induction n as [|n IH]; simpl; [done|]. by rewrite length_app, IH. Qed.

Lemma tile_shape {A} a c B (m : list (list A)) :
  map length m = replicate B B ->
  map length (tile a c m) = replicate (a * B) (c * B)%nat.
Proof.
  intros Hm. unfold tile.
  assert (map length (map (fun row => concat (replicate c row)) m)
          = replicate B (c * B)%nat) as Hrow.
  { rewrite map_map.
    rewrite (map_ext _ (fun row => (c * length row)%nat))
      by (intros; apply length_concat_replicate).
    rewrite <- (map_map length (fun n => (c * n)%nat)), Hm.
    change (map ?f (replicate B B)) with (f <$> replicate B B).
    by rewrite fmap_replicate. }
  clear Hm. induction a as [|a IH]; simpl; [done|].
  rewrite map_app, IH, Hrow. by rewrite <- replicate_add.
Qed.

Lemma shape_replicate_lookup {A} (m : list (list A)) n k i row :
  map length m = replicate n k -> m !! i = Some row -> length row = k /\ (i < n)%nat.
Proof.
  intros Hm Hi.
  assert (map length m !! i = Some (length row)) as Hl
    by (by rewrite list_lookup_fmap, Hi).
  rewrite Hm in Hl. apply lookup_replicate in Hl as [-> ?]. done.
Qed.

Lemma shape_replicate_length {A} (m : list (list A)) n k :
  map length m = replicate n k -> length m = n.
Proof.
  intros H. by rewrite <- (length_map length m), H, length_replicate.
Qed.

Lemma logits_lift T (AR CR : list (list R)) :
  T <> 0 ->
  map (map (fun x => tdiv x (Fin T))) (matmul_T (lift2 AR) (lift2 CR))
  = lift2 (spec_logits T AR CR).
Proof.
  intros HT. unfold matmul_T, spec_logits. rewrite !map_map.
  apply map_ext. intros a. rewrite !map_map. apply map_ext. intros c.
  rewrite dot_lift. by apply tdiv_nonzero.
Qed.

Lemma foldl_tmax_lift x row :
  foldl tmax (Fin x) (lift row) = Fin (foldl Rmax x row).
Proof.
  revert x. induction row as [|y row IH]; intros x; simpl; [done|]. apply IH.
Qed.

Lemma max_dim1_lift (L : list (list R)) :
  L <> [] -> Forall (fun row => row <> []) L ->
  max_dim1 (lift2 L) = Ok (lift (map row_maxR L)).
Proof.
  intros HL Hrows. unfold max_dim1.
  assert (forallb (fun row : list tval => negb (Nat.eqb (length row) 0)) (lift2 L)
          = true) as ->.
  { apply forallb_forall. intros row Hin.
    apply in_map_iff in Hin as (r & <- & Hr).
    rewrite Forall_forall in Hrows. apply list_elem_of_In, Hrows in Hr.
    rewrite length_map. destruct r; [done|reflexivity]. }
  assert (negb (Nat.eqb (length (lift2 L)) 0) = true) as ->.
  { rewrite length_map. destruct L; [done|reflexivity]. }
  simpl. f_equal. rewrite !map_map. apply map_ext_Forall.
  eapply Forall_impl; [exact Hrows|]. intros [|x row] Hrow; [done|]. simpl.
  apply foldl_tmax_lift.
Qed.

Lemma foldl_Rmax_bounds x row :
  x <= foldl Rmax x row /\
  (forall y, y ∈ row -> y <= foldl Rmax x row) /\
  foldl Rmax x row ∈ x :: row.
Proof.
  revert x. induction row as [|z row IH]; intros x; simpl.
  { split; [lra|]. split; [by intros y Hy; apply elem_of_nil in Hy|by left]. }
  destruct (IH (Rmax x z)) as (H1 & H2 & H3).
  pose proof (Rmax_l x z). pose proof (Rmax_r x z).
  split; [lra|]. split.
  - intros y Hy. apply elem_of_cons in Hy as [->|Hy]; [lra|by apply H2].
  - apply elem_of_cons in H3 as [H3|H3]; [|by do 2 right].
    rewrite H3. unfold Rmax. destruct (Rle_dec x z); [right|]; by left.
Qed.

Lemma row_maxR_ge row x : x ∈ row -> x <= row_maxR row.
Proof.
  destruct row as [|z row]; [by intros H; apply elem_of_nil in H|]. simpl.
  destruct (foldl_Rmax_bounds z row) as (H1 & H2 & _).
  intros H. apply elem_of_cons in H as [->|H]; [done|by apply H2].
Qed.

Lemma row_maxR_elem row : row <> [] -> row_maxR row ∈ row.
Proof.
  destruct row as [|z row]; [done|]. intros _. simpl.
  apply foldl_Rmax_bounds.
Qed.

(** *** The range of [torch.exp] *)

Lemma exp_INR_mult n x : exp (INR n * x) = exp x ^ n.
Proof.
  induction n as [|n IH].
  - simpl. rewrite Rmult_0_l. apply exp_0.
  - rewrite S_INR, Rmult_plus_distr_r, Rmult_1_l, exp_plus, IH. simpl. ring.
Qed.

Lemma exp_80_bound : exp 80 < 2 ^ 150.
Proof.
  replace 80 with (INR 80 * 1) by (simpl; lra).
  rewrite exp_INR_mult.
  apply Rle_lt_trans with (3 ^ 80).
  - apply pow_incr. split; [left; apply exp_pos|]. apply exp_le_3.
  - change 3 with (IZR 3). change 2 with (IZR 2). rewrite !pow_IZR.
    apply IZR_lt. reflexivity.
Qed.

Lemma exp_5_7 : 2 < exp (5 / 7).
Proof.
  replace (5 / 7) with (INR 16 * (5 / 112)) by (simpl; lra).
  rewrite exp_INR_mult.
  apply Rlt_le_trans with ((117 / 112) ^ 16).
  - apply (Rmult_lt_reg_r (112 ^ 16)); [apply pow_lt; lra|].
    rewrite <- Rpow_mult_distr.
    replace (117 / 112 * 112) with 117 by lra.
    change 2 with (IZR 2). change 112 with (IZR 112). change 117 with (IZR 117).
    rewrite !pow_IZR, <- mult_IZR. apply IZR_lt. reflexivity.
  - apply pow_incr. split; [lra|]. left.
    replace (117 / 112) with (1 + 5 / 112) by lra. apply exp_ineq1. lra.
Qed.

(** At or below [-750/7], about [-107.1], the exponential is at most
    [2^-150]. *)
Lemma exp_underflow x : x <= - (750 / 7) -> exp x <= / 2 ^ 150.
Proof.
  intros Hx.
  assert (2 ^ 150 <= exp (750 / 7)) as H.
  { replace (750 / 7) with (INR 150 * (5 / 7)) by (simpl; lra).
    rewrite exp_INR_mult. apply pow_incr. pose proof exp_5_7. lra. }
  apply Rle_trans with (exp (Ropp (750 / 7))).
  - destruct Hx as [Hx| ->]; [left; by apply exp_increasing|right; reflexivity].
  - rewrite exp_Ropp. apply Rinv_le_contravar; [apply pow_lt; lra|done].
Qed.

Lemma exp_in_range x :
  -80 <= x <= 0 -> / 2 ^ 150 < exp x /\ exp x < 2 ^ 128 - 2 ^ 103.
Proof.
  intros [Hlo Hhi]. split.
  - assert (Ropp 80 <= x) as Hlo' by lra. clear Hlo.
    apply Rlt_le_trans with (exp (Ropp 80)).
    + rewrite exp_Ropp. apply Rinv_lt_contravar.
      * apply Rmult_lt_0_compat; [apply exp_pos|apply pow_lt; lra].
      * apply exp_80_bound.
    + destruct Hlo' as [Hlo|<-];
        [left; by apply exp_increasing|right; reflexivity].
  - apply Rle_lt_trans with 1.
    + rewrite <- exp_0.
      destruct Hhi as [Hhi| ->];
        [left; by apply exp_increasing|right; reflexivity].
    + assert (2 ^ 103 * 2 <= 2 ^ 128 - 2 ^ 103).
      { replace (2 ^ 128) with (2 ^ 103 * 2 ^ 25)
          by (rewrite <- pow_add; reflexivity).
        assert (3 <= 2 ^ 25)
          by (change 2 with (IZR 2); change 3 with (IZR 3);
              rewrite pow_IZR; apply IZR_le; done).
        assert (0 < 2 ^ 103) by (apply pow_lt; lra). nra. }
      assert (1 <= 2 ^ 103) by (apply pow_R1_Rle; lra). lra.
Qed.

(** Between [-80] and [0] [torch.exp] neither underflows nor overflows. *)
Lemma texp_in_range x : -80 <= x <= 0 -> texp (Fin x) = Fin (exp x).
Proof.
  intros Hx. destruct (exp_in_range x Hx) as [Hlo Hhi]. unfold texp.
  destruct (Rle_dec _ _); [lra|]. destruct (Rle_dec _ _); [lra|]. done.
Qed.

Lemma texp_underflow x : x <= - (750 / 7) -> texp (Fin x) = Fin 0.
Proof.
  intros Hx. unfold texp. destruct (Rle_dec _ _) as [|Hn]; [done|].
  destruct Hn. by apply exp_underflow.
Qed.

(** The logits of a row minus the greatest of them lie between minus
    the spread of the row and zero. *)
Lemma shifted_in_range (L : list (list R)) :
  Forall (spread_within 64) L ->
  Forall (Forall (fun x => -80 <= x <= 0))
         (zip_with (fun row c => map (fun x => x - c) row) L (map row_maxR L)).
Proof.
  induction 1 as [|row L Hrow _ IH]; simpl; constructor; [|done].
  apply Forall_forall. intros y Hy.
  apply list_elem_of_In, in_map_iff in Hy as (x & <- & Hx).
  apply list_elem_of_In in Hx.
  pose proof (row_maxR_ge row x Hx).
  assert (row_maxR row ∈ row) as Hm.
  { apply row_maxR_elem. intros ->. by apply elem_of_nil in Hx. }
  pose proof (Hrow (row_maxR row) x Hm Hx). lra.
Qed.

Lemma broadcast_col_lift (f : tval -> tval -> tval) (g : R -> R -> R)
    (P : R -> Prop) (M : list (list R)) (col : list R) :
  (forall x c, P c -> f (Fin x) (Fin c) = Fin (g x c)) ->
  Forall P col ->
  broadcast_col f (lift2 M) (lift col)
  = lift2 (zip_with (fun row c => map (fun x => g x c) row) M col).
Proof.
  intros Hfg Hcol. unfold broadcast_col. revert M.
  induction Hcol as [|c col Hc _ IH]; intros [|row M]; simpl; try done.
  rewrite IH. f_equal. rewrite !map_map. apply map_ext. intros x. by apply Hfg.
Qed.

Lemma zip_with2_lift (f : tval -> tval -> tval) (g : R -> R -> R)
    (M1 M2 : list (list R)) :
  (forall x y, f (Fin x) (Fin y) = Fin (g x y)) ->
  zip_with (zip_with f) (lift2 M1) (lift2 M2)
  = lift2 (zip_with (zip_with g) M1 M2).
Proof.
  intros Hfg. revert M2. induction M1 as [|r1 M1 IH]; intros [|r2 M2];
    simpl; try done.
  by rewrite IH, (zip_with_lift f g).
Qed.

Lemma tensor_mul_lift (M1 M2 : list (list R)) :
  map length M1 = map length M2 ->
  tensor_mul (lift2 M1) (lift2 M2) = Ok (lift2 (zip_with (zip_with Rmult) M1 M2)).
Proof.
  intros Hshape. unfold tensor_mul.
  rewrite same_shape_true by (by rewrite !lift2_shape).
  by rewrite (zip_with2_lift tmul Rmult).
Qed.

Lemma map_tsum_lift (M : list (list R)) : map tsum (lift2 M) = lift (map sumR M).
Proof. rewrite !map_map. apply map_ext. intros row. apply tsum_lift. Qed.

Lemma zip_with_tdiv_lift (a b : list R) :
  Forall (fun y => y <> 0) b ->
  zip_with tdiv (lift a) (lift b) = lift (zip_with Rdiv a b).
Proof.
  intros Hb. revert a. induction Hb as [|y b Hy _ IH]; intros [|x a];
    simpl; try done.
  by rewrite IH, tdiv_nonzero.
Qed.

Lemma tmean_lift (l : list R) :
  l <> [] -> tmean (lift l) = Fin (sumR l / INR (length l)).
Proof.
  intros Hl. unfold tmean. rewrite tsum_lift, length_map.
  apply tdiv_nonzero. apply not_0_INR. by destruct l.
Qed.

Lemma scatter_self_lift n k (MT : list (list R)) :
  map length MT = replicate n k -> (n <= k)%nat ->
  scatter_self n (lift2 MT)
  = Ok (lift2 (imap (fun r row => <[r := 0]> (map (fun _ => 1) row)) MT)).
Proof.
  intros Hshape Hnk. unfold scatter_self.
  pose proof (shape_replicate_length _ _ _ Hshape) as Hlen.
  rewrite bool_decide_eq_true_2 by (rewrite length_map; lia).
  assert (forallb (fun r => Nat.ltb r (length (nth r (lift2 MT) []))) (seq 0 n)
          = true) as ->.
  { apply forallb_forall. intros r Hr. apply in_seq in Hr.
    apply Nat.ltb_lt.
    destruct (lookup_lt_is_Some_2 MT r) as [row Hrow]; [lia|].
    destruct (shape_replicate_lookup _ _ _ _ _ Hshape Hrow) as [Hk _].
    rewrite (nth_lookup_Some (lift2 MT) r [] (lift row))
      by (by rewrite list_lookup_fmap, Hrow).
    rewrite length_map. lia. }
  simpl. f_equal. apply list_eq. intros r.
  rewrite list_lookup_imap, !list_lookup_fmap, list_lookup_imap.
  destruct (MT !! r) as [row|] eqn:Hrow; simpl; [|done].
  destruct (shape_replicate_lookup _ _ _ _ _ Hshape Hrow) as [_ Hr].
  rewrite decide_True by done. f_equal.
  rewrite <- insert_lift. f_equal. by rewrite !map_map.
Qed.

(** *** Rows of reals *)

Lemma sumR_masked (xs mt : list R) r :
  length mt = length xs ->
  sumR (zip_with Rmult xs (<[r := 0]> (map (fun _ => 1) mt))) = sumR (delete r xs).
Proof.
  revert mt r. induction xs as [|x xs IH]; intros [|y mt] r Hlen;
    simplify_eq/=; [by destruct r|].
  destruct r as [|r]; simpl.
  - assert (sumR (zip_with Rmult xs (map (fun _ => 1) mt)) = sumR xs) as ->.
    { clear IH. revert mt Hlen. induction xs as [|z xs IH]; intros [|w mt] Hlen;
        simplify_eq/=; [done|]. rewrite IH by done. lra. }
    lra.
  - rewrite IH by done. lra.
Qed.

Lemma mask_row_self (mt : list R) r :
  zip_with Rmult mt (<[r := 0]> (map (fun _ => 1) mt)) = <[r := 0]> mt.
Proof.
  revert r. induction mt as [|x mt IH]; intros r; [by destruct r|].
  destruct r as [|r]; simpl.
  - f_equal; [lra|]. clear. induction mt as [|y mt IH]; simpl; [done|].
    rewrite IH. f_equal. lra.
  - rewrite IH. f_equal. lra.
Qed.

Lemma sumR_exp_shift (l : list R) m :
  sumR (map exp (map (fun x => x - m) l)) = exp (- m) * sumR (map exp l).
Proof.
  induction l as [|x l IH]; simpl; [lra|]. rewrite IH.
  replace (x - m) with (- m + x) by lra. rewrite exp_plus. lra.
Qed.

Lemma delete_map {A B} (f : A -> B) (l : list A) r :
  delete r (map f l) = map f (delete r l).
Proof. symmetry. apply (list_fmap_delete f). Qed.

(** The sum of the exponentiated, shifted logits over the non-self
    columns, as the code forms it. *)
Lemma exp_logits_sum (l mt : list R) r m :
  length mt = length l ->
  sumR (zip_with Rmult (map exp (map (fun x => x - m) l))
                 (<[r := 0]> (map (fun _ => 1) mt)))
  = exp (- m) * sumR (map exp (delete r l)).
Proof.
  intros Hlen. rewrite sumR_masked by (by rewrite !length_map).
  by rewrite !delete_map, sumR_exp_shift.
Qed.

(** Subtracting the row maximum leaves [log_prob] unchanged. *)
Lemma log_prob_shift (l mt : list R) r m :
  length mt = length l -> delete r l <> [] ->
  map (fun x => x - ln (sumR (zip_with Rmult (map exp (map (fun x => x - m) l))
                                     (<[r := 0]> (map (fun _ => 1) mt)))))
      (map (fun x => x - m) l)
  = spec_log_prob r l.
Proof.
  intros Hlen Hne. rewrite exp_logits_sum by done.
  unfold spec_log_prob. rewrite map_map. apply map_ext. intros x.
  pose proof (sumR_exp_pos _ Hne) as Hpos.
  rewrite ln_mult by (done || apply exp_pos). rewrite ln_exp. lra.
Qed.

Lemma sumR_scale k (l : list R) : sumR (map (Rmult k) l) = k * sumR l.
Proof. induction l as [|x l IH]; simpl; [lra|]. rewrite IH. lra. Qed.

(** *** Matrices of reals, row by row *)

Lemma masked_mask (MT : list (list R)) :
  zip_with (zip_with Rmult) MT
           (imap (fun r row => <[r := 0]> (map (fun _ => 1) row)) MT)
  = imap (fun r row => <[r := 0]> row) MT.
Proof.
  apply list_eq. intros r.
  rewrite lookup_zip_with, !list_lookup_imap.
  destruct (MT !! r) as [row|]; simpl; [|done].
  by rewrite mask_row_self.
Qed.

Lemma logits_mask_shape (MT : list (list R)) :
  map length (imap (fun r row => <[r := 0]> (map (fun _ => 1) row)) MT)
  = map length MT.
Proof.
  apply list_eq. intros r.
  rewrite !list_lookup_fmap, list_lookup_imap.
  destruct (MT !! r) as [row|]; simpl; [|done].
  by rewrite length_insert, length_map.
Qed.

Lemma shifted_shape (L : list (list R)) (ms : list R) :
  length ms = length L ->
  map length (zip_with (fun row c => map (fun x => x - c) row) L ms)
  = map length L.
Proof.
  revert ms. induction L as [|l L IH]; intros [|m ms] Hlen; simplify_eq/=;
    [done|].
  by rewrite length_map, IH.
Qed.

Section rows.
Variables (L MT : list (list R)) (ms : list R) (n k : nat).
Hypothesis HL : map length L = replicate n k.
Hypothesis HMT : map length MT = replicate n k.
Hypothesis Hms : length ms = n.
Hypothesis Hk : (2 <= k)%nat.

Local Notation LM := (imap (fun r row => <[r := 0]> (map (fun _ => 1) row)) MT).
Local Notation LG := (zip_with (fun row c => map (fun x => x - c) row) L ms).
Local Notation EL := (zip_with (zip_with Rmult) (map (map exp) LG) LM).

Lemma exp_logits_row r s :
  map sumR EL !! r = Some s ->
  exists l m mt,
    L !! r = Some l /\ ms !! r = Some m /\ MT !! r = Some mt /\
    length l = k /\ length mt = k /\
    s = exp (- m) * sumR (map exp (delete r l)).
Proof.
  rewrite list_lookup_fmap, lookup_zip_with, list_lookup_fmap, lookup_zip_with,
    list_lookup_imap.
  destruct (L !! r) as [l|] eqn:Hl; simpl; [|done].
  destruct (ms !! r) as [m|] eqn:Hm; simpl; [|done].
  destruct (MT !! r) as [mt|] eqn:Hmt; simpl; [|done].
  intros [= <-].
  destruct (shape_replicate_lookup _ _ _ _ _ HL Hl) as [Hlk _].
  destruct (shape_replicate_lookup _ _ _ _ _ HMT Hmt) as [Hmk _].
  exists l, m, mt. repeat split; try done.
  apply exp_logits_sum. congruence.
Qed.

Lemma nonself_nonempty (l : list R) r : length l = k -> delete r l <> [].
Proof.
  intros Hl Hd. destruct (decide (r < length l)%nat) as [Hr|Hr].
  - assert (length (delete r l) = (length l - 1)%nat) as Hlen
      by (by apply length_delete, lookup_lt_is_Some_2).
    rewrite Hd in Hlen. simpl in Hlen. lia.
  - rewrite delete_take_drop, take_ge, drop_ge, app_nil_r in Hd by lia.
    subst l. simpl in *. lia.
Qed.

Lemma exp_logits_sums_positive : Forall (fun s => 0 < s) (map sumR EL).
Proof.
  apply Forall_lookup. intros r s Hs.
  apply exp_logits_row in Hs as (l & m & mt & _ & _ & _ & Hl & _ & ->).
  apply Rmult_lt_0_compat; [apply exp_pos|].
  apply sumR_exp_pos. by apply nonself_nonempty.
Qed.

Lemma log_prob_rows :
  zip_with (fun row s => map (fun x => x - ln s) row) LG (map sumR EL)
  = imap spec_log_prob L.
Proof.
  apply list_eq. intros r.
  rewrite lookup_zip_with, list_lookup_imap.
  destruct (map sumR EL !! r) as [s|] eqn:Hs.
  - pose proof Hs as Hs'.
    apply exp_logits_row in Hs' as (l & m & mt & Hl & Hm & Hmt & Hlk & Hmk & _).
    rewrite lookup_zip_with, Hl, Hm. simpl. f_equal.
    revert Hs.
    rewrite list_lookup_fmap, lookup_zip_with, list_lookup_fmap, lookup_zip_with,
      list_lookup_imap, Hl, Hm, Hmt. simpl. intros [= <-].
    apply log_prob_shift; [congruence|by apply nonself_nonempty].
  - destruct (L !! r) as [l|] eqn:Hl; simpl.
    2:{ by rewrite lookup_zip_with, Hl. }
    exfalso.
    destruct (shape_replicate_lookup _ _ _ _ _ HL Hl) as [_ Hr].
    destruct (lookup_lt_is_Some_2 ms r) as [m Hm]; [lia|].
    destruct (lookup_lt_is_Some_2 MT r) as [mt Hmt].
    { rewrite (shape_replicate_length _ _ _ HMT). lia. }
    revert Hs.
    by rewrite list_lookup_fmap, lookup_zip_with, list_lookup_fmap,
      lookup_zip_with, list_lookup_imap, Hl, Hm, Hmt.
Qed.

End rows.

Lemma mean_log_prob_rows (L MK : list (list R)) :
  zip_with Rdiv (map sumR (zip_with (zip_with Rmult) MK (imap spec_log_prob L)))
           (map sumR MK)
  = imap (fun r lm => spec_mean_log_prob_pos r (fst lm) (snd lm)) (zip L MK).
Proof.
  apply list_eq. intros r.
  repeat (rewrite lookup_zip_with || rewrite list_lookup_fmap
          || rewrite list_lookup_imap).
  destruct (MK !! r) as [mk|]; destruct (L !! r) as [l|]; simpl; done.
Qed.

Lemma map_texp_lift2 (M : list (list R)) :
  Forall (Forall (fun x => -80 <= x <= 0)) M ->
  map (map texp) (lift2 M) = lift2 (map (map exp) M).
Proof.
  intros HM. rewrite !map_map. apply map_ext_Forall.
  eapply Forall_impl; [exact HM|]. intros row Hrow. rewrite !map_map.
  apply map_ext_Forall. eapply Forall_impl; [exact Hrow|].
  intros x Hx. by apply texp_in_range.
Qed.

Lemma broadcast_col_shape (f : tval -> tval -> tval) (m : matrix) col :
  length col = length m ->
  map length (broadcast_col f m col) = map length m.
Proof.
  unfold broadcast_col. revert col.
  induction m as [|row m IH]; intros [|c col] Hlen; simplify_eq/=; [done|].
  by rewrite length_map, IH.
Qed.

Lemma tensor_mul_Ok (m1 m2 : matrix) :
  map length m1 = map length m2 ->
  tensor_mul m1 m2 = Ok (zip_with (zip_with tmul) m1 m2).
Proof. intros H. unfold tensor_mul. by rewrite same_shape_true. Qed.

Lemma map_const_replicate {A B} (l : list A) (c : B) :
  map (fun _ => c) l = replicate (length l) c.
Proof. induction l as [|x l IH]; simpl; [done|]. by rewrite IH. Qed.

Lemma spec_logits_shape T (AR CR : list (list R)) :
  map length (spec_logits T AR CR) = replicate (length AR) (length CR).
Proof.
  unfold spec_logits. rewrite map_map.
  rewrite (map_ext _ (fun _ => length CR)) by (intros; apply length_map).
  apply map_const_replicate.
Qed.

Lemma imap_shape {A} (f : nat -> list A -> list A) (M : list (list A)) :
  (forall r row, length (f r row) = length row) ->
  map length (imap f M) = map length M.
Proof.
  intros Hf. apply list_eq. intros r.
  rewrite !list_lookup_fmap, list_lookup_imap.
  destruct (M !! r) as [row|]; simpl; [|done]. by rewrite Hf.
Qed.

(** The loss on finite features and a finite mask, up to the division by
    the mask sums.  The matrix [LP] is [log_prob]; it is the matrix of the
    specification when no exponential underflows. *)
Lemma forward_loss_steps self B a V (AR CR MR : list (list R)) :
  temperature self <> 0 ->
  length AR = (a * B)%nat -> length CR = (V * B)%nat ->
  (0 < a <= V)%nat -> (0 < B)%nat -> (2 <= V * B)%nat ->
  map length MR = replicate B B ->
  let LP := log_prob_of (spec_logits (temperature self) AR CR) (tile a V MR) in
  map length LP = replicate (a * B)%nat (V * B)%nat /\
  (Forall (spread_within 64) (spec_logits (temperature self) AR CR) ->
   LP = lift2 (imap spec_log_prob (spec_logits (temperature self) AR CR))) /\
  forward_loss self B (lift2 AR) (lift2 CR) a V (lift2 MR)
  = (scale ← float_div (temperature self) (base_temperature self);
     let loss :=
       map (tmul (Fin (- scale)))
           (zip_with tdiv
              (map tsum (zip_with (zip_with tmul)
                           (lift2 (spec_mask a V MR)) LP))
              (lift (map sumR (spec_mask a V MR)))) in
     if decide (length loss = (a * B)%nat) then Ok (tmean loss)
     else Raise RuntimeError).
Proof.
  cbv zeta.
  intros HT HA HC Ha HB HN HM.
  set (L := spec_logits (temperature self) AR CR).
  set (MT := tile a V MR).
  assert (map length L = replicate (a * B)%nat (V * B)%nat) as HL.
  { unfold L. by rewrite spec_logits_shape, HA, HC. }
  assert (map length MT = replicate (a * B)%nat (V * B)%nat) as HMT
    by (by apply tile_shape).
  pose proof (shape_replicate_length _ _ _ HL) as HLlen.
  set (ms := map row_maxR L).
  assert (length ms = (a * B)%nat) as Hms by (unfold ms; by rewrite length_map).
  set (LG := zip_with (fun row c => map (fun x => x - c) row) L ms).
  set (LM := imap (fun r row => <[r := 0]> (map (fun _ => 1) row)) MT).
  assert (map length LG = replicate (a * B)%nat (V * B)%nat) as HLG.
  { unfold LG. rewrite shifted_shape by congruence. done. }
  assert (map length LM = replicate (a * B)%nat (V * B)%nat) as HLM.
  { unfold LM. by rewrite logits_mask_shape. }
  set (E := map (map texp) (lift2 LG)).
  assert (map length E = replicate (a * B)%nat (V * B)%nat) as HE.
  { unfold E. rewrite <- HLG, !map_map. apply map_ext. intros row.
    by rewrite !length_map. }
  set (EL := zip_with (zip_with tmul) E (lift2 LM)).
  set (LP := broadcast_col (fun x s => tsub x (tlog s)) (lift2 LG) (map tsum EL)).
  change (log_prob_of L MT) with LP.
  assert (map length LP = replicate (a * B)%nat (V * B)%nat) as HLP.
  { unfold LP. rewrite broadcast_col_shape, lift2_shape; [done|].
    unfold EL. rewrite !length_map, length_zip_with, !length_map.
    rewrite (shape_replicate_length _ _ _ HLG), <- (length_map length E), HE,
      length_replicate.
    rewrite (shape_replicate_length _ _ _ HLM). lia. }
  split; [done|]. split.
  { intros Hspread. unfold LP, EL, E, LG, LM, ms.
    rewrite map_texp_lift2 by (by apply shifted_in_range).
    rewrite (zip_with2_lift tmul Rmult) by done.
    rewrite map_tsum_lift.
    rewrite (broadcast_col_lift (fun x s => tsub x (tlog s))
               (fun x s => x - ln s) (fun s => 0 < s));
      [|by intros x c Hc; rewrite tlog_pos
       |by apply (exp_logits_sums_positive L MT (map row_maxR L)
                    (a * B)%nat (V * B)%nat)].
    by rewrite (log_prob_rows L MT (map row_maxR L) (a * B)%nat (V * B)%nat). }
  unfold forward_loss. rewrite logits_lift by done. fold L.
  rewrite max_dim1_lift.
  2:{ intros HLnil. rewrite HLnil in HL. simpl in HL.
      destruct (a * B)%nat eqn:Hab; [nia|done]. }
  2:{ apply Forall_lookup. intros r l Hl.
      destruct (shape_replicate_lookup _ _ _ _ _ HL Hl) as [Hlen _].
      intros ->. simpl in Hlen. lia. }
  cbn [mbind result_bind]. fold ms.
  rewrite (broadcast_col_lift tsub (fun x c => x - c) (fun _ => True));
    [|done|by apply Forall_true].
  fold LG. rewrite tile_lift. fold MT.
  rewrite (scatter_self_lift (B * a)%nat (V * B)%nat);
    [|by rewrite Nat.mul_comm|nia].
  cbn [mbind result_bind]. fold LM.
  rewrite tensor_mul_lift by (unfold LM; by rewrite logits_mask_shape).
  cbn [mbind result_bind].
  assert (zip_with (zip_with Rmult) MT LM = imap (fun r row => <[r := 0]> row) MT)
    as -> by apply masked_mask.
  fold E. rewrite (tensor_mul_Ok E) by (rewrite lift2_shape; congruence).
  cbn [mbind result_bind]. fold EL. fold LP.
  rewrite tensor_mul_Ok.
  2:{ rewrite lift2_shape, HLP, imap_shape; [done|]. intros. apply length_insert. }
  cbn [mbind result_bind]. rewrite map_tsum_lift. reflexivity.
Qed.

Lemma forward_loss_lifted self B a V (AR CR MR : list (list R)) :
  temperature self <> 0 ->
  length AR = (a * B)%nat -> length CR = (V * B)%nat ->
  (0 < a <= V)%nat -> (0 < B)%nat -> (2 <= V * B)%nat ->
  map length MR = replicate B B ->
  Forall (spread_within 64) (spec_logits (temperature self) AR CR) ->
  forward_loss self B (lift2 AR) (lift2 CR) a V (lift2 MR)
  = (scale ← float_div (temperature self) (base_temperature self);
     let loss :=
       map (tmul (Fin (- scale)))
           (zip_with tdiv
              (lift (map sumR
                 (zip_with (zip_with Rmult) (spec_mask a V MR)
                    (imap spec_log_prob (spec_logits (temperature self) AR CR)))))
              (lift (map sumR (spec_mask a V MR)))) in
     if decide (length loss = (a * B)%nat) then Ok (tmean loss)
     else Raise RuntimeError).
Proof.
  intros HT HA HC Ha HB HN HM Hspread.
  destruct (forward_loss_steps self B a V AR CR MR) as (_ & HLP & ->);
    try done.
  rewrite (HLP Hspread), (zip_with2_lift tmul Rmult) by done.
  by rewrite map_tsum_lift.
Qed.

(** The loss on finite features and a finite mask whose anchor rows have
    a non-zero sum: the value the specification gives. *)
Lemma forward_loss_finite self B a V (AR CR MR : list (list R)) :
  temperature self <> 0 -> base_temperature self <> 0 ->
  length AR = (a * B)%nat -> length CR = (V * B)%nat ->
  (0 < a <= V)%nat -> (0 < B)%nat -> (2 <= V * B)%nat ->
  map length MR = replicate B B ->
  Forall (spread_within 64) (spec_logits (temperature self) AR CR) ->
  Forall (fun row => sumR row <> 0) (spec_mask a V MR) ->
  forward_loss self B (lift2 AR) (lift2 CR) a V (lift2 MR)
  = Ok (Fin (spec_loss (temperature self) (base_temperature self)
                       (spec_logits (temperature self) AR CR)
                       (spec_mask a V MR))).
Proof.
  intros HT HbT HA HC Ha HB HN HM Hspread Hsum.
  rewrite forward_loss_lifted by done.
  set (L := spec_logits (temperature self) AR CR).
  assert (map length L = replicate (a * B)%nat (V * B)%nat) as HL.
  { unfold L. by rewrite spec_logits_shape, HA, HC. }
  assert (map length (tile a V MR) = replicate (a * B)%nat (V * B)%nat) as HMT
    by (by apply tile_shape).
  rewrite float_div_nonzero by done. cbn [mbind result_bind].
  rewrite zip_with_tdiv_lift by (by apply Forall_fmap).
  rewrite mean_log_prob_rows.
  rewrite (map_lift _ (Rmult (- (temperature self / base_temperature self))))
    by done.
  assert (length (zip L (spec_mask a V MR)) = (a * B)%nat) as Hzip.
  { unfold spec_mask. rewrite length_zip_with, length_imap.
    rewrite (shape_replicate_length _ _ _ HL), (shape_replicate_length _ _ _ HMT).
    lia. }
  rewrite decide_True by (by rewrite !length_map, length_imap, Hzip).
  rewrite tmean_lift.
  2:{ intros Hnil. apply (f_equal length) in Hnil.
      rewrite length_map, length_imap, Hzip in Hnil. simpl in Hnil. nia. }
  do 2 f_equal. unfold spec_loss. fold L.
  rewrite sumR_scale, length_map, length_imap, Hzip.
  rewrite (shape_replicate_length _ _ _ HL). unfold Rdiv. ring.
Qed.

(** *** The whole call on finite features *)

Lemma flattened_size0 {A} (f : tensor A) : size (flattened f) 0 = size f 0.
Proof. unfold flattened. by case_decide. Qed.

Lemma flattened_size1 {A} (f : tensor A) : size (flattened f) 1 = size f 1.
Proof. unfold flattened. by case_decide. Qed.

Lemma length_select_view {A} (f : tensor A) v :
  length (select_view f v) = size f 0.
Proof. unfold select_view. by rewrite length_map, length_seq. Qed.

Lemma length_concat_const {A} (ls : list (list A)) n :
  Forall (fun l => length l = n) ls -> length (concat ls) = (length ls * n)%nat.
Proof.
  induction 1 as [|l ls Hl _ IH]; simpl; [done|].
  by rewrite length_app, IH, Hl.
Qed.

Lemma length_spec_contrast (f : tensor R) :
  length (spec_contrast f) = (size f 1 * size f 0)%nat.
Proof.
  unfold spec_contrast, unbind1.
  rewrite (length_concat_const _ (size f 0)).
  - by rewrite length_map, length_seq.
  - apply Forall_forall. intros l Hl.
    apply list_elem_of_In, in_map_iff in Hl as (v & <- & _).
    apply length_select_view.
Qed.

Lemma length_spec_anchor mode (f : tensor R) :
  length (spec_anchor mode f) = (spec_anchor_count mode f * size f 0)%nat.
Proof.
  unfold spec_anchor, spec_anchor_count. case_decide.
  - rewrite length_select_view. lia.
  - apply length_spec_contrast.
Qed.

(** On finite features, with a valid mode and a derived mask of finite
    entries, the call is the loss computation on the anchor and contrast
    features of the specification. *)
Lemma forward_lifted self (f : tensor R) labels umask (MR : list (list R)) :
  flattens f ->
  contrast_mode self = "one"%string \/ contrast_mode self = "all"%string ->
  (0 < size f 1)%nat ->
  forward_mask self (size f 0) labels umask = Ok (lift2 MR) ->
  forward self (tensor_map Fin f) labels umask
  = forward_loss self (size f 0)
      (lift2 (spec_anchor (contrast_mode self) (flattened f)))
      (lift2 (spec_contrast (flattened f)))
      (spec_anchor_count (contrast_mode self) (flattened f)) (size f 1)
      (lift2 MR).
Proof.
  intros Hf Hmode HV Hmask.
  rewrite forward_flattens by exact Hf.
  change (size (tensor_map Fin f) 0) with (size f 0).
  rewrite Hmask. cbn [mbind result_bind].
  rewrite flattened_lift, unbind1_lift.
  change (size (tensor_map Fin (flattened f)) 1) with (size (flattened f) 1).
  rewrite flattened_size1.
  assert (cat0 (map lift2 (unbind1 (flattened f)))
          = Ok (lift2 (spec_contrast (flattened f)))) as ->.
  { unfold spec_contrast. rewrite concat_map. unfold unbind1.
    rewrite flattened_size1.
    destruct (size f 1) as [|V]; [lia|]. reflexivity. }
  cbn [mbind result_bind]. unfold forward_anchor, spec_anchor, spec_anchor_count.
  change (size (tensor_map Fin (flattened f)) 1) with (size (flattened f) 1).
  rewrite flattened_size1.
  destruct Hmode as [Hmode|Hmode]; rewrite Hmode.
  - rewrite !decide_True by done. rewrite decide_False by lia.
    cbn [mbind result_bind fst snd]. by rewrite select_view_lift.
  - rewrite !(decide_False (P:=("all" = "one")%string)) by done.
    rewrite decide_True by done. reflexivity.
Qed.

Lemma float_div_zero x : float_div x 0 = Raise ZeroDivisionError.
Proof. unfold float_div. by destruct (Req_dec_T 0 0). Qed.

(** The whole call up to the mean over the anchor rows, on finite inputs
    of the right shapes. *)
Lemma forward_lifted_rows self (f : tensor R) labels umask (MR : list (list R)) :
  flattens f ->
  contrast_mode self = "one"%string \/ contrast_mode self = "all"%string ->
  temperature self <> 0 ->
  (0 < size f 0)%nat -> (0 < size f 1)%nat -> (2 <= size f 1 * size f 0)%nat ->
  forward_mask self (size f 0) labels umask = Ok (lift2 MR) ->
  map length MR = replicate (size f 0) (size f 0) ->
  let a := spec_anchor_count (contrast_mode self) (flattened f) in
  let SM := spec_mask a (size f 1) MR in
  let L := spec_logits (temperature self)
             (spec_anchor (contrast_mode self) (flattened f))
             (spec_contrast (flattened f)) in
  let LP := log_prob_of L (tile a (size f 1) MR) in
  length SM = length L /\ length LP = length L /\
  forward self (tensor_map Fin f) labels umask
  = (scale ← float_div (temperature self) (base_temperature self);
     Ok (tmean (map (tmul (Fin (- scale)))
                    (zip_with tdiv
                       (map tsum (zip_with (zip_with tmul) (lift2 SM) LP))
                       (lift (map sumR SM)))))).
Proof.
  intros Hf Hmode HT HB HV HN Hmask HM a SM L LP.
  assert (length (spec_anchor (contrast_mode self) (flattened f))
          = (a * size f 0)%nat) as HA
    by (by rewrite length_spec_anchor, flattened_size0).
  assert (length (spec_contrast (flattened f)) = (size f 1 * size f 0)%nat)
    as HC by (by rewrite length_spec_contrast, flattened_size0, flattened_size1).
  assert (0 < a <= size f 1)%nat as Ha.
  { unfold a, spec_anchor_count. rewrite flattened_size1. case_decide; lia. }
  assert (length L = (a * size f 0)%nat) as HL.
  { unfold L, spec_logits. by rewrite length_map. }
  assert (length SM = (a * size f 0)%nat) as HS.
  { unfold SM, spec_mask. rewrite length_imap.
    apply (shape_replicate_length _ _ (size f 1 * size f 0)%nat).
    by apply tile_shape. }
  destruct (forward_loss_steps self (size f 0) a (size f 1)
              (spec_anchor (contrast_mode self) (flattened f))
              (spec_contrast (flattened f)) MR) as (HLP & _ & Hloss); try done.
  fold L in HLP, Hloss. fold LP in HLP, Hloss. fold SM in Hloss.
  pose proof (shape_replicate_length _ _ _ HLP) as HLPlen.
  split; [congruence|]. split; [congruence|].
  rewrite (forward_lifted self f labels umask MR) by done.
  fold a. rewrite Hloss.
  destruct (float_div _ _) as [scale|e]; [|done]. cbn [mbind result_bind].
  rewrite decide_True; [done|].
  rewrite !length_map, length_zip_with, !length_map, length_zip_with, !length_map.
  lia.
Qed.

Lemma sumR_zero (l : list R) : Forall (fun x => x = 0) l -> sumR l = 0.
Proof. induction 1 as [|x l -> _ IH]; simpl; [done|]. rewrite IH. lra. Qed.

Lemma tmean_nan (l : list tval) :
  l <> [] -> Forall (fun v => v = NaN) l -> tmean l = NaN.
Proof. intros Hne Hl. destruct Hl as [|v l -> _]; [done|]. reflexivity. Qed.

(** A row of the mask without weight: whatever the log-probabilities, the
    weighted sum is zero or [nan], and its quotient by the zero sum of the
    row is [nan]. *)
Lemma zero_row_tsum (mrow : list R) (lp : list tval) :
  Forall (fun m => m = 0) mrow ->
  tsum (zip_with tmul (lift mrow) lp) = NaN \/
  exists x, x = 0 /\ tsum (zip_with tmul (lift mrow) lp) = Fin x.
Proof.
  intros Hm. revert lp.
  induction Hm as [|m mrow -> _ IH]; intros [|v lp];
    try (right; by exists 0).
  change (tsum (zip_with tmul (lift (0 :: mrow)) (v :: lp)))
    with (tadd (tmul (Fin 0) v) (tsum (zip_with tmul (lift mrow) lp))).
  destruct (IH lp) as [->|(x & -> & ->)].
  - left. by destruct (tmul (Fin 0) v).
  - destruct v as [y| | |]; simpl.
    + right. exists (0 * y + 0). split; [lra|done].
    + left. by rewrite inf_times_zero.
    + left. by rewrite inf_times_zero.
    + by left.
Qed.

Lemma zero_row_nan (mrow : list R) (lp : list tval) :
  Forall (fun m => m = 0) mrow ->
  tdiv (tsum (zip_with tmul (lift mrow) lp)) (Fin (sumR mrow)) = NaN.
Proof.
  intros Hm. rewrite (sumR_zero mrow Hm).
  destruct (zero_row_tsum mrow lp Hm) as [->|(x & Hx & ->)]; [done|].
  by apply tdiv_zero_zero.
Qed.

(** When no row of the mask has weight, every row mean is [nan], and so is
    the loss. *)
Lemma zero_rows_nan c (SM : list (list R)) (LP : matrix) :
  length LP = length SM -> SM <> [] ->
  Forall (Forall (fun m => m = 0)) SM ->
  tmean (map (tmul (Fin c))
           (zip_with tdiv (map tsum (zip_with (zip_with tmul) (lift2 SM) LP))
              (lift (map sumR SM)))) = NaN.
Proof.
  intros Hlen Hne Hzero. apply tmean_nan.
  - destruct SM as [|row SM]; [done|]. by destruct LP.
  - clear Hne. revert LP Hlen.
    induction Hzero as [|row SM Hrow _ IH]; intros [|lp LP] Hlen; simplify_eq/=;
      constructor; [|by apply IH].
    by rewrite zero_row_nan.
Qed.

(** C5 (as amended).  For a valid call -- features of finite entries that
    get past the rank test, a valid mode, non-zero temperatures, at least
    two contrast columns, and a derived [B x B] mask of finite entries
    whose tiled, self-zeroed rows have non-zero sums -- that float32
    evaluates without overflow and without underflow, the scalar returned
    is [-(temperature / base_temperature)] times the mean over the anchor
    rows of [sum(mask * log_prob) / sum(mask)], where [log_prob] is the
    logit minus the logarithm of the sum of the exponentiated logits over
    the non-self columns and the logits are the anchor-contrast dot
    products divided by the temperature. *)
Theorem forward_returns_spec_loss self (f : tensor R) labels umask
    (MR : list (list R)) :
  flattens f ->
  contrast_mode self = "one"%string \/ contrast_mode self = "all"%string ->
  temperature self <> 0 -> base_temperature self <> 0 ->
  (0 < size f 0)%nat -> (0 < size f 1)%nat -> (2 <= size f 1 * size f 0)%nat ->
  forward_mask self (size f 0) labels umask = Ok (lift2 MR) ->
  map length MR = replicate (size f 0) (size f 0) ->
  Forall (fun row => sumR row <> 0)
         (spec_mask (spec_anchor_count (contrast_mode self) (flattened f))
                    (size f 1) MR) ->
  float32_regime self f MR ->
  forward self (tensor_map Fin f) labels umask
  = Ok (Fin (spec_loss (temperature self) (base_temperature self)
               (spec_logits (temperature self)
                  (spec_anchor (contrast_mode self) (flattened f))
                  (spec_contrast (flattened f)))
               (spec_mask (spec_anchor_count (contrast_mode self) (flattened f))
                          (size f 1) MR))).
Proof.
  intros Hf Hmode HT HbT HB HV HN Hmask HM Hsum [(_ & _ & _ & _ & Hspread) _].
  rewrite (forward_lifted self f labels umask MR) by done.
  apply forward_loss_finite; try done.
  - by rewrite length_spec_anchor, flattened_size0.
  - by rewrite length_spec_contrast, flattened_size0, flattened_size1.
  - unfold spec_anchor_count. rewrite flattened_size1. case_decide; lia.
Qed.

(** The logits of concrete features, row by row, lie within the bound of
    each other. *)
Ltac spread_rows :=
  unfold spec_logits, spec_anchor, spec_contrast, unbind1, select_view,
    feature_vec, flattened; simpl;
  repeat (apply Forall_cons_2;
    [let Hx := fresh "Hx" in let Hy := fresh "Hy" in
     intros ? ? Hx Hy; rewrite !elem_of_cons, elem_of_nil in Hx, Hy;
     unfold dotR, sumR in Hx, Hy; simpl in Hx, Hy;
     decompose [or] Hx; decompose [or] Hy; subst; try done; lra|]);
  apply Forall_nil_2.

(** One sample with two equal views, at temperature 0.07, is within the
    range of float32. *)
Lemma two_view_features_regime : float32_regime plain_loss two_view_features [[1]].
Proof.
  split; [split; [|split; [|split; [|split]]]|].
  - simpl. rewrite Rabs_pos_eq by lra. lra.
  - simpl. rewrite Rabs_pos_eq by lra. lra.
  - repeat constructor; simpl; rewrite Rabs_pos_eq by lra; lra.
  - simpl. lia.
  - spread_rows.
  - apply Forall_cons_2; [|apply Forall_nil_2].
    apply Forall_cons_2; [|apply Forall_nil_2]. right. lra.
Qed.

Lemma forward_returns_spec_loss_witness :
  forward plain_loss (tensor_map Fin two_view_features) None None
  = Ok (Fin (spec_loss (temperature plain_loss) (base_temperature plain_loss)
               (spec_logits (temperature plain_loss)
                  (spec_anchor (contrast_mode plain_loss)
                               (flattened two_view_features))
                  (spec_contrast (flattened two_view_features)))
               (spec_mask (spec_anchor_count (contrast_mode plain_loss)
                                             (flattened two_view_features))
                          (size two_view_features 1) [[1]]))).
Proof.
  apply (forward_returns_spec_loss plain_loss two_view_features None None [[1]]).
  - left. reflexivity.
  - right. reflexivity.
  - simpl. lra.
  - simpl. lra.
  - unfold size. simpl. lia.
  - unfold size. simpl. lia.
  - unfold size. simpl. lia.
  - reflexivity.
  - reflexivity.
  - repeat constructor; cbn; lra.
  - apply two_view_features_regime.
Defined.

Lemma tlog_zero x : x = 0 -> tlog (Fin x) = NInf.
Proof.
  intros ->. unfold tlog. destruct (total_order_T 0 0) as [[|]|]; [lra|done|lra].
Qed.

(** C5 (the claim as stated fails).  One sample with the two views [3] and
    [0.5], no labels and no mask, at temperature 0.07: the call is valid,
    the mask is [[1]] and each of its two tiled, self-zeroed rows keeps the
    weight 1.  The logits of the anchor [3] are [9 / 0.07] and
    [1.5 / 0.07]; the second minus the row maximum is [-750/7], whose
    exponential underflows to zero in float32.  It is the only non-self
    column of the row, so the sum of the exponentials is zero, its
    logarithm is [-inf], [log_prob] is [+inf] on the row, the zero mask
    entry of the self column times [+inf] is [nan], and the loss is
    [nan]. *)
Lemma forward_underflow_nan :
  flattens underflow_features /\
  forward_mask plain_loss (size underflow_features 0) None None
  = Ok (lift2 [[1]]) /\
  Forall (fun row => sumR row <> 0)
         (spec_mask (spec_anchor_count (contrast_mode plain_loss)
                                       (flattened underflow_features))
                    (size underflow_features 1) [[1]]) /\
  forward plain_loss (tensor_map Fin underflow_features) None None = Ok NaN.
Proof.
  split; [by left|]. split; [reflexivity|].
  split; [repeat constructor; cbn; lra|].
  destruct (forward_lifted_rows plain_loss underflow_features None None [[1]])
    as (_ & _ & ->);
    [by left|by right|simpl; lra|unfold size; simpl; lia..|reflexivity|reflexivity|].
  rewrite float_div_nonzero by (simpl; lra). cbn [mbind result_bind].
  unfold log_prob_of, spec_logits, spec_anchor, spec_contrast, unbind1, select_view,
    feature_vec, flattened, spec_mask, spec_anchor_count, tile, broadcast_col,
    dotR, sumR.
  with_strategy opaque [tadd tmul tsub tneg] simpl.
  match goal with |- Ok (tmean [_; ?r1]) = _ => generalize r1; intros v1 end.
  set (m := Rmax ((3 * 3 + 0) / 0.07) ((3 * 0.5 + 0) / 0.07)).
  assert (m = (3 * 3 + 0) / 0.07) as Hm by (unfold m; apply Rmax_left; lra).
  rewrite (texp_in_range ((3 * 3 + 0) / 0.07 - m)) by (rewrite Hm; lra).
  rewrite (texp_underflow ((3 * 0.5 + 0) / 0.07 - m)) by (rewrite Hm; lra).
  cbn [tadd tmul].
  rewrite tlog_zero by lra.
  cbn [tsub tneg tadd tmul].
  rewrite inf_times_zero by done.
  reflexivity.
Qed.

(** C6 as stated fails: two samples with one view each, no labels and no
    mask.  The mask is the identity, zeroing the self-comparisons leaves
    every anchor row of it empty, and [0 / 0] makes the loss [nan]. *)
Lemma forward_returns_nan :
  forward plain_loss (tensor_map Fin one_view_features) None None = Ok NaN.
Proof.
  destruct (forward_lifted_rows plain_loss one_view_features None None
              [[1; 0]; [0; 1]]) as (_ & HLP & ->);
    [by left|by right|simpl; lra|unfold size; simpl; lia..|reflexivity|reflexivity|].
  rewrite float_div_nonzero by (simpl; lra). cbn [mbind result_bind].
  f_equal. apply zero_rows_nan.
  - rewrite HLP. reflexivity.
  - done.
  - repeat (apply Forall_cons_2 || apply Forall_nil_2 || reflexivity).
Qed.

Lemma cat0_contrast (f : tensor R) :
  (0 < size f 1)%nat ->
  cat0 (unbind1 (flattened (tensor_map Fin f)))
  = Ok (lift2 (spec_contrast (flattened f))).
Proof.
  intros HV. rewrite flattened_lift, unbind1_lift.
  unfold spec_contrast. rewrite concat_map. unfold unbind1.
  rewrite flattened_size1.
  destruct (size f 1) as [|V]; [lia|]. reflexivity.
Qed.

(** C6 (amended).  On features of finite entries, with a non-zero
    temperature and at least two contrast columns, a call whose derived
    mask -- when it derives one -- is a [B x B] matrix of finite entries
    whose tiled, self-zeroed anchor rows all have a non-zero sum, and that
    float32 evaluates without overflow and without underflow, either
    raises or returns a finite scalar: neither [nan] nor an infinity. *)
Theorem forward_finite_or_raises self (f : tensor R) labels umask :
  temperature self <> 0 ->
  (2 <= size f 1 * size f 0)%nat ->
  (forall M, forward_mask self (size f 0) labels umask = Ok M ->
     exists MR, M = lift2 MR /\
       map length MR = replicate (size f 0) (size f 0) /\
       Forall (fun row => sumR row <> 0)
              (spec_mask (spec_anchor_count (contrast_mode self) (flattened f))
                         (size f 1) MR) /\
       float32_regime self f MR) ->
  (exists e, forward self (tensor_map Fin f) labels umask = Raise e) \/
  (exists x, forward self (tensor_map Fin f) labels umask = Ok (Fin x)).
Proof.
  intros HT HN Hmask.
  destruct (decide (rank f < 3)%nat) as [Hr|Hr].
  { left. exists (ValueError FeaturesRank). unfold forward.
    change (rank (tensor_map Fin f)) with (rank f). by rewrite decide_True. }
  assert (flattens f) as Hf.
  { unfold flattens. destruct (decide (rank f = 3%nat)); [by left|right].
    split; [lia|nia]. }
  destruct (forward_mask self (size f 0) labels umask) as [M|e] eqn:HM.
  2:{ left. exists e. rewrite forward_flattens by exact Hf.
      change (size (tensor_map Fin f) 0) with (size f 0). by rewrite HM. }
  destruct (Hmask M eq_refl)
    as (MR & -> & HMR & Hsum & [(_ & HbT' & _ & _ & Hspread) _]).
  destruct (decide (contrast_mode self = "one"%string
                    \/ contrast_mode self = "all"%string)) as [Hmode|Hmode].
  - rewrite (forward_lifted self f labels umask MR) by (done || nia).
    assert (length (spec_anchor (contrast_mode self) (flattened f))
            = (spec_anchor_count (contrast_mode self) (flattened f) * size f 0)%nat)
      as HA by (by rewrite length_spec_anchor, flattened_size0).
    assert (length (spec_contrast (flattened f)) = (size f 1 * size f 0)%nat)
      as HC by (by rewrite length_spec_contrast, flattened_size0, flattened_size1).
    assert (0 < spec_anchor_count (contrast_mode self) (flattened f)
            <= size f 1)%nat as Ha.
    { unfold spec_anchor_count. rewrite flattened_size1. case_decide; nia. }
    assert (base_temperature self <> 0) as HbT.
    { intros HbT. rewrite HbT, Rabs_R0 in HbT'. lra. }
    right. eexists. apply forward_loss_finite; try done; nia.
  - left. exists (ValueError UnknownMode).
    rewrite forward_flattens by exact Hf.
    change (size (tensor_map Fin f) 0) with (size f 0). rewrite HM.
    cbn [mbind result_bind]. rewrite cat0_contrast by nia.
    cbn [mbind result_bind]. unfold forward_anchor.
    rewrite !decide_False by tauto. reflexivity.
Qed.

Lemma forward_finite_or_raises_witness :
  (exists e, forward plain_loss (tensor_map Fin two_view_features) None None
             = Raise e) \/
  (exists x, forward plain_loss (tensor_map Fin two_view_features) None None
             = Ok (Fin x)).
Proof.
  apply (forward_finite_or_raises plain_loss two_view_features None None).
  - simpl. lra.
  - unfold size. simpl. lia.
  - intros M HM. exists [[1]]. split; [|split; [|split]].
    + vm_compute in HM. injection HM as <-. reflexivity.
    + reflexivity.
    + repeat constructor; cbn; lra.
    + apply two_view_features_regime.
Defined.

(** *** When the anchor rows of the mask keep some weight *)

Lemma sumR_insert_zero_nonneg (l : list R) r :
  Forall (fun x => 0 <= x) l -> 0 <= sumR (<[r := 0]> l).
Proof.
  intros Hl. apply sumR_nonneg.
  destruct (decide (r < length l)%nat) as [Hr|Hr].
  - apply Forall_insert; [done|lra].
  - by rewrite list_insert_ge by lia.
Qed.

Lemma sumR_two_copies (row rest : list R) r :
  Forall (fun x => 0 <= x) row -> Forall (fun x => 0 <= x) rest ->
  0 < sumR row ->
  0 < sumR (<[r := 0]> (row ++ (row ++ rest))).
Proof.
  intros Hrow Hrest Hpos.
  pose proof (sumR_nonneg rest Hrest).
  destruct (decide (r < length row)%nat) as [Hr|Hr].
  - rewrite insert_app_l by done. rewrite !sumR_app.
    pose proof (sumR_insert_zero_nonneg row r Hrow). lra.
  - rewrite insert_app_r_alt by lia. rewrite sumR_app.
    assert (0 <= sumR (<[(r - length row)%nat := 0]> (row ++ rest))).
    { apply sumR_insert_zero_nonneg. by apply Forall_app. }
    lra.
Qed.

(** With at least two views, a mask of non-negative entries whose rows
    have a positive sum (a positive diagonal is enough) keeps a non-zero
    sum in every anchor row once the self-comparison is zeroed: each
    sample still has its other view. *)
Lemma spec_mask_rows_nonzero a V (MR : list (list R)) :
  (2 <= V)%nat ->
  Forall (Forall (fun x => 0 <= x)) MR ->
  Forall (fun row => 0 < sumR row) MR ->
  Forall (fun row => sumR row <> 0) (spec_mask a V MR).
Proof.
  intros HV Hnn Hpos. unfold spec_mask. apply Forall_lookup. intros r row' Hr.
  rewrite list_lookup_imap in Hr.
  destruct (tile a V MR !! r) as [t|] eqn:Ht; simplify_eq/=.
  apply list_elem_of_lookup_2 in Ht. unfold tile in Ht.
  apply list_elem_of_In, in_concat in Ht as (blk & Hblk & Hin).
  apply list_elem_of_In, elem_of_replicate in Hblk as [-> _].
  apply in_map_iff in Hin as (row & <- & Hrow).
  apply list_elem_of_In in Hrow.
  rewrite Forall_forall in Hnn, Hpos.
  specialize (Hnn _ Hrow). specialize (Hpos _ Hrow).
  destruct V as [|[|V]]; [lia..|]. simpl.
  enough (0 < sumR (<[r := 0]> (row ++ (row ++ concat (replicate V row))))) by lra.
  apply sumR_two_copies; [done| |done].
  clear -Hnn. induction V as [|V IH]; simpl; [done|]. by apply Forall_app.
Qed.

(** ** The order of the dictionary keys does not matter *)

Lemma ascii_compare_N a b :
  Ascii.compare a b = N.compare (N_of_ascii a) (N_of_ascii b).
Proof. reflexivity. Qed.

Lemma string_compare_trans a b c :
  String.compare a b <> Gt -> String.compare b c <> Gt ->
  String.compare a c <> Gt.
Proof.
  revert b c. induction a as [|x a IH]; intros [|y b] [|z c]; simpl; try done.
  rewrite !ascii_compare_N.
  destruct (N.compare_spec (N_of_ascii x) (N_of_ascii y)) as [Hxy|Hxy|Hxy];
    destruct (N.compare_spec (N_of_ascii y) (N_of_ascii z)) as [Hyz|Hyz|Hyz];
    destruct (N.compare_spec (N_of_ascii x) (N_of_ascii z)) as [Hxz|Hxz|Hxz];
    try done; try lia.
  apply IH.
Qed.

Lemma string_leb_compare a b : String.leb a b = true <-> String.compare a b <> Gt.
Proof. unfold String.leb. by destruct (String.compare a b). Qed.

#[global] Instance string_le_trans : Transitive string_le.
Proof.
  intros a b c. unfold string_le. rewrite !string_leb_compare.
  apply string_compare_trans.
Qed.

#[global] Instance string_le_total : Total string_le.
Proof. intros a b. apply String.leb_total. Qed.

#[global] Instance string_le_antisym : AntiSymm eq string_le.
Proof. intros a b. apply String.leb_antisym. Qed.

Lemma sorted_Sorted l : Sorted string_le (sorted l).
Proof. apply Sorted_merge_sort, _. Qed.

(** Two lists with the same elements sort to the same list. *)
Lemma sorted_permutation_eq l1 l2 : l1 ≡ₚ l2 -> sorted l1 = sorted l2.
Proof.
  intros Hp. apply (Sorted_unique string_le); [apply sorted_Sorted..|].
  by rewrite !sorted_Permutation.
Qed.

Lemma insertion_keys_spec l :
  NoDup (insertion_keys l) /\ forall a, a ∈ insertion_keys l <-> a ∈ l.
Proof.
  unfold insertion_keys.
  enough (forall ks, NoDup ks ->
            NoDup (foldl (fun ks a => if decide (a ∈ ks) then ks else ks ++ [a]) ks l) /\
            forall a, a ∈ foldl (fun ks a => if decide (a ∈ ks) then ks else ks ++ [a]) ks l
                      <-> a ∈ ks \/ a ∈ l) as H.
  { destruct (H [] (NoDup_nil_2)) as [Hnd Hin]. split; [done|].
    intros a. rewrite Hin. set_solver. }
  induction l as [|x l IH]; intros ks Hks; simpl.
  { split; [done|]. set_solver. }
  case_decide as Hx.
  - destruct (IH ks Hks) as [Hnd Hin]. split; [done|].
    intros a. rewrite Hin. set_solver.
  - destruct (IH (ks ++ [x])) as [Hnd Hin].
    { apply NoDup_app. split; [done|]. split; [set_solver|].
      apply NoDup_singleton. }
    split; [done|]. intros a. rewrite Hin. set_solver.
Qed.

(** The tips are the labels of the leaves, each once, sorted: the same list
    as Python builds from the dict's keys in insertion order. *)
Lemma tips_insertion_order t :
  sorted (dict_keys (tip_depths_of t)) = sorted (insertion_keys (leaf_labels t)).
Proof.
  apply sorted_permutation_eq.
  destruct (insertion_keys_spec (leaf_labels t)) as [Hnd Hin].
  apply NoDup_Permutation; [apply NoDup_dict_keys|done|].
  intros a. rewrite Hin, elem_of_dict_keys. split.
  - intros H. apply foldl_insert_dom in H as [H|[v H]]; [done|].
    by rewrite lookup_empty in H.
  - intros H. apply foldl_insert_dom_2. by left.
Qed.

(* ===================================================================== *)
(** * Further properties of the constructor *)

(** X1.  Whatever the tree, the tip list the constructor stores is sorted
    by label, holds no label twice, and holds exactly the labels of the
    leaves of the tree. *)
Theorem tips_sorted_distinct_labels T mode bT t self :
  SupConLoss_init T mode bT (Some t) = Ok self ->
  Sorted string_le (tips self) /\ NoDup (tips self) /\
  forall a, a ∈ tips self <-> a ∈ leaf_labels t.
Proof.
  intros H. apply SupConLoss_init_Ok in H as (H & _).
  apply build_bm_corr_Ok in H as [-> _].
  split; [apply sorted_Sorted|]. split; [apply NoDup_tips|].
  apply elem_of_tips_iff.
Qed.

Lemma tips_sorted_distinct_labels_witness :
  Sorted string_le (tips example_loss) /\ NoDup (tips example_loss) /\
  forall a, a ∈ tips example_loss <-> a ∈ leaf_labels example_tree.
Proof.
  apply (tips_sorted_distinct_labels 0.07 "all" 0.07), example_loss_init.
Defined.

(** X2.  On a valid tree the constructor returns exactly when the divisor
    of no pair is zero: for no two distinct tips whose most recent common
    ancestor is not the root is the float square root of the float product
    of the two tip depths zero.  The product of two positive depths can be
    zero: it underflows when it lies below the least positive float. *)
Theorem construction_succeeds_iff T mode bT t :
  valid_tree t ->
  (exists self, SupConLoss_init T mode bT (Some t) = Ok self) <->
  (forall pa a pb b,
     (pa, a) ∈ leaf_node_iter t -> (pb, b) ∈ leaf_node_iter t -> a <> b ->
     common_prefix pa pb <> seed_node t ->
     SFeqb (f64_sqrt (f64_mul (distance_from_root t pa) (distance_from_root t pb)))
           f64_zero = false).
Proof.
  intros Hv. split.
  - intros [self Hself] pa a pb b Hpa Hpb Hab Hcp.
    apply SupConLoss_init_Ok in Hself as (Hself & _).
    destruct (SFeqb _ _) eqn:Hz; [|done].
    rewrite (build_bm_corr_zero_depth t pa a pb b) in Hself; done.
  - intros Hpairs.
    destruct (build_bm_corr_runs_pairs t Hv Hpairs) as (tp & m & H).
    rewrite SupConLoss_init_build by apply Hv. rewrite H. simpl. eauto.
Qed.

Lemma construction_succeeds_iff_witness :
  (exists self, SupConLoss_init 0.07 "all" 0.07 (Some example_tree) = Ok self) <->
  (forall pa a pb b,
     (pa, a) ∈ leaf_node_iter example_tree ->
     (pb, b) ∈ leaf_node_iter example_tree -> a <> b ->
     common_prefix pa pb <> seed_node example_tree ->
     SFeqb (f64_sqrt (f64_mul (distance_from_root example_tree pa)
                              (distance_from_root example_tree pb)))
           f64_zero = false).
Proof.
  apply (construction_succeeds_iff 0.07 "all" 0.07 example_tree),
    example_tree_valid.
Defined.

(** X3.  On a valid tree the only exception the constructor can raise is
    the [ZeroDivisionError] of the division by the square root of the
    product of two tip depths. *)
Theorem valid_tree_fails_by_zero_division T mode bT t e :
  valid_tree t ->
  SupConLoss_init T mode bT (Some t) = Raise e -> e = ZeroDivisionError.
Proof.
  intros Hv H. apply SupConLoss_init_Raise in H; [|apply Hv].
  by eapply build_bm_corr_valid_Raise.
Qed.

Lemma valid_tree_fails_by_zero_division_witness :
  ZeroDivisionError = ZeroDivisionError.
Proof.
  apply (valid_tree_fails_by_zero_division 0.07 "all" 0.07 zero_depth_tree).
  - apply zero_depth_tree_valid.
  - apply zero_depth_tree_init.
Defined.

(** X4.  Whatever the tree, and also without one, the constructor never
    raises from the duplicate-label branch of its loop: neither the
    [NameError] of the message nor the [ValueError] it is meant to carry. *)
Theorem duplicate_error_never_raised T mode bT tree_path :
  SupConLoss_init T mode bT tree_path <> Raise NameError /\
  SupConLoss_init T mode bT tree_path
  <> Raise (ValueError DuplicateTipLabels).
Proof.
  destruct tree_path as [t|]; [|by split].
  destruct (duplicate_check_unreachable t) as [H1 H2].
  destruct (decide (NoDup (leaf_labels t))) as [Hnd|Hdup].
  - split; intros H; apply SupConLoss_init_Raise in H; done.
  - unfold SupConLoss_init, Tree_get. rewrite decide_False by done.
    by split.
Qed.

(* ===================================================================== *)
(** * Further properties of the mask derivation *)

(** [forward] reads [labels] and [mask] through the derived mask only. *)
Lemma forward_mask_congr self (f : tensor tval) l1 m1 l2 m2 :
  forward_mask self (size f 0) l1 m1 = forward_mask self (size f 0) l2 m2 ->
  forward self f l1 m1 = forward self f l2 m2.
Proof.
  intros Heq. unfold forward. case_decide as Hr; [done|].
  case_decide as Hr3; simpl; [|by rewrite Heq].
  destruct (view3 f) as [f'|e] eqn:Hv; simpl; [|done].
  by rewrite (view3_size0 _ _ Hv), Heq.
Qed.

(** An exception of the mask derivation is the exception of [forward] once
    the features are past the rank test and the flattening. *)
Lemma forward_mask_Raise self (f : tensor tval) labels mask e :
  flattens f ->
  forward_mask self (size f 0) labels mask = Raise e ->
  forward self f labels mask = Raise e.
Proof. intros Hf H. by rewrite forward_flattens, H. Qed.

Lemma wrap_index_Ok n k a :
  wrap_index n k = Ok a ->
  (- Z.of_nat n <= k < Z.of_nat n)%Z /\ (a < n)%nat.
Proof.
  unfold wrap_index. repeat case_decide; intros; simplify_eq; lia.
Qed.

Lemma pair_mask_invalid self labels n i j :
  square n (bm_corr self) ->
  (forall k, labels !! i = Some k -> ~ (- Z.of_nat n <= k < Z.of_nat n)%Z) \/
  (forall k, labels !! j = Some k -> ~ (- Z.of_nat n <= k < Z.of_nat n)%Z) ->
  exists e, pair_mask self labels i j = Raise e.
Proof.
  intros Hsq Hbad. unfold pair_mask, list_get at 1 2.
  destruct (labels !! i) as [ki|]; simpl; [|eauto].
  destruct (labels !! j) as [kj|]; simpl; [|eauto].
  unfold tensor_index. rewrite (square_length n) by done.
  destruct (wrap_index n ki) as [a|e] eqn:Ha; simpl; [|eauto].
  apply wrap_index_Ok in Ha as [Hki Ha].
  destruct Hbad as [Hbad|Hbad]; [by destruct (Hbad ki)|].
  destruct (square_row n _ a Hsq Ha) as (row & Hrow & Hlen).
  apply list_get_Ok in Hrow. rewrite Hrow. simpl. rewrite Hlen.
  destruct (wrap_index n kj) as [b|e] eqn:Hb; simpl; [|eauto].
  apply wrap_index_Ok in Hb as [Hkj _]. by destruct (Hbad kj).
Qed.

(** With a tree, a pair of samples whose correlation cannot be read stops
    the derivation with an [IndexError]. *)
Lemma forward_mask_tree_IndexError self t B labels i j :
  tree_path self = Some t -> (i < j < B)%nat ->
  (exists e, pair_mask self labels i j = Raise e) ->
  forward_mask self B (Some labels) None = Raise IndexError.
Proof.
  intros Ht Hij [e He]. rewrite (forward_mask_tree self t) by done.
  destruct (for_each _ _ _) as [m|e'] eqn:Hloop.
  - destruct (fill_loop_pair (pair_mask self labels)
                (combinations_with_replacement_2 B) (eye B) m i j)
      as (v & Hv & _); try done; try lia.
    + intros i' j'. apply combinations_upper.
    + apply elem_of_combinations. lia.
    + congruence.
  - f_equal. apply for_each_Raise in Hloop as (m & ij & _ & Hb).
    rewrite <- mask_body_fill in Hb. by eapply mask_body_Raise.
Qed.

(** X6.  With a tree, the labels are indices into the correlation matrix
    and are not validated: in a batch of at least two samples, a sample
    without a label, or with one outside [[-n, n)] for the [n] tips, makes
    [forward] raise [IndexError]. *)
Theorem forward_tree_invalid_label self t (f : tensor tval) labels n i :
  tree_path self = Some t -> square n (bm_corr self) -> flattens f ->
  (2 <= size f 0)%nat -> (i < size f 0)%nat ->
  (forall k, labels !! i = Some k -> ~ (- Z.of_nat n <= k < Z.of_nat n)%Z) ->
  forward self f (Some labels) None = Raise IndexError.
Proof.
  intros Ht Hsq Hf HB Hi Hbad. apply forward_mask_Raise; [done|].
  destruct (decide (i = 0)%nat) as [->|Hi0].
  - apply (forward_mask_tree_IndexError self t _ _ 0 1); [done|lia|].
    apply (pair_mask_invalid _ _ n); [done|by left].
  - apply (forward_mask_tree_IndexError self t _ _ 0 i); [done|lia|].
    apply (pair_mask_invalid _ _ n); [done|by right].
Qed.

Lemma example_loss_square : square 3 (bm_corr example_loss).
Proof. reflexivity. Qed.

Lemma two_sample_features_flattens : flattens two_sample_features.
Proof. by left. Qed.

Lemma forward_tree_invalid_label_witness :
  forward example_loss two_sample_features (Some [0; 5]%Z) None = Raise IndexError.
Proof.
  apply (forward_tree_invalid_label example_loss example_tree
           two_sample_features [0; 5]%Z 3 1).
  - reflexivity.
  - apply example_loss_square.
  - apply two_sample_features_flattens.
  - unfold size. simpl. lia.
  - unfold size. simpl. lia.
  - intros k Hk. simpl in Hk. injection Hk as <-. lia.
Defined.

Lemma wrap_index_normal n k : wrap_index n (normal_index n k) = wrap_index n k.
Proof.
  unfold wrap_index, normal_index.
  repeat case_decide; try done; try lia; f_equal; lia.
Qed.

Lemma tensor_index_normal n m k1 k2 :
  square n m ->
  tensor_index m (normal_index n k1) (normal_index n k2) = tensor_index m k1 k2.
Proof.
  intros Hsq. unfold tensor_index. rewrite (square_length n) by done.
  rewrite wrap_index_normal.
  destruct (wrap_index n k1) as [a|e] eqn:Ha; simpl; [|done].
  destruct (list_get m a) as [row|e] eqn:Hrow; simpl; [|done].
  apply list_get_Ok in Hrow.
  destruct (shape_replicate_lookup m n n a row Hsq Hrow) as [-> _].
  by rewrite wrap_index_normal.
Qed.

Lemma list_get_map {A B} (g : A -> B) (l : list A) i :
  list_get (map g l) i = x ← list_get l i; Ok (g x).
Proof.
  unfold list_get. change (map g l) with (g <$> l). rewrite list_lookup_fmap.
  by destruct (l !! i).
Qed.

(** X7.  With a tree, a label in [[-n, 0)] denotes the tip [n] places
    further on, as negative indices into a tensor do: replacing every such
    label by that tip's index changes nothing of what [forward] does. *)
Theorem forward_tree_negative_labels self t (f : tensor tval) labels n :
  tree_path self = Some t -> square n (bm_corr self) ->
  forward self f (Some (map (normal_index n) labels)) None
  = forward self f (Some labels) None.
Proof.
  intros Ht Hsq. apply forward_mask_congr.
  rewrite !(forward_mask_tree self t) by done.
  apply for_each_ext. intros m ij. unfold fill_body.
  case_decide; [done|]. f_equal. unfold pair_mask.
  rewrite !list_get_map.
  destruct (list_get labels ij.1) as [k1|]; simpl; [|done].
  destruct (list_get labels ij.2) as [k2|]; simpl; [|done].
  by apply tensor_index_normal.
Qed.

Lemma forward_tree_negative_labels_witness :
  forward example_loss two_sample_features
          (Some (map (normal_index 3) [-1; 0]%Z)) None
  = forward example_loss two_sample_features (Some [-1; 0]%Z) None.
Proof.
  apply (forward_tree_negative_labels example_loss example_tree
           two_sample_features [-1; 0]%Z 3).
  - reflexivity.
  - apply example_loss_square.
Defined.

(** X8.  With a tree and a batch of at most one sample the loop over the
    pairs of samples reads no label: whatever [labels] holds, [forward]
    does what it does without labels. *)
Theorem forward_tree_single_sample self t (f : tensor tval) labels :
  tree_path self = Some t -> (size f 0 <= 1)%nat ->
  forward self f (Some labels) None = forward self f None None.
Proof.
  intros Ht HB. apply forward_mask_congr.
  unfold forward_mask. rewrite Ht.
  destruct (size f 0) as [|[|B]]; [done|done|lia].
Qed.

Lemma forward_tree_single_sample_witness :
  forward example_loss unit_features (Some [7%Z]) None
  = forward example_loss unit_features None None.
Proof.
  apply (forward_tree_single_sample example_loss example_tree unit_features [7%Z]).
  - reflexivity.
  - unfold size. simpl. lia.
Defined.

(** ** The mask of a valid tree, and finite losses *)

Lemma pair_mask_valid self labels n i j li lj :
  square n (bm_corr self) -> labels !! i = Some li -> labels !! j = Some lj ->
  (0 <= li < Z.of_nat n)%Z -> (0 <= lj < Z.of_nat n)%Z ->
  exists v, pair_mask self labels i j = Ok v /\
            entry (bm_corr self) (Z.to_nat li) (Z.to_nat lj) = Some v.
Proof.
  intros Hsq Hi Hj Hli Hlj.
  destruct (tensor_index_valid n (bm_corr self) li lj Hsq Hli Hlj) as (v & Hv & He).
  exists v. split; [|done]. unfold pair_mask, list_get. by rewrite Hi, Hj.
Qed.

(** The mask the loop over the pairs of samples builds when the
    correlation of every pair can be read. *)
Lemma forward_mask_tree_Ok self t B labels :
  tree_path self = Some t ->
  (forall i j, (i < j < B)%nat -> exists v, pair_mask self labels i j = Ok v) ->
  exists mask,
    forward_mask self B (Some labels) None = Ok mask /\ square B mask /\
    (forall i, (i < B)%nat -> entry mask i i = Some (Fin 1)) /\
    (forall i j, (i < j < B)%nat ->
       exists v, pair_mask self labels i j = Ok v /\
                 entry mask i j = Some v /\ entry mask j i = Some v).
Proof.
  intros Ht Hval. rewrite (forward_mask_tree self t) by done.
  destruct (fill_loop_runs (pair_mask self labels) B
              (combinations_with_replacement_2 B) (eye B)) as [mask Hmask].
  - apply eye_shape.
  - intros i j Hin. apply elem_of_combinations in Hin. lia.
  - intros i j Hin Hij. apply elem_of_combinations in Hin. apply Hval. lia.
  - exists mask. split; [done|]. split; [|split].
    + unfold square. by rewrite (fill_loop_shape _ _ _ _ Hmask), eye_shape.
    + intros i Hi.
      rewrite (fill_loop_diagonal _ _ _ _ _ Hmask), eye_entry by done.
      by rewrite decide_True.
    + intros i j Hij.
      apply (fill_loop_pair (pair_mask self labels)
               (combinations_with_replacement_2 B) (eye B) mask i j); try done.
      * intros i' j'. apply combinations_upper.
      * apply elem_of_combinations. lia.
      * lia.
Qed.

Lemma tree_mask_valid_entries t self B labels :
  valid_tree t ->
  build_bm_corr t = Ok (tips self, bm_corr self) -> tree_path self = Some t ->
  (B <= length labels)%nat ->
  Forall (fun k => (0 <= k < Z.of_nat (length (tips self)))%Z) labels ->
  exists mask,
    forward_mask self B (Some labels) None = Ok mask /\ square B mask /\
    forall i j, (i < B)%nat -> (j < B)%nat ->
      exists v, entry mask i j = Some v /\ entry mask j i = Some v /\
                tval_nonneg v /\ (labels !! i = labels !! j -> v = Fin 1) /\
                exists li lj,
                  labels !! i = Some li /\ labels !! j = Some lj /\
                  (i <> j ->
                   entry (bm_corr self) (Z.to_nat li) (Z.to_nat lj) = Some v).
Proof.
  intros Hv Hbuild Ht HB Hvalid.
  pose proof (build_bm_corr_square _ _ _ Hbuild) as Hsq.
  rewrite Forall_lookup in Hvalid.
  assert (forall i j, (i < B)%nat -> (j < B)%nat ->
            exists li lj v,
              labels !! i = Some li /\ labels !! j = Some lj /\
              pair_mask self labels i j = Ok v /\ tval_nonneg v /\
              (li = lj -> v = Fin 1) /\
              entry (bm_corr self) (Z.to_nat li) (Z.to_nat lj) = Some v) as Hval.
  { intros i j Hi Hj.
    destruct (lookup_lt_is_Some_2 labels i) as [li Hli]; [lia|].
    destruct (lookup_lt_is_Some_2 labels j) as [lj Hlj]; [lia|].
    pose proof (Hvalid _ _ Hli) as Hri. pose proof (Hvalid _ _ Hlj) as Hrj.
    simpl in Hri, Hrj.
    destruct (pair_mask_valid self labels _ i j li lj Hsq Hli Hlj Hri Hrj)
      as (v & Hpm & He).
    destruct (bm_corr_entries t _ _ (Z.to_nat li) (Z.to_nat lj) Hv Hbuild)
      as (x & Hx & _ & Hb & Hone); [lia|lia|].
    assert (x = v) as -> by congruence.
    exists li, lj, v. repeat split; try done.
    intros ->. by apply Hone. }
  destruct (forward_mask_tree_Ok self t B labels Ht) as (mask & Hm & Hsqm & Hd & Hp).
  { intros i j Hij. destruct (Hval i j) as (li & lj & v & _ & _ & Hpm & _);
      [lia..|eauto]. }
  exists mask. split; [done|]. split; [done|].
  intros i j Hi Hj.
  destruct (Nat.lt_trichotomy i j) as [Hlt|[->|Hgt]].
  - destruct (Hp i j) as (v & Hpm & Hij & Hji); [lia|].
    destruct (Hval i j Hi Hj) as (li & lj & v' & Hli & Hlj & Hpm' & Hn & Hone & He).
    rewrite Hpm in Hpm'. simplify_eq. exists v'. repeat split; try done.
    + rewrite Hli, Hlj. intros [= ->]. by apply Hone.
    + by exists li, lj.
  - destruct (Hval j j Hj Hj) as (lj & lj' & _ & Hlj & Hlj' & _).
    exists (Fin 1). rewrite Hd by done. repeat split; try done.
    + simpl. lra.
    + by exists lj, lj.
  - destruct (Hp j i) as (v & Hpm & Hij & Hji); [lia|].
    destruct (Hval j i Hj Hi) as (lj & li & v' & Hlj & Hli & Hpm' & Hn & Hone & He).
    rewrite Hpm in Hpm'. simplify_eq. exists v'. repeat split; try done.
    + rewrite Hli, Hlj. intros [= ->]. by apply Hone.
    + exists li, lj. repeat split; try done. intros _.
      destruct (bm_corr_entries t _ _ (Z.to_nat lj) (Z.to_nat li) Hv Hbuild)
        as (x & Hx & Hx' & _).
      * pose proof (Hvalid _ _ Hlj). simpl in *. lia.
      * pose proof (Hvalid _ _ Hli). simpl in *. lia.
      * congruence.
Qed.

(** X9.  A loss constructed from a valid tree, given in-range labels for a
    batch of [B] samples, derives a [B x B] mask that is symmetric, has no
    negative entry, and has [1] wherever two samples carry the same label
    (the diagonal included). *)
Theorem tree_mask_symmetric_nonneg T mode bT t self B labels :
  valid_tree t ->
  SupConLoss_init T mode bT (Some t) = Ok self ->
  (B <= length labels)%nat ->
  Forall (fun k => (0 <= k < Z.of_nat (length (tips self)))%Z) labels ->
  exists mask,
    forward_mask self B (Some labels) None = Ok mask /\ square B mask /\
    forall i j, (i < B)%nat -> (j < B)%nat ->
      exists v, entry mask i j = Some v /\ entry mask j i = Some v /\
                tval_nonneg v /\ (labels !! i = labels !! j -> v = Fin 1).
Proof.
  intros Hv Hinit HB Hvalid.
  apply SupConLoss_init_Ok in Hinit as (Hbuild & _ & _ & _ & Ht).
  destruct (tree_mask_valid_entries t self B labels)
    as (mask & Hm & Hsq & Hent); try done.
  exists mask. split; [done|]. split; [done|].
  intros i j Hi Hj. destruct (Hent i j Hi Hj) as (v & H1 & H2 & H3 & H4 & _).
  eauto.
Qed.

Lemma tree_mask_symmetric_nonneg_witness :
  exists mask,
    forward_mask example_loss 3 (Some [0; 1; 0]%Z) None = Ok mask /\
    square 3 mask /\
    forall i j, (i < 3)%nat -> (j < 3)%nat ->
      exists v, entry mask i j = Some v /\ entry mask j i = Some v /\
                tval_nonneg v /\ ([0; 1; 0]%Z !! i = [0; 1; 0]%Z !! j -> v = Fin 1).
Proof.
  apply (tree_mask_symmetric_nonneg 0.07 "all" 0.07 example_tree example_loss
           3 [0; 1; 0]%Z).
  - apply example_tree_valid.
  - apply example_loss_init.
  - simpl. lia.
  - repeat constructor; simpl; lia.
Defined.

(** Finite entries are the lifted real numbers. *)
Lemma lift_real_part (row : list tval) :
  Forall finite row -> row = lift (map real_part row).
Proof.
  induction 1 as [|v row [x ->] _ IH]; simpl; [done|]. by rewrite <- IH.
Qed.

Lemma lift2_real_part (m : matrix) :
  Forall (Forall finite) m -> m = lift2 (map (map real_part) m).
Proof.
  induction 1 as [|row m Hrow _ IH]; simpl; [done|].
  by rewrite <- IH, <- lift_real_part.
Qed.

Lemma square_entries_Forall B (mask : matrix) (P : tval -> Prop) :
  square B mask ->
  (forall i j, (i < B)%nat -> (j < B)%nat ->
     exists v, entry mask i j = Some v /\ P v) ->
  Forall (Forall P) mask.
Proof.
  intros Hsq Hent. apply Forall_lookup. intros i row Hrow.
  destruct (shape_replicate_lookup mask B B i row Hsq Hrow) as [Hlen Hi].
  apply Forall_lookup. intros j v Hv.
  assert (j < B)%nat as Hj by (rewrite <- Hlen; by eapply lookup_lt_Some).
  destruct (Hent i j Hi Hj) as (v' & He & HP).
  unfold entry in He. rewrite Hrow in He. simpl in He. congruence.
Qed.

Lemma sumR_ge_elem (l : list R) i x :
  Forall (fun y => 0 <= y) l -> l !! i = Some x -> x <= sumR l.
Proof.
  intros Hnn. revert i. induction Hnn as [|y l Hy Hl IH]; intros [|i] Hi;
    simplify_eq/=.
  - pose proof (sumR_nonneg l Hl). lra.
  - specialize (IH i Hi). lra.
Qed.

(** With at least two views, a derived mask of finite non-negative
    entries with a positive diagonal gives a finite loss when no
    exponential underflows. *)
Lemma forward_nonneg_mask_finite self (f : tensor R) labels umask mask :
  flattens f ->
  contrast_mode self = "one"%string \/ contrast_mode self = "all"%string ->
  temperature self <> 0 -> base_temperature self <> 0 ->
  (0 < size f 0)%nat -> (2 <= size f 1)%nat ->
  float32_features self f ->
  forward_mask self (size f 0) labels umask = Ok mask ->
  square (size f 0) mask ->
  (forall i j, (i < size f 0)%nat -> (j < size f 0)%nat ->
     exists x, entry mask i j = Some (Fin x) /\ 0 <= x /\ (i = j -> 0 < x)) ->
  exists x, forward self (tensor_map Fin f) labels umask = Ok (Fin x).
Proof.
  intros Hf Hmode HT HbT HB HV (_ & _ & _ & _ & Hspread) Hmask Hsq Hent.
  set (MR := map (map real_part) mask).
  assert (Forall (Forall (fun v => exists x, v = Fin x /\ 0 <= x)) mask) as Hall.
  { apply (square_entries_Forall (size f 0)); [done|].
    intros i j Hi Hj. destruct (Hent i j Hi Hj) as (x & He & Hx & _). eauto. }
  assert (mask = lift2 MR) as Hlift.
  { apply lift2_real_part. eapply Forall_impl; [exact Hall|].
    intros row Hrow. eapply Forall_impl; [exact Hrow|].
    intros v (x & -> & _). by exists x. }
  assert (map length MR = replicate (size f 0) (size f 0)) as HMR.
  { unfold MR. rewrite <- Hsq, map_map. apply map_ext. intros row.
    by rewrite length_map. }
  assert (Forall (Forall (fun x => 0 <= x)) MR) as Hnn.
  { unfold MR. change (map (map real_part) mask) with (map real_part <$> mask).
    apply Forall_fmap. eapply Forall_impl; [exact Hall|].
    intros row Hrow. change (map real_part row) with (real_part <$> row).
    apply Forall_fmap. eapply Forall_impl; [exact Hrow|].
    by intros v (x & -> & Hx). }
  assert (Forall (fun row => 0 < sumR row) MR) as Hpos.
  { apply Forall_lookup. intros i rowR Hi.
    assert (Forall (fun x => 0 <= x) rowR) as HnnR
      by (by eapply (proj1 (Forall_lookup _ _) Hnn)).
    unfold MR in Hi. change (map (map real_part) mask) with (map real_part <$> mask) in Hi.
    rewrite list_lookup_fmap in Hi.
    destruct (mask !! i) as [row|] eqn:Hrow; simplify_eq/=.
    destruct (shape_replicate_lookup mask _ _ i row Hsq Hrow) as [_ Hlt].
    destruct (Hent i i Hlt Hlt) as (x & He & _ & Hx).
    unfold entry in He. rewrite Hrow in He. simpl in He.
    assert (map real_part row !! i = Some x) as Hxi.
    { change (map real_part row) with (real_part <$> row).
      by rewrite list_lookup_fmap, He. }
    pose proof (sumR_ge_elem _ _ _ HnnR Hxi). specialize (Hx eq_refl). lra. }
  rewrite Hlift in Hmask.
  rewrite (forward_lifted self f labels umask MR) by (done || lia).
  eexists. apply forward_loss_finite; try done.
  - by rewrite length_spec_anchor, flattened_size0.
  - by rewrite length_spec_contrast, flattened_size0, flattened_size1.
  - unfold spec_anchor_count. rewrite flattened_size1. case_decide; lia.
  - nia.
  - by apply spec_mask_rows_nonzero.
Qed.

Lemma label_eq_mask_shape labels :
  square (length labels) (label_eq_mask labels).
Proof.
  unfold square, label_eq_mask. rewrite map_map.
  rewrite <- map_const_replicate. apply map_ext. intros a. by rewrite length_map.
Qed.

Lemma label_eq_mask_entry labels i j li lj :
  labels !! i = Some li -> labels !! j = Some lj ->
  entry (label_eq_mask labels) i j
  = Some (if decide (li = lj) then Fin 1 else Fin 0).
Proof.
  intros Hi Hj. unfold entry, label_eq_mask.
  change (map ?g labels) with (g <$> labels) at 1.
  rewrite list_lookup_fmap, Hi. simpl.
  change (map ?g labels) with (g <$> labels).
  by rewrite list_lookup_fmap, Hj.
Qed.

Lemma two_by_two_flattens : flattens two_by_two_features.
Proof. by left. Qed.

(** Two samples of two views each, at temperature 0.07, are within the
    range of float32. *)
Lemma two_by_two_features_plain : float32_features plain_loss two_by_two_features.
Proof.
  split; [|split; [|split; [|split]]].
  - simpl. rewrite Rabs_pos_eq by lra. lra.
  - simpl. rewrite Rabs_pos_eq by lra. lra.
  - repeat constructor; simpl; rewrite Rabs_pos_eq by lra; lra.
  - simpl. lia.
  - spread_rows.
Qed.

Lemma two_by_two_features_example : float32_features example_loss two_by_two_features.
Proof. exact two_by_two_features_plain. Qed.

(** X10.  SimCLR with at least two views yields no [nan] within the range
    of float32: without labels and mask, on features of finite entries with
    a non-empty batch, non-zero temperatures and logits whose exponentials
    do not underflow, [forward] returns a finite scalar. *)
Theorem simclr_two_views_finite self (f : tensor R) :
  flattens f ->
  contrast_mode self = "one"%string \/ contrast_mode self = "all"%string ->
  temperature self <> 0 -> base_temperature self <> 0 ->
  (0 < size f 0)%nat -> (2 <= size f 1)%nat ->
  float32_features self f ->
  exists x, forward self (tensor_map Fin f) None None = Ok (Fin x).
Proof.
  intros Hf Hmode HT HbT HB HV Hreg.
  apply (forward_nonneg_mask_finite self f None None (eye (size f 0)));
    try done.
  - apply eye_shape.
  - intros i j Hi Hj. rewrite eye_entry by done.
    case_decide; eexists; (split; [done|]); split; try lra; intros; (done || lra).
Qed.

Lemma simclr_two_views_finite_witness :
  exists x, forward plain_loss (tensor_map Fin two_by_two_features) None None
            = Ok (Fin x).
Proof.
  apply (simclr_two_views_finite plain_loss two_by_two_features).
  - apply two_by_two_flattens.
  - by right.
  - simpl. lra.
  - simpl. lra.
  - unfold size. simpl. lia.
  - unfold size. simpl. lia.
  - apply two_by_two_features_plain.
Defined.

(** X11.  Without a tree, with one label per sample and at least two
    views, [forward] returns a finite scalar on features of finite entries
    within the range of float32: every sample has its own other views as
    positives. *)
Theorem labels_two_views_finite self (f : tensor R) labels :
  tree_path self = None ->
  flattens f ->
  contrast_mode self = "one"%string \/ contrast_mode self = "all"%string ->
  temperature self <> 0 -> base_temperature self <> 0 ->
  (0 < size f 0)%nat -> (2 <= size f 1)%nat ->
  length labels = size f 0 ->
  float32_features self f ->
  exists x, forward self (tensor_map Fin f) (Some labels) None = Ok (Fin x).
Proof.
  intros Ht Hf Hmode HT HbT HB HV Hlen Hreg.
  apply (forward_nonneg_mask_finite self f (Some labels) None
           (label_eq_mask labels)); try done.
  - unfold forward_mask. rewrite Ht. by rewrite decide_False by (by intros []).
  - rewrite <- Hlen. apply label_eq_mask_shape.
  - intros i j Hi Hj.
    destruct (lookup_lt_is_Some_2 labels i) as [li Hli]; [lia|].
    destruct (lookup_lt_is_Some_2 labels j) as [lj Hlj]; [lia|].
    rewrite (label_eq_mask_entry labels i j li lj) by done.
    case_decide as Heq; eexists; (split; [done|]); split; try lra.
    intros ->. destruct Heq. congruence.
Qed.

Lemma labels_two_views_finite_witness :
  exists x, forward plain_loss (tensor_map Fin two_by_two_features)
                    (Some [0; 1]%Z) None = Ok (Fin x).
Proof.
  apply (labels_two_views_finite plain_loss two_by_two_features [0; 1]%Z).
  - reflexivity.
  - apply two_by_two_flattens.
  - by right.
  - simpl. lra.
  - simpl. lra.
  - unfold size. simpl. lia.
  - unfold size. simpl. lia.
  - reflexivity.
  - apply two_by_two_features_plain.
Defined.

Lemma entry_Forall (P : tval -> Prop) (m : matrix) a b v :
  Forall (Forall P) m -> entry m a b = Some v -> P v.
Proof.
  intros Hm. unfold entry. destruct (m !! a) as [row|] eqn:Hrow; [|done]. simpl.
  intros Hv. rewrite Forall_lookup in Hm. specialize (Hm _ _ Hrow).
  rewrite Forall_lookup in Hm. by apply (Hm b).
Qed.

Lemma example_loss_finite : Forall (Forall finite) (bm_corr example_loss).
Proof.
  repeat (apply Forall_cons_2 || apply Forall_nil_2); by eexists.
Qed.

(** X12.  End to end with a tree: a loss constructed from a valid tree
    whose correlations are all finite, called with in-range labels for a
    non-empty batch of at least two views of finite features within the
    range of float32, returns a finite scalar. *)
Theorem tree_two_views_finite T mode bT t self (f : tensor R) labels :
  valid_tree t ->
  SupConLoss_init T mode bT (Some t) = Ok self ->
  Forall (Forall finite) (bm_corr self) ->
  flattens f ->
  mode = "one"%string \/ mode = "all"%string ->
  T <> 0 -> bT <> 0 ->
  (0 < size f 0)%nat -> (2 <= size f 1)%nat ->
  (size f 0 <= length labels)%nat ->
  Forall (fun k => (0 <= k < Z.of_nat (length (tips self)))%Z) labels ->
  float32_features self f ->
  exists x, forward self (tensor_map Fin f) (Some labels) None = Ok (Fin x).
Proof.
  intros Hv Hinit Hfin Hf Hmode HT HbT HB HV Hlen Hvalid Hreg.
  apply SupConLoss_init_Ok in Hinit as (Hbuild & <- & <- & <- & Ht).
  destruct (tree_mask_valid_entries t self (size f 0) labels)
    as (mask & Hmask & Hsq & Hent); try done.
  apply (forward_nonneg_mask_finite self f (Some labels) None mask); try done.
  intros i j Hi Hj.
  destruct (Hent i j Hi Hj) as (v & He & _ & Hn & Hone & li & lj & Hli & Hlj & Hbm).
  destruct (decide (i = j)) as [->|Hij].
  - rewrite Hone in He by done. exists 1. split; [done|]. split; intros; lra.
  - destruct (entry_Forall finite _ _ _ _ Hfin (Hbm Hij)) as [x ->].
    exists x. split; [done|]. split; [done|]. by intros.
Qed.

Lemma tree_two_views_finite_witness :
  exists x, forward example_loss (tensor_map Fin two_by_two_features)
                    (Some [0; 2]%Z) None = Ok (Fin x).
Proof.
  apply (tree_two_views_finite 0.07 "all" 0.07 example_tree example_loss
           two_by_two_features [0; 2]%Z).
  - apply example_tree_valid.
  - apply example_loss_init.
  - apply example_loss_finite.
  - apply two_by_two_flattens.
  - by right.
  - lra.
  - lra.
  - unfold size. simpl. lia.
  - unfold size. simpl. lia.
  - unfold size. simpl. lia.
  - repeat constructor; simpl; lia.
  - apply two_by_two_features_example.
Defined.

(** ** Losses that are not finite, and the base temperature *)

Lemma inf_times_not_finite pos x : ~ finite (inf_times pos x).
Proof.
  unfold inf_times. intros [y Hy].
  destruct (total_order_T x 0) as [[|]|]; destruct pos; done.
Qed.

Lemma tadd_finite a b : finite (tadd a b) -> finite a /\ finite b.
Proof.
  destruct a, b; simpl; intros [z Hz]; try done; split; by eexists.
Qed.

Lemma tsum_finite l : finite (tsum l) -> Forall finite l.
Proof.
  induction l as [|a l IH]; [by constructor|].
  change (tsum (a :: l)) with (tadd a (tsum l)).
  intros H. apply tadd_finite in H as [Ha Hl]. constructor; auto.
Qed.

Lemma tmul_finite c b : finite (tmul (Fin c) b) -> finite b.
Proof.
  destruct b; simpl; intros H;
    first [by eexists | by apply inf_times_not_finite in H | by destruct H].
Qed.

Lemma tdiv_finite a y : finite (tdiv a (Fin y)) -> finite a /\ y <> 0.
Proof.
  unfold tdiv. destruct a.
  - destruct (Req_dec_T y 0).
    + intros H. by apply inf_times_not_finite in H.
    + intros _. split; [by eexists|done].
  - destruct (Rlt_dec y 0); by intros [z Hz].
  - destruct (Rlt_dec y 0); by intros [z Hz].
  - by intros [z Hz].
Qed.

Lemma tmean_finite l : finite (tmean l) -> Forall finite l.
Proof.
  unfold tmean. intros H. apply tdiv_finite in H as [H _]. by apply tsum_finite.
Qed.

(** Finite row means need non-zero row sums of the mask. *)
Lemma mean_rows_finite c (N : list tval) (D : list R) :
  length N = length D ->
  Forall finite (map (tmul (Fin c)) (zip_with tdiv N (lift D))) ->
  Forall (fun d => d <> 0) D.
Proof.
  revert D. induction N as [|n N IH]; intros [|d D] Hlen; simplify_eq/=;
    [by constructor|].
  intros H. apply Forall_cons in H as [Hd H]. constructor; [|by apply IH].
  apply tmul_finite in Hd. by apply tdiv_finite in Hd as [_ Hd].
Qed.

(** X13.  A derived mask whose tiled, self-zeroed form has an anchor row
    that sums to zero makes the loss non-finite: under the conditions of
    the closed form of the loss, [forward] then returns [nan] or an
    infinity. *)
Theorem forward_zero_row_not_finite self (f : tensor R) labels umask
    (MR : list (list R)) :
  flattens f ->
  contrast_mode self = "one"%string \/ contrast_mode self = "all"%string ->
  temperature self <> 0 -> base_temperature self <> 0 ->
  (0 < size f 0)%nat -> (0 < size f 1)%nat -> (2 <= size f 1 * size f 0)%nat ->
  forward_mask self (size f 0) labels umask = Ok (lift2 MR) ->
  map length MR = replicate (size f 0) (size f 0) ->
  Exists (fun row => sumR row = 0)
         (spec_mask (spec_anchor_count (contrast_mode self) (flattened f))
                    (size f 1) MR) ->
  exists v, forward self (tensor_map Fin f) labels umask = Ok v /\ ~ finite v.
Proof.
  intros Hf Hmode HT HbT HB HV HN Hmask HM Hzero.
  destruct (forward_lifted_rows self f labels umask MR) as (Hlen & HLP & ->);
    try done.
  rewrite float_div_nonzero by done. cbn [mbind result_bind].
  eexists. split; [done|]. intros Hfin.
  apply tmean_finite, mean_rows_finite in Hfin.
  - apply Exists_exists in Hzero as (row & Hin & Hrow).
    change (map sumR ?l) with (sumR <$> l) in Hfin.
    rewrite Forall_fmap, Forall_forall in Hfin. by apply (Hfin row).
  - rewrite !length_map, length_zip_with, length_map. lia.
Qed.

Lemma forward_zero_row_not_finite_witness :
  exists v, forward plain_loss (tensor_map Fin one_view_features) None None = Ok v
            /\ ~ finite v.
Proof.
  apply (forward_zero_row_not_finite plain_loss one_view_features None None
           [[1; 0]; [0; 1]]).
  - by left.
  - by right.
  - simpl. lra.
  - simpl. lra.
  - unfold size. simpl. lia.
  - unfold size. simpl. lia.
  - unfold size. simpl. lia.
  - reflexivity.
  - reflexivity.
  - apply Exists_cons_hd. vm_compute. lra.
Defined.

(** X14.  A base temperature of zero is a Python division by zero: on
    finite features of at least two contrast columns with a non-zero
    temperature, a known mode and a finite [B x B] mask, [forward] raises
    [ZeroDivisionError] instead of returning an infinite loss. *)
Theorem zero_base_temperature_raises self (f : tensor R) labels umask
    (MR : list (list R)) :
  flattens f ->
  contrast_mode self = "one"%string \/ contrast_mode self = "all"%string ->
  temperature self <> 0 -> base_temperature self = 0 ->
  (0 < size f 0)%nat -> (0 < size f 1)%nat -> (2 <= size f 1 * size f 0)%nat ->
  forward_mask self (size f 0) labels umask = Ok (lift2 MR) ->
  map length MR = replicate (size f 0) (size f 0) ->
  forward self (tensor_map Fin f) labels umask = Raise ZeroDivisionError.
Proof.
  intros Hf Hmode HT HbT HB HV HN Hmask HM.
  destruct (forward_lifted_rows self f labels umask MR) as (_ & _ & ->);
    try done.
  by rewrite HbT, float_div_zero.
Qed.

Lemma zero_base_temperature_raises_witness :
  forward zero_base_loss (tensor_map Fin two_view_features) None None
  = Raise ZeroDivisionError.
Proof.
  apply (zero_base_temperature_raises zero_base_loss two_view_features None None
           [[1]]).
  - by left.
  - by right.
  - simpl. lra.
  - reflexivity.
  - unfold size. simpl. lia.
  - unfold size. simpl. lia.
  - unfold size. simpl. lia.
  - reflexivity.
  - reflexivity.
Defined.

(** ** Labels without a tree, and the two contrast modes *)

Lemma forward_mask_labels self B labels :
  tree_path self = None -> length labels = B ->
  forward_mask self B (Some labels) None = Ok (label_eq_mask labels).
Proof.
  intros Ht Hlen. unfold forward_mask. rewrite Ht.
  by rewrite decide_False by (by intros []).
Qed.

(** X15.  Without a tree, labels are a shorthand for the mask of equal
    labels: a call with one label per sample does what the call with the
    explicit mask [torch.eq(labels, labels.T)] does. *)
Theorem labels_are_mask_shorthand self (f : tensor tval) labels :
  tree_path self = None -> length labels = size f 0 ->
  forward self f (Some labels) None
  = forward self f None (Some (label_eq_mask labels)).
Proof.
  intros Ht Hlen. apply forward_mask_congr.
  by rewrite forward_mask_labels.
Qed.

Lemma labels_are_mask_shorthand_witness :
  forward plain_loss two_sample_features (Some [0; 1]%Z) None
  = forward plain_loss two_sample_features None (Some (label_eq_mask [0; 1]%Z)).
Proof.
  by apply (labels_are_mask_shorthand plain_loss two_sample_features [0; 1]%Z).
Defined.

Lemma label_eq_mask_NoDup labels :
  NoDup labels -> label_eq_mask labels = eye (length labels).
Proof.
  intros Hnd. unfold label_eq_mask, eye. apply list_eq. intros i.
  change (map ?g ?l) with (g <$> l) at 1.
  change (map ?g (seq 0 (length labels))) with (g <$> seq 0 (length labels)) at 2.
  rewrite !list_lookup_fmap.
  destruct (labels !! i) as [li|] eqn:Hi.
  2:{ apply lookup_ge_None in Hi. by rewrite lookup_seq_ge. }
  pose proof (lookup_lt_Some _ _ _ Hi) as Hlt.
  rewrite lookup_seq_lt by done. simpl. f_equal.
  apply list_eq. intros j.
  change (map ?g labels) with (g <$> labels).
  change (map ?g (seq 0 (length labels))) with (g <$> seq 0 (length labels)).
  rewrite !list_lookup_fmap.
  destruct (labels !! j) as [lj|] eqn:Hj.
  2:{ apply lookup_ge_None in Hj. by rewrite lookup_seq_ge. }
  pose proof (lookup_lt_Some _ _ _ Hj) as Hltj.
  rewrite lookup_seq_lt by done. simpl. f_equal.
  case_decide as Heq.
  - subst lj. rewrite (NoDup_lookup _ _ _ _ Hnd Hi Hj). by rewrite Nat.eqb_refl.
  - destruct (Nat.eqb_spec i j) as [->|]; [|done]. congruence.
Qed.

(** X16.  Without a tree, pairwise distinct labels, one per sample, make
    the supervised loss the SimCLR loss: the call does what the call
    without labels does. *)
Theorem distinct_labels_are_simclr self (f : tensor tval) labels :
  tree_path self = None -> length labels = size f 0 -> NoDup labels ->
  forward self f (Some labels) None = forward self f None None.
Proof.
  intros Ht Hlen Hnd. apply forward_mask_congr.
  rewrite forward_mask_labels by done.
  by rewrite label_eq_mask_NoDup, Hlen.
Qed.

Lemma distinct_labels_are_simclr_witness :
  forward plain_loss two_sample_features (Some [4; 7]%Z) None
  = forward plain_loss two_sample_features None None.
Proof.
  apply (distinct_labels_are_simclr plain_loss two_sample_features [4; 7]%Z).
  - reflexivity.
  - reflexivity.
  - compute_done.
Defined.

Lemma label_eq_mask_inj (g : Z -> Z) labels :
  (forall a b, g a = g b -> a = b) ->
  label_eq_mask (map g labels) = label_eq_mask labels.
Proof.
  intros Hg. unfold label_eq_mask. rewrite map_map. apply map_ext. intros a.
  rewrite map_map. apply map_ext. intros b.
  repeat case_decide; try done.
  - destruct H0. by apply Hg.
  - destruct H. congruence.
Qed.

(** X17.  Without a tree, the labels matter through their equalities
    only: renaming them by an injective map changes nothing of what
    [forward] does. *)
Theorem labels_up_to_renaming self (f : tensor tval) labels (g : Z -> Z) :
  tree_path self = None ->
  (forall a b, g a = g b -> a = b) ->
  forward self f (Some (map g labels)) None = forward self f (Some labels) None.
Proof.
  intros Ht Hg. apply forward_mask_congr.
  unfold forward_mask. rewrite Ht, length_map.
  case_decide; [done|]. by rewrite label_eq_mask_inj.
Qed.

Lemma labels_up_to_renaming_witness :
  forward plain_loss two_sample_features (Some (map Z.succ [0; 0]%Z)) None
  = forward plain_loss two_sample_features (Some [0; 0]%Z) None.
Proof.
  apply (labels_up_to_renaming plain_loss two_sample_features [0; 0]%Z Z.succ).
  - reflexivity.
  - intros a b. lia.
Defined.

Lemma view3_size1 {A} (f f' : tensor A) : view3 f = Ok f' -> size f' 1 = size f 1.
Proof. unfold view3. case_decide; intros; by simplify_eq. Qed.

Lemma forward_mask_fields self1 self2 B labels mask :
  tree_path self1 = tree_path self2 -> bm_corr self1 = bm_corr self2 ->
  forward_mask self1 B labels mask = forward_mask self2 B labels mask.
Proof.
  intros Ht Hbm. unfold forward_mask. rewrite Ht.
  destruct labels as [labels|], mask as [mask|]; try done.
  destruct (tree_path self2); [|done].
  apply for_each_ext. intros m [i j]. unfold mask_body. by rewrite Hbm.
Qed.

Lemma forward_loss_fields self1 self2 B af cf ac cc mask :
  temperature self1 = temperature self2 ->
  base_temperature self1 = base_temperature self2 ->
  forward_loss self1 B af cf ac cc mask = forward_loss self2 B af cf ac cc mask.
Proof. intros HT HbT. unfold forward_loss. by rewrite HT, HbT. Qed.

(** X18.  With a single view per sample the two contrast modes agree:
    two losses that differ in the mode only, one in mode ["one"] and one in
    mode ["all"], do the same on every call. *)
Theorem single_view_modes_agree self1 self2 (f : tensor tval) labels mask :
  temperature self1 = temperature self2 ->
  base_temperature self1 = base_temperature self2 ->
  tree_path self1 = tree_path self2 -> bm_corr self1 = bm_corr self2 ->
  contrast_mode self1 = "one"%string -> contrast_mode self2 = "all"%string ->
  size f 1 = 1%nat ->
  forward self1 f labels mask = forward self2 f labels mask.
Proof.
  intros HT HbT Ht Hbm H1 H2 HV.
  assert (forall f' : tensor tval, size f' 1 = 1%nat ->
    (mask ← forward_mask self1 (size f' 0) labels mask;
     contrast_feature ← cat0 (unbind1 f');
     ac ← forward_anchor self1 f' contrast_feature;
     forward_loss self1 (size f' 0) (fst ac) contrast_feature (snd ac)
                  (size f' 1) mask)
    = (mask ← forward_mask self2 (size f' 0) labels mask;
       contrast_feature ← cat0 (unbind1 f');
       ac ← forward_anchor self2 f' contrast_feature;
       forward_loss self2 (size f' 0) (fst ac) contrast_feature (snd ac)
                    (size f' 1) mask)) as Hbody.
  { intros f' HV'. rewrite (forward_mask_fields self1 self2) by done.
    destruct (forward_mask self2 _ _ _) as [m|e]; [|done].
    cbn [mbind result_bind]. unfold unbind1, forward_anchor.
    rewrite HV', H1, H2. simpl. rewrite app_nil_r.
    by apply forward_loss_fields. }
  unfold forward. case_decide as Hr; [done|].
  case_decide as Hr3.
  - destruct (view3 f) as [f'|e] eqn:Hv; [|done]. cbn [mbind result_bind].
    apply Hbody. by rewrite (view3_size1 _ _ Hv).
  - cbn [mbind result_bind]. by apply Hbody.
Qed.

Lemma single_view_modes_agree_witness :
  forward {| temperature := 0.07; contrast_mode := "one"; base_temperature := 0.07;
             tree_path := None; tips := []; bm_corr := [] |}
          two_sample_features None None
  = forward plain_loss two_sample_features None None.
Proof.
  by apply (single_view_modes_agree _ plain_loss two_sample_features None None).
Defined.

Lemma forward_mask_Raise_cases self B labels mask e :
  forward_mask self B labels mask = Raise e ->
  e = ValueError LabelsAndMask \/ e = ValueError NumLabelsMismatch \/
  e = IndexError.
Proof.
  unfold forward_mask. destruct labels as [labels|], mask as [mask|]; try done.
  - intros [= <-]. by left.
  - destruct (tree_path self).
    + intros H. apply for_each_Raise in H as (m & ij & _ & H).
      apply mask_body_Raise in H. auto.
    + case_decide; [|done]. intros [= <-]. auto.
Qed.

(** X19.  The exceptions of [forward]: whatever the arguments, a call that
    raises does so with one of the module's four [ValueError]s, the
    [ValueError] of [torch.cat] on an empty list of views, an [IndexError],
    a [RuntimeError] or a [ZeroDivisionError]. *)
Theorem forward_exceptions self (f : tensor tval) labels mask e :
  forward self f labels mask = Raise e ->
  e = ValueError FeaturesRank \/ e = ValueError LabelsAndMask \/
  e = ValueError NumLabelsMismatch \/ e = ValueError UnknownMode \/
  e = ValueError EmptyTensorList \/
  e = IndexError \/ e = RuntimeError \/ e = ZeroDivisionError.
Proof.
  unfold forward. case_decide as Hr; [intros [= <-]; auto|].
  intros H. apply bind_Raise in H as [H|(f' & _ & H)].
  { case_decide; [|done]. apply view3_Raise in H. auto 12. }
  apply bind_Raise in H as [H|(m & _ & H)].
  { apply forward_mask_Raise_cases in H as [-> | [-> | ->]]; auto 12. }
  apply bind_Raise in H as [H|(cf & _ & H)].
  { apply cat0_Raise in H. auto 12. }
  apply bind_Raise in H as [H|(ac & _ & H)].
  { apply forward_anchor_Raise in H as [->| ->]; auto 12. }
  apply forward_loss_Raise in H as [->|[->| ->]]; auto 12.
Qed.

Lemma forward_exceptions_witness :
  ValueError FeaturesRank = ValueError FeaturesRank \/
  ValueError FeaturesRank = ValueError LabelsAndMask \/
  ValueError FeaturesRank = ValueError NumLabelsMismatch \/
  ValueError FeaturesRank = ValueError UnknownMode \/
  ValueError FeaturesRank = ValueError EmptyTensorList \/
  ValueError FeaturesRank = IndexError \/ ValueError FeaturesRank = RuntimeError \/
  ValueError FeaturesRank = ZeroDivisionError.
Proof.
  apply (forward_exceptions plain_loss rank2_features None None). reflexivity.
Defined.

(** X20.  The unknown-mode [ValueError] is raised exactly when the mode is
    neither ["one"] nor ["all"] and the call gets as far as the test: the
    features pass the rank test and the flattening, the mask derivation
    succeeds and there is at least one view. *)
Theorem unknown_mode_iff self (f : tensor tval) labels mask :
  forward self f labels mask = Raise (ValueError UnknownMode) <->
  flattens f /\
  (exists m, forward_mask self (size f 0) labels mask = Ok m) /\
  (0 < size f 1)%nat /\
  contrast_mode self <> "one"%string /\ contrast_mode self <> "all"%string.
Proof.
  split.
  - intros H.
    assert (flattens f) as Hf.
    { unfold forward in H. case_decide as Hr; [done|].
      unfold flattens. destruct (decide (rank f = 3%nat)); [by left|right].
      split; [lia|]. rewrite decide_True in H by lia.
      unfold view3 in H. case_decide; [done|]. done. }
    split; [done|]. rewrite forward_flattens in H by done.
    apply bind_Raise in H as [H|(m & Hm & H)].
    { apply forward_mask_Raise_cases in H as [H|[H|H]]; done. }
    split; [by exists m|].
    apply bind_Raise in H as [H|(cf & Hcf & H)].
    { by apply cat0_Raise in H. }
    assert (0 < size f 1)%nat as HV.
    { rewrite <- (flattened_size1 f). unfold cat0, unbind1 in Hcf.
      destruct (size (flattened f) 1); [done|lia]. }
    split; [done|].
    apply bind_Raise in H as [H|(ac & Hac & H)].
    + unfold forward_anchor in H. repeat case_decide; done.
    + apply forward_loss_Raise in H as [H|[H|H]]; done.
  - intros (Hf & [m Hm] & HV & H1 & H2).
    rewrite forward_flattens, Hm by done. cbn [mbind result_bind].
    unfold cat0, unbind1. rewrite flattened_size1.
    destruct (size f 1) as [|V] eqn:HV'; [lia|].
    cbn [seq map mbind result_bind]. unfold forward_anchor.
    by rewrite !decide_False by done.
Qed.

(* ===================================================================== *)
(** * Further properties of [LabelSmoothingLoss] *)

Lemma sumR_const_weights (f : R) (lr : list R) :
  sumR (zip_with Rmult (map Ropp (map (fun _ => f) lr)) lr) = - (f * sumR lr).
Proof. induction lr as [|y lr IH]; simpl; [lra|]. rewrite IH. lra. Qed.

Lemma smoothed_row_weights (lr : list R) t c f :
  (t < length lr)%nat ->
  sumR (zip_with Rmult (map Ropp (<[t := c]> (map (fun _ => f) lr))) lr)
  = smoothed_row_loss c f lr t.
Proof.
  unfold smoothed_row_loss. revert t.
  induction lr as [|x lr IH]; intros t Ht; simpl in *; [lia|].
  destruct t as [|t]; simpl.
  - rewrite sumR_const_weights. lra.
  - rewrite IH by lia. lra.
Qed.

Lemma smoothed_row_lift lr t c f :
  (t < length lr)%nat ->
  tsum (zip_with tmul (map tneg (<[t := Fin c]> (map (fun _ => Fin f) (lift lr))))
                 (lift lr))
  = Fin (smoothed_row_loss c f lr t).
Proof.
  intros Ht.
  rewrite map_const_lift, insert_lift, (map_lift tneg Ropp) by done.
  rewrite (zip_with_lift tmul Rmult) by done.
  rewrite tsum_lift. f_equal. by apply smoothed_row_weights.
Qed.

Lemma smoothed_rows_lift rows target c f C :
  Forall (fun r => length r = C) rows ->
  length target = length rows ->
  Forall (fun t => (0 <= t < Z.of_nat C)%Z) target ->
  exists td,
    scatter_rows (map (map (fun _ => Fin f)) (lift2 rows)) target (Fin c) = Ok td /\
    map length (map (map tneg) td) = map length (lift2 rows) /\
    map tsum (zip_with (zip_with tmul) (map (map tneg) td) (lift2 rows))
    = lift (zip_with (fun row t => smoothed_row_loss c f row (Z.to_nat t))
                     rows target).
Proof.
  intros Hrows. revert target.
  induction Hrows as [|r rows Hr _ IH]; intros [|t target] Hlen Ht;
    simplify_eq/=.
  { exists []. by repeat split. }
  apply Forall_cons in Ht as [Ht Htarget].
  destruct (IH target) as (td & Htd & Hshape & Hsum); [done..|].
  rewrite !length_map. rewrite decide_True by lia.
  rewrite Htd. simpl. eexists. split; [done|]. simpl.
  rewrite !length_map, length_insert, !length_map. split; [by f_equal|].
  rewrite Hsum. f_equal. apply smoothed_row_lift. lia.
Qed.

Lemma log_softmax_lift2 C (pred : list (list R)) :
  (1 <= C)%nat -> Forall (fun row => length row = C) pred ->
  map log_softmax_row (lift2 pred) = lift2 (map log_softmaxR pred).
Proof.
  intros HC Hrows. rewrite <- !list_fmap_compose. apply list_fmap_ext.
  intros i r Hr. simpl. apply log_softmax_row_lift.
  rewrite Forall_lookup in Hrows. specialize (Hrows i r Hr).
  destruct r; simpl in *; [lia|done].
Qed.

(** The loss on finite predictions, before the mean over the batch. *)
Lemma label_smoothing_lifted classes s d C (pred : list (list R)) target :
  (d = -1 \/ d = 1)%Z -> classes <> 1%Z -> (1 <= C)%nat ->
  Forall (fun row => length row = C) pred ->
  length target = length pred ->
  Forall (fun t => (0 <= t < Z.of_nat C)%Z) target ->
  LabelSmoothingLoss_forward (LabelSmoothingLoss_init classes s d)
                             (lift2 pred) target
  = Ok (tmean (lift (zip_with
                 (fun lp t => smoothed_row_loss (1 - s) (s / (IZR classes - 1))
                                lp (Z.to_nat t))
                 (map log_softmaxR pred) target))).
Proof.
  intros Hd Hcls HC Hrows Hlen Htarget.
  unfold LabelSmoothingLoss_forward.
  rewrite length_map, decide_False by lia.
  cbn [smoothing cls confidence LabelSmoothingLoss_init dim].
  unfold log_softmax, sum_dim, axis_of_dim.
  rewrite !(decide_True (P := (d = 1 \/ d = -1)%Z)) by lia.
  cbn [mbind result_bind].
  rewrite float_div_nonzero.
  2:{ intros Hz. apply Hcls, eq_IZR. lra. }
  cbn [mbind result_bind].
  rewrite (log_softmax_lift2 C) by done.
  destruct (smoothed_rows_lift (map log_softmaxR pred) target (1 - s)
              (s / (IZR classes - 1)) C) as (td & Htd & Hshape & Hsum).
  { apply Forall_fmap. eapply Forall_impl; [exact Hrows|].
    intros r Hr. simpl. unfold log_softmaxR. by rewrite length_map. }
  { by rewrite length_map. }
  { done. }
  rewrite Htd. cbn [mbind result_bind].
  unfold tensor_mul. rewrite same_shape_true by done.
  cbn [mbind result_bind]. by rewrite Hsum.
Qed.

(** X21.  Label smoothing in closed form.  On finite predictions with
    [C >= 1] columns, taken along the last dimension, with in-range
    targets and [classes <> 1], [forward] returns the mean over the batch
    of [-(confidence * lp[t] + smoothing / (classes - 1) * sum of lp[k]
    for k <> t)], where [lp] is the log-softmax of the sample's row and [t]
    its target; [classes] is not compared with [C]. *)
Theorem label_smoothing_closed_form classes s d C (pred : list (list R)) target :
  (d = -1 \/ d = 1)%Z -> classes <> 1%Z -> (1 <= C)%nat -> pred <> [] ->
  Forall (fun row => length row = C) pred ->
  length target = length pred ->
  Forall (fun t => (0 <= t < Z.of_nat C)%Z) target ->
  LabelSmoothingLoss_forward (LabelSmoothingLoss_init classes s d)
                             (lift2 pred) target
  = Ok (Fin (spec_label_smoothing (1 - s) (s / (IZR classes - 1)) pred target)).
Proof.
  intros Hd Hcls HC Hne Hrows Hlen Htarget.
  rewrite (label_smoothing_lifted classes s d C) by done.
  rewrite tmean_lift.
  2:{ intros Hnil. apply (f_equal length) in Hnil.
      rewrite length_zip_with, length_map, Hlen, Nat.min_id in Hnil.
      by destruct pred. }
  unfold spec_label_smoothing. do 3 f_equal.
  by rewrite length_zip_with, length_map, Hlen, Nat.min_id.
Qed.

Lemma label_smoothing_closed_form_witness :
  LabelSmoothingLoss_forward (LabelSmoothingLoss_init 3 0.1 (-1))
                             (lift2 [[2; 0; 0]]) [0%Z]
  = Ok (Fin (spec_label_smoothing (1 - 0.1) (0.1 / (IZR 3 - 1)) [[2; 0; 0]] [0%Z])).
Proof.
  apply (label_smoothing_closed_form 3 0.1 (-1) 3 [[2; 0; 0]] [0%Z]).
  - by left.
  - done.
  - lia.
  - done.
  - by repeat constructor.
  - reflexivity.
  - repeat constructor; simpl; lia.
Defined.

Lemma log_softmaxR_nonpos (row : list R) : Forall (fun x => x <= 0) (log_softmaxR row).
Proof.
  unfold log_softmaxR. change (map ?g row) with (g <$> row) at 1.
  apply Forall_fmap, Forall_lookup. intros i x Hx. simpl.
  assert (exp x <= sumR (map exp row)) as Hle.
  { apply (sumR_ge_elem _ i).
    - change (map exp row) with (exp <$> row). apply Forall_fmap, Forall_true.
      intros y. simpl. left. apply exp_pos.
    - change (map exp row) with (exp <$> row). by rewrite list_lookup_fmap, Hx. }
  rewrite <- (ln_exp x) at 1.
  destruct Hle as [Hlt|Heq].
  - pose proof (ln_increasing _ _ (exp_pos x) Hlt). lra.
  - rewrite Heq. lra.
Qed.

Lemma sumR_nonpos (l : list R) : Forall (fun x => x <= 0) l -> sumR l <= 0.
Proof. induction 1; simpl; lra. Qed.

Lemma sumR_others_nonpos (l : list R) t :
  Forall (fun x => x <= 0) l -> sumR l - nth t l 0 <= 0.
Proof.
  intros Hl. revert t. induction Hl as [|x l Hx Hl IH]; intros [|t]; simpl;
    try lra.
  - pose proof (sumR_nonpos l Hl). lra.
  - specialize (IH t). lra.
Qed.

Lemma nth_nonpos (l : list R) t : Forall (fun x => x <= 0) l -> nth t l 0 <= 0.
Proof.
  intros Hl. revert t. induction Hl as [|x l Hx Hl IH]; intros [|t]; simpl;
    try lra. apply IH.
Qed.

(** X22.  The label-smoothing loss is never negative: with a smoothing
    factor in [[0, 1]] and more than one class, on finite predictions of a
    non-empty batch, [forward] returns a finite scalar that is at least
    zero. *)
Theorem label_smoothing_nonneg classes s d C (pred : list (list R)) target :
  (d = -1 \/ d = 1)%Z -> (1 < classes)%Z -> 0 <= s <= 1 ->
  (1 <= C)%nat -> pred <> [] ->
  Forall (fun row => length row = C) pred ->
  length target = length pred ->
  Forall (fun t => (0 <= t < Z.of_nat C)%Z) target ->
  exists x,
    LabelSmoothingLoss_forward (LabelSmoothingLoss_init classes s d)
                               (lift2 pred) target = Ok (Fin x) /\ 0 <= x.
Proof.
  intros Hd Hcls Hs HC Hne Hrows Hlen Htarget.
  rewrite (label_smoothing_lifted classes s d C) by (done || lia).
  rewrite tmean_lift.
  2:{ intros Hnil. apply (f_equal length) in Hnil.
      rewrite length_zip_with, length_map, Hlen, Nat.min_id in Hnil.
      by destruct pred. }
  eexists. split; [done|].
  assert (0 <= s / (IZR classes - 1)) as Hfill.
  { assert (2 <= IZR classes) by (apply (IZR_le 2); lia).
    apply Rmult_le_pos; [lra|]. left. apply Rinv_0_lt_compat. lra. }
  apply Rmult_le_pos.
  - apply sumR_nonneg, Forall_lookup. intros i x Hx.
    apply lookup_zip_with_Some in Hx as (lp & t & -> & Hlp & _).
    change (map log_softmaxR pred) with (log_softmaxR <$> pred) in Hlp.
    rewrite list_lookup_fmap in Hlp.
    destruct (pred !! i) as [row|]; simplify_eq/=.
    pose proof (nth_nonpos _ (Z.to_nat t) (log_softmaxR_nonpos row)).
    pose proof (sumR_others_nonpos _ (Z.to_nat t) (log_softmaxR_nonpos row)).
    unfold smoothed_row_loss. nra.
  - left. apply Rinv_0_lt_compat, lt_0_INR.
    rewrite length_zip_with, length_map, Hlen, Nat.min_id.
    destruct pred; simpl; [done|lia].
Qed.

Lemma label_smoothing_nonneg_witness :
  exists x,
    LabelSmoothingLoss_forward (LabelSmoothingLoss_init 3 0.1 (-1))
                               (lift2 [[2; 0; 0]]) [0%Z] = Ok (Fin x) /\ 0 <= x.
Proof.
  apply (label_smoothing_nonneg 3 0.1 (-1) 3 [[2; 0; 0]] [0%Z]).
  - by left.
  - lia.
  - lra.
  - lia.
  - done.
  - by repeat constructor.
  - reflexivity.
  - repeat constructor; simpl; lia.
Defined.

Lemma log_softmaxR_shift c (row : list R) :
  row <> [] -> log_softmaxR (map (fun x => x + c) row) = log_softmaxR row.
Proof.
  intros Hne. unfold log_softmaxR. rewrite map_map. apply map_ext. intros x.
  replace (map (fun x => x + c) row) with (map (fun x => x - - c) row)
    by (apply map_ext; intros; lra).
  rewrite sumR_exp_shift, Ropp_involutive.
  rewrite ln_mult, ln_exp by (apply exp_pos || by apply sumR_exp_pos). lra.
Qed.

(** X23.  The label-smoothing loss sees the predictions through their
    log-softmax only: adding one constant to every finite logit changes
    nothing of what [forward] returns. *)
Theorem label_smoothing_shift_invariant classes s d C c
    (pred : list (list R)) target :
  (d = -1 \/ d = 1)%Z -> classes <> 1%Z -> (1 <= C)%nat ->
  Forall (fun row => length row = C) pred ->
  length target = length pred ->
  Forall (fun t => (0 <= t < Z.of_nat C)%Z) target ->
  LabelSmoothingLoss_forward (LabelSmoothingLoss_init classes s d)
                             (lift2 (map (map (fun x => x + c)) pred)) target
  = LabelSmoothingLoss_forward (LabelSmoothingLoss_init classes s d)
                               (lift2 pred) target.
Proof.
  intros Hd Hcls HC Hrows Hlen Htarget.
  rewrite !(label_smoothing_lifted classes s d C); try done.
  - do 4 f_equal. rewrite map_map. apply list_fmap_ext. intros i row Hrow.
    apply log_softmaxR_shift. rewrite Forall_lookup in Hrows.
    specialize (Hrows i row Hrow). destruct row; simpl in *; [lia|done].
  - change (map ?g pred) with (g <$> pred). apply Forall_fmap.
    eapply Forall_impl; [exact Hrows|]. intros r Hr. simpl. by rewrite length_map.
  - by rewrite length_map.
Qed.

Lemma label_smoothing_shift_invariant_witness :
  LabelSmoothingLoss_forward (LabelSmoothingLoss_init 3 0.1 (-1))
    (lift2 (map (map (fun x => x + 5)) [[2; 0; 0]])) [0%Z]
  = LabelSmoothingLoss_forward (LabelSmoothingLoss_init 3 0.1 (-1))
      (lift2 [[2; 0; 0]]) [0%Z].
Proof.
  apply (label_smoothing_shift_invariant 3 0.1 (-1) 3 5 [[2; 0; 0]] [0%Z]).
  - by left.
  - done.
  - lia.
  - by repeat constructor.
  - reflexivity.
  - repeat constructor; simpl; lia.
Defined.

(** X24.  A single class is a division by zero: when the batch sizes agree
    and [dim] names a dimension of the predictions, a loss constructed with
    [classes = 1] raises [ZeroDivisionError], whatever the smoothing
    factor, the predictions and the targets. *)
Theorem label_smoothing_one_class s d (pred : matrix) target :
  length pred = length target ->
  (d = -2 \/ d = -1 \/ d = 0 \/ d = 1)%Z ->
  LabelSmoothingLoss_forward (LabelSmoothingLoss_init 1 s d) pred target
  = Raise ZeroDivisionError.
Proof.
  intros Hlen Hd. unfold LabelSmoothingLoss_forward.
  rewrite decide_False by lia.
  cbn [smoothing cls confidence LabelSmoothingLoss_init dim].
  replace (IZR 1 - 1) with 0 by lra.
  unfold log_softmax, axis_of_dim.
  repeat case_decide; try lia; cbn [mbind result_bind];
    by rewrite float_div_zero.
Qed.

Lemma label_smoothing_one_class_witness :
  LabelSmoothingLoss_forward (LabelSmoothingLoss_init 1 0 (-1)) [[Fin 0]] [0%Z]
  = Raise ZeroDivisionError.
Proof.
  apply (label_smoothing_one_class 0 (-1) [[Fin 0]] [0%Z]).
  - reflexivity.
  - lia.
Defined.

Lemma scatter_rows_out_of_range (m : matrix) index v b row t :
  m !! b = Some row -> index !! b = Some t ->
  ~ (0 <= t < Z.of_nat (length row))%Z ->
  scatter_rows m index v = Raise RuntimeError.
Proof.
  revert m b. induction index as [|t0 index IH]; intros [|row0 m] b Hrow Ht Hbad;
    simplify_eq/=.
  destruct b as [|b]; simplify_eq/=.
  - by rewrite decide_False.
  - case_decide; [|done]. by rewrite (IH m b).
Qed.

(** X25.  The targets are column indices that [scatter_] checks: along the
    last dimension, with [classes <> 1] and agreeing batch sizes, a target
    that is negative or not below the number of columns of its row makes
    [forward] raise [RuntimeError]. *)
Theorem label_smoothing_target_out_of_range classes s d (pred : matrix)
    target b row t :
  (d = -1 \/ d = 1)%Z -> classes <> 1%Z -> length pred = length target ->
  pred !! b = Some row -> target !! b = Some t ->
  ~ (0 <= t < Z.of_nat (length row))%Z ->
  LabelSmoothingLoss_forward (LabelSmoothingLoss_init classes s d) pred target
  = Raise RuntimeError.
Proof.
  intros Hd Hcls Hlen Hrow Ht Hbad. unfold LabelSmoothingLoss_forward.
  rewrite decide_False by lia.
  cbn [smoothing cls confidence LabelSmoothingLoss_init dim].
  unfold log_softmax, axis_of_dim.
  rewrite !(decide_True (P := (d = 1 \/ d = -1)%Z)) by lia.
  cbn [mbind result_bind].
  rewrite float_div_nonzero.
  2:{ intros Hz. apply Hcls, eq_IZR. lra. }
  cbn [mbind result_bind].
  rewrite (scatter_rows_out_of_range _ _ _ b
             (map (fun _ => Fin (s / (IZR classes - 1))) (log_softmax_row row)) t);
    try done.
  - change (map ?g (map log_softmax_row pred))
      with (g <$> (log_softmax_row <$> pred)).
    by rewrite !list_lookup_fmap, Hrow.
  - unfold log_softmax_row. by rewrite !length_map.
Qed.

Lemma label_smoothing_target_out_of_range_witness :
  LabelSmoothingLoss_forward (LabelSmoothingLoss_init 2 0.1 (-1))
                             [[Fin 0; Fin 0]] [2%Z]
  = Raise RuntimeError.
Proof.
  apply (label_smoothing_target_out_of_range 2 0.1 (-1) [[Fin 0; Fin 0]] [2%Z]
           0 [Fin 0; Fin 0] 2).
  - by left.
  - done.
  - reflexivity.
  - reflexivity.
  - reflexivity.
  - simpl. lia.
Defined.

(* ===================================================================== *)
(** * Single views and empty batches *)

Lemma eye_lift n :
  eye n = lift2 (map (fun i => map (fun j => if Nat.eqb i j then 1 else 0)
                                   (seq 0 n)) (seq 0 n)).
Proof.
  unfold eye. rewrite map_map. apply map_ext. intros i.
  rewrite map_map. apply map_ext. intros j. by destruct (Nat.eqb i j).
Qed.

Lemma tile_1_1 {A} (m : list (list A)) : tile 1 1 m = m.
Proof.
  unfold tile. simpl. rewrite app_nil_r.
  rewrite <- (map_id m) at 2. apply map_ext. intros row. apply app_nil_r.
Qed.

(** The self-zeroed identity mask of a single view has no non-zero
    entry. *)
Lemma single_view_identity_rows n :
  Forall (Forall (fun x => x = 0))
    (spec_mask 1 1 (map (fun i => map (fun j => if Nat.eqb i j then 1 else 0)
                                      (seq 0 n)) (seq 0 n))).
Proof.
  unfold spec_mask. rewrite tile_1_1. apply Forall_lookup. intros r row Hr.
  apply list_lookup_imap_Some in Hr as (row' & Hrow' & ->).
  change (map ?g (seq 0 n)) with (g <$> seq 0 n) in Hrow'.
  rewrite list_lookup_fmap in Hrow'.
  destruct (seq 0 n !! r) as [i|] eqn:Hi; simplify_eq/=.
  apply lookup_seq in Hi as [-> _]. simpl.
  apply Forall_lookup. intros j x Hx.
  apply list_lookup_insert_Some in Hx as [(_ & <- & _)|(Hne & Hx)]; [done|].
  change (map ?g (seq 0 n)) with (g <$> seq 0 n) in Hx.
  rewrite list_lookup_fmap in Hx.
  destruct (seq 0 n !! j) as [j'|] eqn:Hj; simplify_eq/=.
  apply lookup_seq in Hj as [-> _]. simpl.
  destruct (Nat.eqb_spec r j); [done|done].
Qed.

(** X26.  SimCLR needs a second view: without labels and mask, on
    finite features with one view per sample and at least two samples,
    no anchor has a positive and [forward] returns [nan], whatever the
    features. *)
Theorem simclr_single_view_nan self (f : tensor R) :
  flattens f ->
  contrast_mode self = "one"%string \/ contrast_mode self = "all"%string ->
  temperature self <> 0 -> base_temperature self <> 0 ->
  (2 <= size f 0)%nat -> size f 1 = 1%nat ->
  forward self (tensor_map Fin f) None None = Ok NaN.
Proof.
  intros Hf Hmode HT HbT HB HV.
  set (MR := map (fun i => map (fun j => if Nat.eqb i j then 1 else 0)
                               (seq 0 (size f 0))) (seq 0 (size f 0))).
  destruct (forward_lifted_rows self f None None MR) as (Hlen & HLP & ->);
    try done; try lia.
  { unfold forward_mask. by rewrite eye_lift. }
  { unfold MR. rewrite <- lift2_shape, <- eye_lift. apply eye_shape. }
  rewrite float_div_nonzero by done. cbn [mbind result_bind].
  assert (spec_anchor_count (contrast_mode self) (flattened f) = 1%nat) as Ha.
  { unfold spec_anchor_count. rewrite flattened_size1, HV. by case_decide. }
  rewrite Ha, HV in *.
  f_equal. apply zero_rows_nan.
  - congruence.
  - intros Hnil. apply (f_equal length) in Hnil.
    unfold spec_mask in Hnil. rewrite length_imap, tile_1_1 in Hnil.
    unfold MR in Hnil. rewrite length_map, length_seq in Hnil. simpl in Hnil. lia.
  - apply single_view_identity_rows.
Qed.

Lemma simclr_single_view_nan_witness :
  forward plain_loss (tensor_map Fin one_view_features) None None = Ok NaN.
Proof.
  apply (simclr_single_view_nan plain_loss one_view_features).
  - by left.
  - by right.
  - simpl. lra.
  - simpl. lra.
  - unfold size. simpl. lia.
  - reflexivity.
Defined.

(** X27.  An empty batch raises: on rank-3 features with no sample and at
    least one view, with a known mode and a mask derivation that
    succeeds, the maximum over the contrast columns has nothing to reduce
    and [forward] raises [IndexError]. *)
Theorem empty_batch_raises self (f : tensor tval) labels mask m :
  rank f = 3%nat -> size f 0 = 0%nat -> (0 < size f 1)%nat ->
  contrast_mode self = "one"%string \/ contrast_mode self = "all"%string ->
  forward_mask self 0 labels mask = Ok m ->
  forward self f labels mask = Raise IndexError.
Proof.
  intros Hr HB HV Hmode Hm. unfold forward.
  rewrite decide_False, decide_False by lia. cbn [mbind result_bind].
  rewrite HB, Hm. cbn [mbind result_bind].
  assert (concat (unbind1 f) = []) as Hcat.
  { unfold unbind1, select_view. rewrite HB. simpl.
    induction (seq 0 (size f 1)) as [|v l IH]; simpl; [done|]. exact IH. }
  assert (cat0 (unbind1 f) = Ok []) as ->.
  { unfold cat0. rewrite <- Hcat. unfold unbind1.
    destruct (size f 1); [lia|]. reflexivity. }
  cbn [mbind result_bind]. unfold forward_anchor.
  destruct Hmode as [Hone|Hall].
  - rewrite decide_True, decide_False by (done || lia). simpl.
    unfold select_view. rewrite HB. reflexivity.
  - rewrite (decide_False (P := (contrast_mode self = "one"%string)))
      by (rewrite Hall; done).
    rewrite decide_True by done. reflexivity.
Qed.

Lemma empty_batch_raises_witness :
  forward plain_loss {| shape := [0; 1; 1]%nat; data := [] |} None None
  = Raise IndexError.
Proof.
  apply (empty_batch_raises plain_loss {| shape := [0; 1; 1]%nat; data := [] |}
           None None (eye 0)).
  - reflexivity.
  - reflexivity.
  - unfold size. simpl. lia.
  - by right.
  - reflexivity.
Defined.

(** X28.  Flattening features of more than three dimensions either
    fails or is transparent: with an empty batch or no view the size [-1]
    stands for is ambiguous and [forward] raises the [RuntimeError] of
    [view], before it looks at [labels] and [mask]; otherwise [forward]
    does what it does on the features already flattened to rank 3. *)
Theorem high_rank_flattening self (f : tensor tval) labels mask :
  (3 < rank f)%nat ->
  ((size f 0 * size f 1 = 0)%nat ->
   forward self f labels mask = Raise RuntimeError) /\
  ((size f 0 * size f 1 <> 0)%nat ->
   forward self f labels mask = forward self (flattened f) labels mask).
Proof.
  intros Hr. split; intros Hz.
  - unfold forward. rewrite decide_False, decide_True by lia.
    unfold view3. by rewrite decide_True.
  - assert (rank (flattened f) = 3%nat) as Hr3.
    { unfold flattened. by rewrite decide_True. }
    assert (flattened (flattened f) = flattened f) as Hidem.
    { unfold flattened at 1. by rewrite decide_False by lia. }
    rewrite (forward_flattens self f) by (right; split; [lia|done]).
    rewrite (forward_flattens self (flattened f)) by (by left).
    by rewrite Hidem, flattened_size0.
Qed.

Lemma high_rank_flattening_witness :
  ((size {| shape := [0; 2; 1; 1]%nat; data := @nil tval |} 0
    * size {| shape := [0; 2; 1; 1]%nat; data := @nil tval |} 1 = 0)%nat ->
   forward plain_loss {| shape := [0; 2; 1; 1]%nat; data := [] |}
           (Some [0%Z]) (Some [[Fin 1]])
   = Raise RuntimeError) /\
  ((size {| shape := [0; 2; 1; 1]%nat; data := @nil tval |} 0
    * size {| shape := [0; 2; 1; 1]%nat; data := @nil tval |} 1 <> 0)%nat ->
   forward plain_loss {| shape := [0; 2; 1; 1]%nat; data := [] |}
           (Some [0%Z]) (Some [[Fin 1]])
   = forward plain_loss (flattened {| shape := [0; 2; 1; 1]%nat; data := [] |})
             (Some [0%Z]) (Some [[Fin 1]])).
Proof.
  apply (high_rank_flattening plain_loss
           {| shape := [0; 2; 1; 1]%nat; data := [] |}).
  unfold rank. simpl. lia.
Defined.

Lemma sumR_replicate n x : sumR (replicate n x) = INR n * x.
Proof.
  induction n as [|n IH]; [simpl; lra|].
  rewrite S_INR. simpl. rewrite IH. lra.
Qed.

Lemma sumR_all_equal (l : list R) c :
  Forall (fun x => x = c) l -> sumR l = INR (length l) * c.
Proof.
  induction 1 as [|x l -> _ IH]; [simpl; lra|].
  change (length (c :: l)) with (S (length l)). rewrite S_INR. simpl.
  rewrite IH. lra.
Qed.

Lemma log_softmaxR_uniform C a :
  (1 <= C)%nat ->
  log_softmaxR (replicate C a) = replicate C (- ln (INR C)).
Proof.
  intros HC. unfold log_softmaxR.
  change (map ?g (replicate C a)) with (g <$> replicate C a).
  rewrite !fmap_replicate, sumR_replicate. f_equal.
  rewrite ln_mult, ln_exp; [lra| |apply exp_pos].
  apply lt_0_INR. lia.
Qed.

(** X29.  On uniform predictions the smoothing does not show: when
    [classes] is the number [C >= 2] of columns and every row of the
    predictions is constant, the loss is [ln C] whatever the smoothing
    factor and the targets, because the smoothed target weights of a row
    add up to one. *)
Theorem label_smoothing_uniform (C : nat) s d (logits : list R) target :
  (d = -1 \/ d = 1)%Z -> (2 <= C)%nat -> logits <> [] ->
  length target = length logits ->
  Forall (fun t => (0 <= t < Z.of_nat C)%Z) target ->
  LabelSmoothingLoss_forward (LabelSmoothingLoss_init (Z.of_nat C) s d)
    (lift2 (map (fun a => replicate C a) logits)) target
  = Ok (Fin (ln (INR C))).
Proof.
  intros Hd HC Hne Hlen Htarget.
  rewrite (label_smoothing_lifted (Z.of_nat C) s d C); try done; try lia.
  2:{ change (map ?g logits) with (g <$> logits). apply Forall_fmap, Forall_true.
      intros a. simpl. by rewrite length_replicate. }
  2:{ by rewrite length_map. }
  set (losses := zip_with _ _ _).
  assert (length losses = length logits) as Hlosses.
  { unfold losses. rewrite length_zip_with, !length_map, Hlen. lia. }
  assert (Forall (fun x => x = ln (INR C)) losses) as Hall.
  { apply Forall_lookup. intros i x Hx. unfold losses in Hx.
    apply lookup_zip_with_Some in Hx as (lp & t & -> & Hlp & Ht).
    change (map ?g (map ?h logits)) with (g <$> (h <$> logits)) in Hlp.
    rewrite !list_lookup_fmap in Hlp.
    destruct (logits !! i) as [a|]; simplify_eq/=.
    rewrite Forall_lookup in Htarget. specialize (Htarget i t Ht). simpl in Htarget.
    rewrite log_softmaxR_uniform by lia. unfold smoothed_row_loss.
    rewrite sumR_replicate.
    rewrite (nth_lookup_Some _ _ _ (- ln (INR C)))
      by (apply lookup_replicate_2; lia).
    rewrite <- INR_IZR_INZ.
    assert (2 <= INR C) by (apply (le_INR 2); lia).
    field. lra. }
  rewrite tmean_lift.
  2:{ intros Hnil. apply (f_equal length) in Hnil. rewrite Hlosses in Hnil.
      by destruct logits. }
  do 2 f_equal. rewrite (sumR_all_equal _ _ Hall), Hlosses.
  field. apply not_0_INR. by destruct logits.
Qed.

Lemma label_smoothing_uniform_witness :
  LabelSmoothingLoss_forward (LabelSmoothingLoss_init (Z.of_nat 3) 0.1 (-1))
    (lift2 (map (fun a => replicate 3 a) [0; 5])) [0; 2]%Z
  = Ok (Fin (ln (INR 3))).
Proof.
  apply (label_smoothing_uniform 3 0.1 (-1) [0; 5] [0; 2]%Z).
  - by left.
  - lia.
  - done.
  - reflexivity.
  - repeat constructor; simpl; lia.
Defined.
